(** * Fused kernels of the pipelined conjugate gradient solver

    Shallow embedding of
    [viennacl/linalg/host_based/iterative_operations.hpp]: the joint
    vector update [pipelined_cg_vector_update] and the five overloads
    of [pipelined_cg_prod] (compressed, coordinate, ELL, sliced ELL
    and hybrid matrices), together with the properties the
    specification states about them.

    Conventions of the embedding.
    - The element type [T] is a template parameter of every kernel; it
      is kept abstract here as a [Scalar] with the operations the
      kernels use.  The integers ([Z_Scalar]) and IEEE binary64
      ([Float_Scalar], the [double] of the source) are instances.
      Algebraic laws are assumed only by the statements about exact
      arithmetic ([ScalarLaws]); [double] does not satisfy them, and
      what is stated without them holds for [double] as well.
    - A raw pointer obtained with [extract_raw_pointer] is the list of
      the elements of the underlying allocation.  An access outside of
      the allocation is undefined behaviour in C++; here it stops the
      run with the fault [OutOfBounds], naming the buffer and the
      index.  A successful run therefore never touched an index outside
      of the buffers it was given.
    - Index arithmetic is done in [vcl_size_t] in the source (with
      [long] loop counters in two of the kernels); indices are natural
      numbers here, which agrees with the source as long as the sizes
      and the computed offsets do not exceed the range of these types.
    - The kernels receive distinct buffers (no aliasing between the
      vectors of one call). *)

From Stdlib Require Import ZArith Lia List Bool PrimFloat SpecFloat FloatOps FloatAxioms.
From stdpp Require Import base list.

(** ** Scalars *)

(** The operations on [value_type] that occur in the kernels:
    the literal [0], [+] (through [+=]), [-] (through [-=]), [*], and
    the contextual conversion to [bool] of [if (val)] and [val ? _ : _]. *)
Class Scalar (T : Type) := {
  tzero : T;
  tadd : T -> T -> T;
  tsub : T -> T -> T;
  tmul : T -> T -> T;
  truthy : T -> bool
}.

(** Laws of exact arithmetic, used for the statements that compare
    sums taken in different orders. *)
Class ScalarLaws (T : Type) `{Scalar T} : Prop := {
  tadd_comm : forall x y : T, tadd x y = tadd y x;
  tadd_assoc : forall x y z : T, tadd x (tadd y z) = tadd (tadd x y) z;
  tadd_0_l : forall x : T, tadd tzero x = x;
  tmul_comm : forall x y : T, tmul x y = tmul y x;
  tmul_0_l : forall x : T, tmul tzero x = tzero;
  tmul_add_distr_r : forall x y z : T, tmul (tadd x y) z = tadd (tmul x z) (tmul y z);
  truthy_spec : forall x : T, truthy x = false <-> x = tzero
}.

#[export] Instance Z_Scalar : Scalar Z := {|
  tzero := 0%Z;
  tadd := Z.add;
  tsub := Z.sub;
  tmul := Z.mul;
  truthy := fun x => negb (Z.eqb x 0)
|}.

(** [double]: IEEE binary64 arithmetic, every operation rounded to
    nearest on its own (no fused multiply-add, no extended precision).
    [if (val)] is [val != 0], which is false for both zeros and true for
    a NaN. *)
#[export] Instance Float_Scalar : Scalar float := {|
  tzero := PrimFloat.zero;
  tadd := PrimFloat.add;
  tsub := PrimFloat.sub;
  tmul := PrimFloat.mul;
  truthy := fun x => negb (PrimFloat.eqb x PrimFloat.zero)
|}.

#[export] Instance Z_ScalarLaws : ScalarLaws Z.
Proof.
  split; simpl; intros; lia.
Qed.

(** ** Runs that may fault *)

Inductive buffer : Set :=
  | data_result | data_p | data_r | data_Ap | data_buffer
  | Ap_buf | p_buf | elements | row_buffer | col_buffer | coord_buffer
  | coords | columns_per_block | column_indices | block_start | result_values
  | csr_elements | csr_row_buffer | csr_col_buffer.

Inductive fault : Set :=
  | OutOfBounds (b : buffer) (i : nat)
  | DivisionByZero.

Definition run (A : Type) : Type := fault + A.

Definition ret {A : Type} (a : A) : run A := inr a.

Definition bind {A B : Type} (c : run A) (k : A -> run B) : run B :=
  match c with
  | inl e => inl e
  | inr a => k a
  end.

Declare Scope run_scope.
Delimit Scope run_scope with run.
Notation "'do' x <- c ; k" := (bind c (fun x => k))
  (at level 10, x pattern, c at level 100, k at level 200) : run_scope.
Open Scope run_scope.

(** [b[i]] as an rvalue. *)
Definition read {A : Type} (b : buffer) (l : list A) (i : nat) : run A :=
  match l !! i with
  | Some x => ret x
  | None => inl (OutOfBounds b i)
  end.

(** [b[i] = x]. *)
Definition write {A : Type} (b : buffer) (l : list A) (i : nat) (x : A) : run (list A) :=
  if decide (i < length l) then ret (<[i := x]> l) else inl (OutOfBounds b i).

(** [for (i = lo; i < lo + n; ++i) body], the state threaded through. *)
Fixpoint for_loop {S : Type} (n : nat) (lo : nat) (body : nat -> S -> run S) (s : S) : run S :=
  match n with
  | O => ret s
  | Datatypes.S n' => do s' <- body lo s; for_loop n' (Datatypes.S lo) body s'
  end.

(** [for (i = lo; i < hi; ++i) body]: no iteration when [hi <= lo]. *)
Definition for_range {S : Type} (lo hi : nat) (body : nat -> S -> run S) (s : S) : run S :=
  for_loop (hi - lo) lo body s.

(** ** Vectors *)

(** [vector_base<T>]: the logical size reported by [size()] and the
    allocation behind [handle()].  The CG kernels ignore start and
    stride (see the note in the source), so they are not modelled. *)
Module vector_base.
Record t (T : Type) : Type := mk { size : nat; handle : list T }.
Arguments mk {T} _ _.
Arguments size {T} _.
Arguments handle {T} _.
End vector_base.

(** ** Sparse matrices

    The five matrix classes are declared outside of the file under
    study; each is taken as the record of the accessors its kernel
    calls, under the accessors' names.  The comment of each field gives
    the name of the raw pointer the kernel binds it to. *)

Module compressed_matrix.
Record t (T : Type) : Type := mk {
  size1 : nat;
  handle : list T;       (* elements *)
  handle1 : list nat;    (* row_buffer *)
  handle2 : list nat     (* col_buffer *)
}.
Arguments mk {T} _ _ _ _.
Arguments size1 {T} _.
Arguments handle {T} _.
Arguments handle1 {T} _.
Arguments handle2 {T} _.
End compressed_matrix.

Module coordinate_matrix.
Record t (T : Type) : Type := mk {
  nnz : nat;
  handle : list T;       (* elements *)
  handle12 : list nat    (* coord_buffer: row, column, row, column, ... *)
}.
Arguments mk {T} _ _ _.
Arguments nnz {T} _.
Arguments handle {T} _.
Arguments handle12 {T} _.
End coordinate_matrix.

Module ell_matrix.
Record t (T : Type) : Type := mk {
  size1 : nat;
  internal_size1 : nat;
  internal_maxnnz : nat;
  handle : list T;       (* elements *)
  handle2 : list nat     (* coords *)
}.
Arguments mk {T} _ _ _ _ _.
Arguments size1 {T} _.
Arguments internal_size1 {T} _.
Arguments internal_maxnnz {T} _.
Arguments handle {T} _.
Arguments handle2 {T} _.
End ell_matrix.

Module sliced_ell_matrix.
Record t (T : Type) : Type := mk {
  size1 : nat;
  rows_per_block : nat;
  handle : list T;       (* elements *)
  handle1 : list nat;    (* columns_per_block *)
  handle2 : list nat;    (* column_indices *)
  handle3 : list nat     (* block_start *)
}.
Arguments mk {T} _ _ _ _ _ _.
Arguments size1 {T} _.
Arguments rows_per_block {T} _.
Arguments handle {T} _.
Arguments handle1 {T} _.
Arguments handle2 {T} _.
Arguments handle3 {T} _.
End sliced_ell_matrix.

Module hyb_matrix.
Record t (T : Type) : Type := mk {
  size1 : nat;
  internal_size1 : nat;
  internal_ellnnz : nat;
  handle : list T;       (* elements *)
  handle2 : list nat;    (* coords *)
  handle3 : list nat;    (* csr_row_buffer *)
  handle4 : list nat;    (* csr_col_buffer *)
  handle5 : list T       (* csr_elements *)
}.
Arguments mk {T} _ _ _ _ _ _ _ _.
Arguments size1 {T} _.
Arguments internal_size1 {T} _.
Arguments internal_ellnnz {T} _.
Arguments handle {T} _.
Arguments handle2 {T} _.
Arguments handle3 {T} _.
Arguments handle4 {T} _.
Arguments handle5 {T} _.
End hyb_matrix.

Section Kernels.
Context {T : Type} `{Scalar T}.

(** Element [i] of a buffer, [tzero] outside of it (used in statements only). *)
Definition get (l : list T) (i : nat) : T := default tzero (l !! i).

(** ** The joint vector update *)

Definition vector_update_body (alpha beta : T) (dAp : list T) (i : nat)
    (s : list T * list T * list T * T) : run (list T * list T * list T * T) :=
  let '(dres, dp, dr, inner_prod_r) := s in
  do value_p <- read data_p dp i;
  do value_r <- read data_r dr i;
  do res_i <- read data_result dres i;
  do dres <- write data_result dres i (tadd res_i (tmul alpha value_p));
  do Ap_i <- read data_Ap dAp i;
  let value_r := tsub value_r (tmul alpha Ap_i) in
  let value_p := tadd value_r (tmul beta value_p) in
  let inner_prod_r := tadd inner_prod_r (tmul value_r value_r) in
  do dp <- write data_p dp i value_p;
  do dr <- write data_r dr i value_r;
  ret (dres, dp, dr, inner_prod_r).

Definition pipelined_cg_vector_update
    (result : vector_base.t T) (alpha : T) (p r Ap : vector_base.t T) (beta : T)
    (inner_prod_buffer : vector_base.t T)
    : run (vector_base.t T * vector_base.t T * vector_base.t T * vector_base.t T) :=
  let size := vector_base.size result in
  do (dres, dp, dr, inner_prod_r) <-
    for_range 0 size (vector_update_body alpha beta (vector_base.handle Ap))
      (vector_base.handle result, vector_base.handle p, vector_base.handle r, tzero);
  do dbuf <- write data_buffer (vector_base.handle inner_prod_buffer) 0 inner_prod_r;
  ret (vector_base.mk (vector_base.size result) dres,
       vector_base.mk (vector_base.size p) dp,
       vector_base.mk (vector_base.size r) dr,
       vector_base.mk (vector_base.size inner_prod_buffer) dbuf).

(** ** Fused products *)

(** The two stores that end every overload of [pipelined_cg_prod]. *)
Definition store_inner_prods (inner_prod_buffer : vector_base.t T)
    (inner_prod_ApAp inner_prod_pAp : T) : run (vector_base.t T) :=
  let buffer_size_per_vector := vector_base.size inner_prod_buffer / 3 in
  do dbuf <- write data_buffer (vector_base.handle inner_prod_buffer)
               buffer_size_per_vector inner_prod_ApAp;
  do dbuf <- write data_buffer dbuf (2 * buffer_size_per_vector) inner_prod_pAp;
  ret (vector_base.mk (vector_base.size inner_prod_buffer) dbuf).

(** *** compressed_matrix *)

Definition csr_entry_body (elems : list T) (col_buf : list nat) (pb : list T)
    (i : nat) (dot_prod : T) : run T :=
  do e <- read elements elems i;
  do c <- read col_buffer col_buf i;
  do pv <- read p_buf pb c;
  ret (tadd dot_prod (tmul e pv)).

Definition csr_row_body (A : compressed_matrix.t T) (pb : list T) (row : nat)
    (s : list T * T * T) : run (list T * T * T) :=
  let '(Apb, inner_prod_ApAp, inner_prod_pAp) := s in
  do val_p_diag <- read p_buf pb row;
  do row_end <- read row_buffer (compressed_matrix.handle1 A) (row + 1);
  do row_begin <- read row_buffer (compressed_matrix.handle1 A) row;
  do dot_prod <- for_range row_begin row_end
      (csr_entry_body (compressed_matrix.handle A) (compressed_matrix.handle2 A) pb) tzero;
  do Apb <- write Ap_buf Apb row dot_prod;
  ret (Apb, tadd inner_prod_ApAp (tmul dot_prod dot_prod),
       tadd inner_prod_pAp (tmul val_p_diag dot_prod)).

Definition pipelined_cg_prod_compressed_matrix (A : compressed_matrix.t T)
    (p Ap inner_prod_buffer : vector_base.t T) : run (vector_base.t T * vector_base.t T) :=
  do (Apb, inner_prod_ApAp, inner_prod_pAp) <-
    for_range 0 (compressed_matrix.size1 A) (csr_row_body A (vector_base.handle p))
      (vector_base.handle Ap, tzero, tzero);
  do buf <- store_inner_prods inner_prod_buffer inner_prod_ApAp inner_prod_pAp;
  ret (vector_base.mk (vector_base.size Ap) Apb, buf).

(** *** coordinate_matrix *)

Definition coo_flush_body (i : nat) (Apb : list T) : run (list T) :=
  write Ap_buf Apb i tzero.

Definition coo_scatter_body (A : coordinate_matrix.t T) (pb : list T) (i : nat)
    (Apb : list T) : run (list T) :=
  do row <- read coord_buffer (coordinate_matrix.handle12 A) (2 * i);
  do old <- read Ap_buf Apb row;
  do e <- read elements (coordinate_matrix.handle A) i;
  do col <- read coord_buffer (coordinate_matrix.handle12 A) (2 * i + 1);
  do pv <- read p_buf pb col;
  write Ap_buf Apb row (tadd old (tmul e pv)).

Definition coo_reduce_body (Apb pb : list T) (i : nat) (s : T * T) : run (T * T) :=
  let '(inner_prod_ApAp, inner_prod_pAp) := s in
  do value_Ap <- read Ap_buf Apb i;
  do value_p <- read p_buf pb i;
  ret (tadd inner_prod_ApAp (tmul value_Ap value_Ap),
       tadd inner_prod_pAp (tmul value_Ap value_p)).

Definition pipelined_cg_prod_coordinate_matrix (A : coordinate_matrix.t T)
    (p Ap inner_prod_buffer : vector_base.t T) : run (vector_base.t T * vector_base.t T) :=
  do Apb <- for_range 0 (vector_base.size Ap) coo_flush_body (vector_base.handle Ap);
  do Apb <- for_range 0 (coordinate_matrix.nnz A)
              (coo_scatter_body A (vector_base.handle p)) Apb;
  do (inner_prod_ApAp, inner_prod_pAp) <-
    for_range 0 (vector_base.size Ap) (coo_reduce_body Apb (vector_base.handle p))
      (tzero, tzero);
  do buf <- store_inner_prods inner_prod_buffer inner_prod_ApAp inner_prod_pAp;
  ret (vector_base.mk (vector_base.size Ap) Apb, buf).

(** *** ell_matrix (and the ELL part of hyb_matrix) *)

Definition ell_item_body (elems : list T) (crd : list nat) (stride : nat) (pb : list T)
    (row : nat) (item_id : nat) (sum : T) : run T :=
  let offset := row + item_id * stride in
  do val <- read elements elems offset;
  if truthy val then
    do c <- read coords crd offset;
    do pv <- read p_buf pb c;
    ret (tadd sum (tmul pv val))
  else ret sum.

Definition ell_row_body (A : ell_matrix.t T) (pb : list T) (row : nat)
    (s : list T * T * T) : run (list T * T * T) :=
  let '(Apb, inner_prod_ApAp, inner_prod_pAp) := s in
  do val_p_diag <- read p_buf pb row;
  do sum <- for_range 0 (ell_matrix.internal_maxnnz A)
      (ell_item_body (ell_matrix.handle A) (ell_matrix.handle2 A)
         (ell_matrix.internal_size1 A) pb row) tzero;
  do Apb <- write Ap_buf Apb row sum;
  ret (Apb, tadd inner_prod_ApAp (tmul sum sum),
       tadd inner_prod_pAp (tmul val_p_diag sum)).

Definition pipelined_cg_prod_ell_matrix (A : ell_matrix.t T)
    (p Ap inner_prod_buffer : vector_base.t T) : run (vector_base.t T * vector_base.t T) :=
  do (Apb, inner_prod_ApAp, inner_prod_pAp) <-
    for_range 0 (ell_matrix.size1 A) (ell_row_body A (vector_base.handle p))
      (vector_base.handle Ap, tzero, tzero);
  do buf <- store_inner_prods inner_prod_buffer inner_prod_ApAp inner_prod_pAp;
  ret (vector_base.mk (vector_base.size Ap) Apb, buf).

(** *** sliced_ell_matrix *)

Definition sell_clear_body (i : nat) (rv : list T) : run (list T) :=
  write result_values rv i tzero.

Definition sell_slot_body (A : sliced_ell_matrix.t T) (pb : list T) (stride_start : nat)
    (row_in_block : nat) (rv : list T) : run (list T) :=
  do val <- read elements (sliced_ell_matrix.handle A) (stride_start + row_in_block);
  do old <- read result_values rv row_in_block;
  do contrib <-
    (if truthy val then
       do c <- read column_indices (sliced_ell_matrix.handle2 A) (stride_start + row_in_block);
       do pv <- read p_buf pb c;
       ret (tmul pv val)
     else ret tzero);
  write result_values rv row_in_block (tadd old contrib).

Definition sell_column_body (A : sliced_ell_matrix.t T) (pb : list T) (block_idx : nat)
    (column_entry_index : nat) (rv : list T) : run (list T) :=
  do bs <- read block_start (sliced_ell_matrix.handle3 A) block_idx;
  let stride_start := bs + column_entry_index * sliced_ell_matrix.rows_per_block A in
  for_range 0 (sliced_ell_matrix.rows_per_block A) (sell_slot_body A pb stride_start) rv.

Definition sell_out_body (Ap_size : nat) (pb rv : list T) (first_row_in_matrix : nat)
    (row_in_block : nat) (s : list T * T * T) : run (list T * T * T) :=
  let '(Apb, inner_prod_ApAp, inner_prod_pAp) := s in
  let row := first_row_in_matrix + row_in_block in
  if decide (row < Ap_size) then
    do row_result <- read result_values rv row_in_block;
    do Apb <- write Ap_buf Apb row row_result;
    do p_row <- read p_buf pb row;
    ret (Apb, tadd inner_prod_ApAp (tmul row_result row_result),
         tadd inner_prod_pAp (tmul p_row row_result))
  else ret s.

Definition sell_block_body (A : sliced_ell_matrix.t T) (pb : list T) (Ap_size : nat)
    (block_idx : nat) (s : list T * (list T * T * T)) : run (list T * (list T * T * T)) :=
  let '(rv, out) := s in
  do current_columns_per_block <-
    read columns_per_block (sliced_ell_matrix.handle1 A) block_idx;
  do rv <- for_range 0 (length rv) sell_clear_body rv;
  do rv <- for_range 0 current_columns_per_block (sell_column_body A pb block_idx) rv;
  let first_row_in_matrix := block_idx * sliced_ell_matrix.rows_per_block A in
  do out <- for_range 0 (sliced_ell_matrix.rows_per_block A)
              (sell_out_body Ap_size pb rv first_row_in_matrix) out;
  ret (rv, out).

(** The loop over the blocks, for a given number of blocks. *)
Definition sell_blocks (A : sliced_ell_matrix.t T) (pb : list T) (Ap_size : nat)
    (num_blocks : nat) (Apb : list T) : run (list T * (list T * T * T)) :=
  for_range 0 num_blocks (sell_block_body A pb Ap_size)
    (replicate (sliced_ell_matrix.rows_per_block A) tzero, (Apb, tzero, tzero)).

Definition pipelined_cg_prod_sliced_ell_matrix (A : sliced_ell_matrix.t T)
    (p Ap inner_prod_buffer : vector_base.t T) : run (vector_base.t T * vector_base.t T) :=
  do num_blocks <-
    (if decide (sliced_ell_matrix.rows_per_block A = 0) then inl DivisionByZero
     else ret (sliced_ell_matrix.size1 A / sliced_ell_matrix.rows_per_block A + 1));
  do (_, (Apb, inner_prod_ApAp, inner_prod_pAp)) <-
    sell_blocks A (vector_base.handle p) (vector_base.size Ap) num_blocks
      (vector_base.handle Ap);
  do buf <- store_inner_prods inner_prod_buffer inner_prod_ApAp inner_prod_pAp;
  ret (vector_base.mk (vector_base.size Ap) Apb, buf).

(** *** hyb_matrix *)

Definition hyb_csr_body (A : hyb_matrix.t T) (pb : list T) (item_id : nat) (sum : T)
    : run T :=
  do c <- read csr_col_buffer (hyb_matrix.handle4 A) item_id;
  do pv <- read p_buf pb c;
  do e <- read csr_elements (hyb_matrix.handle5 A) item_id;
  ret (tadd sum (tmul pv e)).

Definition hyb_row_body (A : hyb_matrix.t T) (pb : list T) (row : nat)
    (s : list T * T * T) : run (list T * T * T) :=
  let '(Apb, inner_prod_ApAp, inner_prod_pAp) := s in
  do val_p_diag <- read p_buf pb row;
  do sum <- for_range 0 (hyb_matrix.internal_ellnnz A)
      (ell_item_body (hyb_matrix.handle A) (hyb_matrix.handle2 A)
         (hyb_matrix.internal_size1 A) pb row) tzero;
  do col_begin <- read csr_row_buffer (hyb_matrix.handle3 A) row;
  do col_end <- read csr_row_buffer (hyb_matrix.handle3 A) (row + 1);
  do sum <- for_range col_begin col_end (hyb_csr_body A pb) sum;
  do Apb <- write Ap_buf Apb row sum;
  ret (Apb, tadd inner_prod_ApAp (tmul sum sum),
       tadd inner_prod_pAp (tmul val_p_diag sum)).

Definition pipelined_cg_prod_hyb_matrix (A : hyb_matrix.t T)
    (p Ap inner_prod_buffer : vector_base.t T) : run (vector_base.t T * vector_base.t T) :=
  do (Apb, inner_prod_ApAp, inner_prod_pAp) <-
    for_range 0 (hyb_matrix.size1 A) (hyb_row_body A (vector_base.handle p))
      (vector_base.handle Ap, tzero, tzero);
  do buf <- store_inner_prods inner_prod_buffer inner_prod_ApAp inner_prod_pAp;
  ret (vector_base.mk (vector_base.size Ap) Apb, buf).

End Kernels.

(** *** Overload resolution

    [pipelined_cg_prod] is one overloaded name in the source; the
    matrix type selects the kernel. *)
Inductive sparse_matrix (T : Type) : Type :=
  | CSR (A : compressed_matrix.t T)
  | COO (A : coordinate_matrix.t T)
  | ELL (A : ell_matrix.t T)
  | SELL (A : sliced_ell_matrix.t T)
  | HYB (A : hyb_matrix.t T).
Arguments CSR {T} A.
Arguments COO {T} A.
Arguments ELL {T} A.
Arguments SELL {T} A.
Arguments HYB {T} A.

Definition pipelined_cg_prod {T : Type} `{Scalar T} (A : sparse_matrix T)
    (p Ap inner_prod_buffer : vector_base.t T) : run (vector_base.t T * vector_base.t T) :=
  match A with
  | CSR A => pipelined_cg_prod_compressed_matrix A p Ap inner_prod_buffer
  | COO A => pipelined_cg_prod_coordinate_matrix A p Ap inner_prod_buffer
  | ELL A => pipelined_cg_prod_ell_matrix A p Ap inner_prod_buffer
  | SELL A => pipelined_cg_prod_sliced_ell_matrix A p Ap inner_prod_buffer
  | HYB A => pipelined_cg_prod_hyb_matrix A p Ap inner_prod_buffer
  end.

(** The result of a run, the fault forgotten. *)
Definition completed {A : Type} (c : run A) : option A :=
  match c with
  | inl _ => None
  | inr a => Some a
  end.

(** The allocations behind the four vectors a vector update returns. *)
Definition handles_of {T : Type}
    (out : vector_base.t T * vector_base.t T * vector_base.t T * vector_base.t T)
    : list T * list T * list T * list T :=
  let '(result, p, r, buf) := out in
  (vector_base.handle result, vector_base.handle p, vector_base.handle r,
   vector_base.handle buf).

(** ** Specification vocabulary *)

Section Specs.
Context {T : Type} `{Scalar T}.

(** Entry [i] of an index buffer, [0] outside of it. *)
Definition geti (l : list nat) (i : nat) : nat := default 0 (l !! i).

(** [old] with its first [n] elements replaced by [f 0], ..., [f (n-1)]. *)
Definition tabulate (f : nat -> T) (n : nat) (old : list T) : list T :=
  map f (seq 0 n) ++ drop n old.

(** The sum of [f 0], ..., [f (n-1)], accumulated in this order from [0]
    (the shape of every reduction in the kernels). *)
Definition tsum (f : nat -> T) (n : nat) : T :=
  fold_left (fun acc i => tadd acc (f i)) (seq 0 n) tzero.

(** The sum of [x[i] * y[i]] over [i] in [[0,n)], taken in the order of [i]. *)
Definition inner_prod (x y : list T) (n : nat) : T :=
  tsum (fun i => tmul (get x i) (get y i)) n.

(** *** The recurrence of the vector update *)

Definition new_result (alpha : T) (dres dp : list T) (i : nat) : T :=
  tadd (get dres i) (tmul alpha (get dp i)).

Definition new_r (alpha : T) (dr dAp : list T) (i : nat) : T :=
  tsub (get dr i) (tmul alpha (get dAp i)).

Definition new_p (alpha beta : T) (dp dr dAp : list T) (i : nat) : T :=
  tadd (new_r alpha dr dAp i) (tmul beta (get dp i)).

(** *** Stored entries of a row, as (column, value) pairs in storage order *)

Definition csr_entries (rowb colb : list nat) (elems : list T) (row : nat)
    : list (nat * T) :=
  map (fun i => (geti colb i, get elems i))
      (seq (geti rowb row) (geti rowb (row + 1) - geti rowb row)).

Definition coo_entries (A : coordinate_matrix.t T) (row : nat) : list (nat * T) :=
  flat_map (fun i =>
      if decide (geti (coordinate_matrix.handle12 A) (2 * i) = row)
      then [(geti (coordinate_matrix.handle12 A) (2 * i + 1),
             get (coordinate_matrix.handle A) i)]
      else [])
    (seq 0 (coordinate_matrix.nnz A)).

(** A slot of an ELL structure holds an entry when its value is not [0]. *)
Definition slot_entry (elems : list T) (crd : list nat) (offset : nat) : list (nat * T) :=
  if truthy (get elems offset) then [(geti crd offset, get elems offset)] else [].

Definition ell_entries (elems : list T) (crd : list nat) (stride maxnnz : nat) (row : nat)
    : list (nat * T) :=
  flat_map (fun item_id => slot_entry elems crd (row + item_id * stride)) (seq 0 maxnnz).

Definition sell_offset (A : sliced_ell_matrix.t T) (row column_entry_index : nat) : nat :=
  let rpb := sliced_ell_matrix.rows_per_block A in
  geti (sliced_ell_matrix.handle3 A) (row / rpb) + column_entry_index * rpb + row mod rpb.

Definition sell_entries (A : sliced_ell_matrix.t T) (row : nat) : list (nat * T) :=
  flat_map (fun cei =>
      slot_entry (sliced_ell_matrix.handle A) (sliced_ell_matrix.handle2 A)
        (sell_offset A row cei))
    (seq 0 (geti (sliced_ell_matrix.handle1 A)
                 (row / sliced_ell_matrix.rows_per_block A))).

Definition hyb_entries (A : hyb_matrix.t T) (row : nat) : list (nat * T) :=
  ell_entries (hyb_matrix.handle A) (hyb_matrix.handle2 A)
    (hyb_matrix.internal_size1 A) (hyb_matrix.internal_ellnnz A) row
  ++ csr_entries (hyb_matrix.handle3 A) (hyb_matrix.handle4 A) (hyb_matrix.handle5 A) row.

Definition row_entries (A : sparse_matrix T) (row : nat) : list (nat * T) :=
  match A with
  | CSR A => csr_entries (compressed_matrix.handle1 A) (compressed_matrix.handle2 A)
               (compressed_matrix.handle A) row
  | COO A => coo_entries A row
  | ELL A => ell_entries (ell_matrix.handle A) (ell_matrix.handle2 A)
               (ell_matrix.internal_size1 A) (ell_matrix.internal_maxnnz A) row
  | SELL A => sell_entries A row
  | HYB A => hyb_entries A row
  end.

(** *** The logical matrix and its product with a vector *)

(** The value at column [col] of a row given by its stored entries
    (an entry stored twice counts twice, as it does in the kernels). *)
Definition entry (es : list (nat * T)) (col : nat) : T :=
  fold_left (fun acc cv => if decide (fst cv = col) then tadd acc (snd cv) else acc)
    es tzero.

Definition matrix_entry (A : sparse_matrix T) (row col : nat) : T :=
  entry (row_entries A row) col.

(** Two stored matrices are logically equal when they give the same
    [(row, col) -> value] mapping on [M x N]. *)
Definition logically_equal (M N : nat) (A B : sparse_matrix T) : Prop :=
  forall row col, row < M -> col < N -> matrix_entry A row col = matrix_entry B row col.

(** Row [row] of the dense product: the sum over all columns of
    [A(row,col) * p[col]]. *)
Definition prod_row (A : sparse_matrix T) (N : nat) (pb : list T) (row : nat) : T :=
  tsum (fun col => tmul (matrix_entry A row col) (get pb col)) N.

(** *** What each kernel accumulates for a row, in its own order *)

Definition dot_vp (es : list (nat * T)) (pb : list T) (init : T) : T :=
  fold_left (fun acc cv => tadd acc (tmul (snd cv) (get pb (fst cv)))) es init.

Definition dot_pv (es : list (nat * T)) (pb : list T) (init : T) : T :=
  fold_left (fun acc cv => tadd acc (tmul (get pb (fst cv)) (snd cv))) es init.

(** The sliced ELL kernel adds a term for every slot, [0] for an empty one. *)
Definition sell_slot_value (A : sliced_ell_matrix.t T) (pb : list T) (offset : nat) : T :=
  let val := get (sliced_ell_matrix.handle A) offset in
  if truthy val then tmul (get pb (geti (sliced_ell_matrix.handle2 A) offset)) val
  else tzero.

Definition sell_dot (A : sliced_ell_matrix.t T) (pb : list T) (row : nat) : T :=
  tsum (fun cei => sell_slot_value A pb (sell_offset A row cei))
    (geti (sliced_ell_matrix.handle1 A) (row / sliced_ell_matrix.rows_per_block A)).

Definition kernel_row (A : sparse_matrix T) (pb : list T) (row : nat) : T :=
  match A with
  | CSR _ | COO _ => dot_vp (row_entries A row) pb tzero
  | ELL _ | HYB _ => dot_pv (row_entries A row) pb tzero
  | SELL A => sell_dot A pb row
  end.

(** The second reduction as each kernel multiplies it: the coordinate
    kernel computes [Ap[i] * p[i]], the others [p[row] * Ap[row]]. *)
Definition kernel_pAp (A : sparse_matrix T) (pb Apb : list T) (M : nat) : T :=
  match A with
  | COO _ => inner_prod Apb pb M
  | _ => inner_prod pb Apb M
  end.

(** *** Well-formed inputs *)

Definition csr_ok (rowb colb : list nat) (elems : list T) (M N : nat) : Prop :=
  M < length rowb /\
  forall row i, row < M -> geti rowb row <= i < geti rowb (row + 1) ->
    i < length elems /\ exists c, colb !! i = Some c /\ c < N.

Definition coo_ok (A : coordinate_matrix.t T) (M N : nat) : Prop :=
  forall i, i < coordinate_matrix.nnz A ->
    i < length (coordinate_matrix.handle A) /\
    exists r c, coordinate_matrix.handle12 A !! (2 * i) = Some r /\
                coordinate_matrix.handle12 A !! (2 * i + 1) = Some c /\
                r < M /\ c < N.

Definition slot_ok (elems : list T) (crd : list nat) (N : nat) (offset : nat) : Prop :=
  offset < length elems /\
  (truthy (get elems offset) = true -> exists c, crd !! offset = Some c /\ c < N).

Definition ell_ok (elems : list T) (crd : list nat) (stride maxnnz : nat) (M N : nat)
    : Prop :=
  forall row item_id, row < M -> item_id < maxnnz ->
    slot_ok elems crd N (row + item_id * stride).

(** The block loop runs over the blocks [0 .. M / rows_per_block];
    every slot of every block is visited, also those of the rows of
    the last block that lie beyond [M]. *)
Definition sell_ok (A : sliced_ell_matrix.t T) (M N : nat) : Prop :=
  let rpb := sliced_ell_matrix.rows_per_block A in
  0 < rpb /\
  forall block, block <= M / rpb ->
    exists cols, sliced_ell_matrix.handle1 A !! block = Some cols /\
      forall cei, cei < cols ->
        exists bs, sliced_ell_matrix.handle3 A !! block = Some bs /\
          forall rib, rib < rpb ->
            slot_ok (sliced_ell_matrix.handle A) (sliced_ell_matrix.handle2 A) N
              (bs + cei * rpb + rib).

Definition matrix_ok (A : sparse_matrix T) (M N : nat) : Prop :=
  match A with
  | CSR A => compressed_matrix.size1 A = M /\
             csr_ok (compressed_matrix.handle1 A) (compressed_matrix.handle2 A)
               (compressed_matrix.handle A) M N
  | COO A => coo_ok A M N
  | ELL A => ell_matrix.size1 A = M /\
             ell_ok (ell_matrix.handle A) (ell_matrix.handle2 A)
               (ell_matrix.internal_size1 A) (ell_matrix.internal_maxnnz A) M N
  | SELL A => sliced_ell_matrix.size1 A = M /\ sell_ok A M N
  | HYB A => hyb_matrix.size1 A = M /\
             ell_ok (hyb_matrix.handle A) (hyb_matrix.handle2 A)
               (hyb_matrix.internal_size1 A) (hyb_matrix.internal_ellnnz A) M N /\
             csr_ok (hyb_matrix.handle3 A) (hyb_matrix.handle4 A) (hyb_matrix.handle5 A) M N
  end.

(** The vectors of a product with an [M x N] matrix: [Ap] has size [M],
    [p] has size [N], both allocations hold at least their size, [p] can
    be read at every row index, and the reduction buffer holds the two
    slots the kernel stores to, at a stride of at least one. *)
Definition vectors_ok (M N : nat) (p Ap inner_prod_buffer : vector_base.t T) : Prop :=
  vector_base.size Ap = M /\ M <= length (vector_base.handle Ap) /\
  vector_base.size p = N /\ N <= length (vector_base.handle p) /\
  M <= length (vector_base.handle p) /\
  1 <= vector_base.size inner_prod_buffer / 3 /\
  2 * (vector_base.size inner_prod_buffer / 3) < length (vector_base.handle inner_prod_buffer).

(** What a product kernel needs of its vectors in order to run: the
    allocations of [Ap] and [p] hold the first [M] elements, that of [p]
    also the first [N], and the reduction buffer holds the two offsets
    the kernel stores to. *)
Definition buffers_ok (M N : nat) (p Ap inner_prod_buffer : vector_base.t T) : Prop :=
  vector_base.size Ap = M /\ M <= length (vector_base.handle Ap) /\
  N <= length (vector_base.handle p) /\ M <= length (vector_base.handle p) /\
  2 * (vector_base.size inner_prod_buffer / 3) < length (vector_base.handle inner_prod_buffer).

(** A coordinate matrix built from a list of [(row, column, value)] triples. *)
Definition coo_of_triples (l : list (nat * nat * T)) : coordinate_matrix.t T :=
  coordinate_matrix.mk (length l) (map snd l)
    (flat_map (fun t => [fst (fst t); snd (fst t)]) l).

(** The reduction buffer after the two stores of a product kernel. *)
Definition stored_inner_prods (inner_prod_buffer : vector_base.t T) (ApAp pAp : T)
    : vector_base.t T :=
  let B := vector_base.size inner_prod_buffer / 3 in
  vector_base.mk (vector_base.size inner_prod_buffer)
    (<[2 * B := pAp]> (<[B := ApAp]> (vector_base.handle inner_prod_buffer))).

End Specs.

(** ** Example inputs

    The [1 x 1] matrix with the single value [5], in each layout. *)

Definition one_by_one_csr : sparse_matrix Z :=
  CSR (compressed_matrix.mk 1 [5%Z] [0; 1] [0]).

Definition one_by_one_coo : sparse_matrix Z :=
  COO (coordinate_matrix.mk 1 [5%Z] [0; 0]).

Definition one_by_one_ell : sparse_matrix Z :=
  ELL (ell_matrix.mk 1 1 1 [5%Z] [0]).

Definition one_by_one_sell : sparse_matrix Z :=
  SELL (sliced_ell_matrix.mk 1 1 [5%Z] [1; 0] [0] [0; 1]).

Definition one_by_one_hyb : sparse_matrix Z :=
  HYB (hyb_matrix.mk 1 1 1 [5%Z] [0] [0; 0] [] []).

(** A [2 x 2] ELL matrix with two slots per row, all of them [0], and a
    coordinate buffer that is too short and holds no valid column. *)
Definition zero_ell : ell_matrix.t Z :=
  ell_matrix.mk 2 2 2 [0; 0; 0; 0]%Z [77; 88].

(** A [2 x 2] hybrid matrix: one ELL slot per row, both [0], and one
    overflow entry in row [0] with the value [0]. *)
Definition zero_hyb : hyb_matrix.t Z :=
  hyb_matrix.mk 2 2 1 [0; 0]%Z [55] [0; 1; 1] [0] [0%Z].

(** The [2 x 2] diagonal matrix with [5] and [7], one padding slot per row. *)
Definition diag_ell : ell_matrix.t Z :=
  ell_matrix.mk 2 2 2 [5; 7; 0; 0]%Z [0; 1; 0; 0].


(** A [3 x 3] coordinate matrix with the entries [(1,0) = 4],
    [(0,1) = 2], [(1,1) = 6], stored in this order; row [2] is empty. *)
Definition unordered_coo : coordinate_matrix.t Z :=
  coordinate_matrix.mk 3 [4; 2; 6]%Z [1; 0; 0; 1; 1; 1].

(** The [2 x 2] diagonal matrix with [5] and [7] in sliced ELL layout
    with two rows per block, so that the row count is a multiple of
    [rows_per_block]: [columns_per_block] has an entry for the block past
    the last row, [block_start] has none. *)
Definition multiple_sell : sliced_ell_matrix.t Z :=
  sliced_ell_matrix.mk 2 2 [5; 7]%Z [1; 0] [0; 1] [0].

(** The [1 x 1] matrix with the value [5] as a hybrid matrix whose ELL
    slot is empty and whose overflow part holds the entry. *)
Definition overflow_hyb : sparse_matrix Z :=
  HYB (hyb_matrix.mk 1 1 1 [0%Z] [77] [0; 1] [0] [5%Z]).


(** *** Matrices over [double] *)

(** The [1 x 1] matrix with the value [5], in each layout; the hybrid
    matrix twice, with the entry in its ELL part and in its overflow
    part. *)
Definition one_by_one_double : list (sparse_matrix float) :=
  [CSR (compressed_matrix.mk 1 [5%float] [0; 1] [0]);
   COO (coordinate_matrix.mk 1 [5%float] [0; 0]);
   ELL (ell_matrix.mk 1 1 1 [5%float] [0]);
   SELL (sliced_ell_matrix.mk 1 1 [5%float] [1; 0] [0] [0; 1]);
   HYB (hyb_matrix.mk 1 1 1 [5%float] [0] [0; 0] [] []);
   HYB (hyb_matrix.mk 1 1 1 [0%float] [77] [0; 1] [0] [5%float])].

(** The [2 x 2] matrix with the rows [2, 0] and [1, 3] in coordinate
    layout, stored in the order [(1,1)], [(0,0)], [(1,0)]. *)
Definition unordered_coo_double : coordinate_matrix.t float :=
  coordinate_matrix.mk 3 [3; 2; 1]%float [1; 1; 0; 0; 1; 0].



(** [zero_ell] and [zero_hyb] over [double]. *)
Definition zero_ell_double : ell_matrix.t float :=
  ell_matrix.mk 2 2 2 [0; 0; 0; 0]%float [77; 88].

Definition zero_hyb_double : hyb_matrix.t float :=
  hyb_matrix.mk 2 2 1 [0; 0]%float [55] [0; 1; 1] [0] [0%float].



(** All-zero sliced ELL matrix with two rows, over [double]. *)
Definition zero_sell_double : sliced_ell_matrix.t float :=
  sliced_ell_matrix.mk 2 2 [0; 0]%float [1; 0] [77] [0].

(** ** Runs, reads, writes and loops *)

Lemma bind_inr {A B : Type} (c : run A) (k : A -> run B) (b : B) :
  bind c k = inr b -> exists a, c = inr a /\ k a = inr b.
Proof. destruct c as [e|a]; simpl; [discriminate | eauto]. Qed.

Lemma read_ok {A : Type} (b : buffer) (l : list A) (i : nat) (x : A) :
  l !! i = Some x -> read b l i = inr x.
Proof. unfold read. intros ->. reflexivity. Qed.

Lemma read_inr {A : Type} (b : buffer) (l : list A) (i : nat) (x : A) :
  read b l i = inr x -> l !! i = Some x.
Proof. unfold read, ret. destruct (l !! i); simpl; congruence. Qed.

Lemma write_ok {A : Type} (b : buffer) (l : list A) (i : nat) (x : A) :
  i < length l -> write b l i x = inr (<[i := x]> l).
Proof. unfold write. intros Hi. rewrite decide_True by exact Hi. reflexivity. Qed.

Lemma write_inr {A : Type} (b : buffer) (l l' : list A) (i : nat) (x : A) :
  write b l i x = inr l' -> i < length l /\ l' = <[i := x]> l.
Proof.
  unfold write. destruct (decide (i < length l)); simpl; [|discriminate].
  intros [= <-]. auto.
Qed.

Lemma for_loop_app {S : Type} (body : nat -> S -> run S) (n m lo : nat) (s : S) :
  for_loop (n + m) lo body s = do s' <- for_loop n lo body s; for_loop m (lo + n) body s'.
Proof.
  revert lo s. induction n as [|n IH]; intros lo s; simpl.
  - rewrite Nat.add_0_r. reflexivity.
  - destruct (body lo s) as [e|s1]; simpl; [reflexivity|].
    rewrite IH. replace (Datatypes.S lo + n) with (lo + Datatypes.S n) by lia. reflexivity.
Qed.

Lemma for_loop_ext {S : Type} (body body' : nat -> S -> run S) (n lo : nat) (s : S) :
  (forall i s, lo <= i < lo + n -> body i s = body' i s) ->
  for_loop n lo body s = for_loop n lo body' s.
Proof.
  revert lo s. induction n as [|n IH]; intros lo s Hb; simpl; [reflexivity|].
  rewrite Hb by lia. destruct (body' lo s) as [e|s1]; simpl; [reflexivity|].
  apply IH. intros i s2 Hi. apply Hb. lia.
Qed.

(** Total correctness of a loop from an invariant. *)
Lemma for_loop_inv {S : Type} (P : nat -> S -> Prop) (body : nat -> S -> run S)
    (n lo : nat) (s : S) :
  P lo s ->
  (forall i s, lo <= i < lo + n -> P i s -> exists s', body i s = inr s' /\ P (Datatypes.S i) s') ->
  exists s', for_loop n lo body s = inr s' /\ P (lo + n) s'.
Proof.
  revert lo s. induction n as [|n IH]; intros lo s H0 Hstep; simpl.
  - exists s. rewrite Nat.add_0_r. auto.
  - destruct (Hstep lo s) as (s1 & -> & H1); [lia | exact H0 |]. simpl.
    destruct (IH (Datatypes.S lo) s1) as (s2 & -> & H2); [exact H1 | |].
    + intros i s3 Hi. apply Hstep. lia.
    + exists s2. replace (lo + Datatypes.S n) with (Datatypes.S lo + n) by lia. auto.
Qed.

(** What a successful loop establishes from an invariant. *)
Lemma for_loop_inr_inv {S : Type} (P : nat -> S -> Prop) (body : nat -> S -> run S)
    (n lo : nat) (s s' : S) :
  P lo s ->
  (forall i s s', lo <= i < lo + n -> P i s -> body i s = inr s' -> P (Datatypes.S i) s') ->
  for_loop n lo body s = inr s' -> P (lo + n) s'.
Proof.
  revert lo s. induction n as [|n IH]; intros lo s H0 Hstep; simpl.
  - intros [= <-]. rewrite Nat.add_0_r. exact H0.
  - intros Hrun. apply bind_inr in Hrun as (s1 & Hb & Hrest).
    replace (lo + Datatypes.S n) with (Datatypes.S lo + n) by lia.
    apply (IH (Datatypes.S lo) s1); [ | | exact Hrest].
    + apply (Hstep lo s); [lia | exact H0 | exact Hb].
    + intros i s2 s3 Hi. apply Hstep. lia.
Qed.

(** A loop whose body cannot fault is a fold. *)
Lemma for_loop_fold {S : Type} (f : S -> nat -> S) (body : nat -> S -> run S)
    (n lo : nat) (s : S) :
  (forall i s, lo <= i < lo + n -> body i s = inr (f s i)) ->
  for_loop n lo body s = inr (fold_left f (seq lo n) s).
Proof.
  revert lo s. induction n as [|n IH]; intros lo s Hb; simpl; [reflexivity|].
  rewrite Hb by lia. simpl. apply IH. intros i s1 Hi. apply Hb. lia.
Qed.

Lemma fold_left_ext_in {A B : Type} (f g : A -> B -> A) (l : list B) (a : A) :
  (forall a x, In x l -> f a x = g a x) -> fold_left f l a = fold_left g l a.
Proof.
  revert a. induction l as [|x l IH]; intros a Hfg; simpl; [reflexivity|].
  rewrite Hfg by (left; reflexivity). apply IH. intros a' y Hy. apply Hfg. right. exact Hy.
Qed.

Lemma fold_left_seq_S {A : Type} (f : A -> nat -> A) (lo n : nat) (a : A) :
  fold_left f (seq lo (Datatypes.S n)) a = f (fold_left f (seq lo n) a) (lo + n).
Proof. rewrite seq_S, fold_left_app. reflexivity. Qed.

Section Proofs.
Context {T : Type} `{Scalar T}.

Lemma get_lookup (l : list T) (i : nat) (x : T) : l !! i = Some x -> get l i = x.
Proof. unfold get. intros ->. reflexivity. Qed.

Lemma lookup_get (l : list T) (i : nat) : i < length l -> l !! i = Some (get l i).
Proof.
  intros Hi. destruct (lookup_lt_is_Some_2 l i Hi) as [x Hx].
  rewrite (get_lookup _ _ _ Hx). exact Hx.
Qed.

Lemma geti_lookup (l : list nat) (i x : nat) : l !! i = Some x -> geti l i = x.
Proof. unfold geti. intros ->. reflexivity. Qed.

Lemma lookup_geti (l : list nat) (i : nat) : i < length l -> l !! i = Some (geti l i).
Proof.
  intros Hi. destruct (lookup_lt_is_Some_2 l i Hi) as [x Hx].
  rewrite (geti_lookup _ _ _ Hx). exact Hx.
Qed.

Lemma read_get (b : buffer) (l : list T) (i : nat) :
  i < length l -> read b l i = inr (get l i).
Proof. intros Hi. apply read_ok, lookup_get, Hi. Qed.

Lemma read_geti (b : buffer) (l : list nat) (i : nat) :
  i < length l -> read b l i = inr (geti l i).
Proof. intros Hi. apply read_ok, lookup_geti, Hi. Qed.

(** *** Sums *)

Lemma tsum_S (f : nat -> T) (n : nat) : tsum f (Datatypes.S n) = tadd (tsum f n) (f n).
Proof. unfold tsum. rewrite fold_left_seq_S. reflexivity. Qed.

Lemma tsum_ext (f g : nat -> T) (n : nat) :
  (forall i, i < n -> f i = g i) -> tsum f n = tsum g n.
Proof.
  intros Hfg. unfold tsum. apply fold_left_ext_in. intros a i Hi.
  apply in_seq in Hi. rewrite Hfg by lia. reflexivity.
Qed.

(** *** [tabulate] *)

Lemma tabulate_lookup_lt (f : nat -> T) (n : nat) (old : list T) (j : nat) :
  j < n -> tabulate f n old !! j = Some (f j).
Proof.
  intros Hj. unfold tabulate. rewrite lookup_app_l by (rewrite length_map, length_seq; exact Hj).
  rewrite list_lookup_fmap, lookup_seq_lt by exact Hj. reflexivity.
Qed.

Lemma tabulate_lookup_ge (f : nat -> T) (n : nat) (old : list T) (j : nat) :
  n <= j -> tabulate f n old !! j = old !! j.
Proof.
  intros Hj. unfold tabulate. rewrite lookup_app_r; rewrite length_map, length_seq; [|exact Hj].
  rewrite lookup_drop. f_equal. lia.
Qed.

Lemma tabulate_length (f : nat -> T) (n : nat) (old : list T) :
  n <= length old -> length (tabulate f n old) = length old.
Proof.
  intros Hn. unfold tabulate. rewrite length_app, length_map, length_seq, length_drop. lia.
Qed.

Lemma tabulate_get_lt (f : nat -> T) (n : nat) (old : list T) (j : nat) :
  j < n -> get (tabulate f n old) j = f j.
Proof. intros Hj. apply get_lookup, tabulate_lookup_lt, Hj. Qed.

Lemma tabulate_get_ge (f : nat -> T) (n : nat) (old : list T) (j : nat) :
  n <= j -> get (tabulate f n old) j = get old j.
Proof. intros Hj. unfold get. rewrite tabulate_lookup_ge by exact Hj. reflexivity. Qed.

Lemma tabulate_insert (f : nat -> T) (n : nat) (old : list T) (x : T) :
  n < length old -> x = f n -> <[n := x]> (tabulate f n old) = tabulate f (Datatypes.S n) old.
Proof.
  intros Hn ->. apply list_eq. intros j.
  destruct (decide (j = n)) as [->|Hne].
  - rewrite list_lookup_insert_eq by (rewrite tabulate_length; lia).
    rewrite tabulate_lookup_lt by lia. reflexivity.
  - rewrite list_lookup_insert_ne by lia.
    destruct (decide (j < n)) as [Hlt|Hge].
    + rewrite !tabulate_lookup_lt by lia. reflexivity.
    + rewrite !tabulate_lookup_ge by lia. reflexivity.
Qed.

Lemma tabulate_ext (f g : nat -> T) (n : nat) (old : list T) :
  (forall j, j < n -> f j = g j) -> tabulate f n old = tabulate g n old.
Proof.
  intros Hfg. unfold tabulate. f_equal. apply map_ext_in. intros j Hj.
  apply in_seq in Hj. apply Hfg. lia.
Qed.

(** *** The joint vector update *)

Lemma vector_update_body_run (alpha beta : T) (dres dp dr dAp : list T) (i : nat) (acc : T) :
  i < length dres -> i < length dp -> i < length dr -> i < length dAp ->
  vector_update_body alpha beta dAp i
    (tabulate (new_result alpha dres dp) i dres,
     tabulate (new_p alpha beta dp dr dAp) i dp,
     tabulate (new_r alpha dr dAp) i dr, acc)
  = inr (tabulate (new_result alpha dres dp) (Datatypes.S i) dres,
         tabulate (new_p alpha beta dp dr dAp) (Datatypes.S i) dp,
         tabulate (new_r alpha dr dAp) (Datatypes.S i) dr,
         tadd acc (tmul (new_r alpha dr dAp i) (new_r alpha dr dAp i))).
Proof.
  intros Hres Hp Hr HAp. unfold vector_update_body.
  rewrite (read_get data_p) by (rewrite tabulate_length; lia). simpl.
  rewrite (read_get data_r) by (rewrite tabulate_length; lia). simpl.
  rewrite (read_get data_result) by (rewrite tabulate_length; lia). simpl.
  rewrite write_ok by (rewrite tabulate_length; lia). simpl.
  rewrite (read_get data_Ap) by exact HAp. simpl.
  rewrite !tabulate_get_ge by lia.
  rewrite write_ok by (rewrite tabulate_length; lia). simpl.
  rewrite write_ok by (rewrite tabulate_length; lia). simpl.
  unfold ret. repeat f_equal; apply tabulate_insert; auto.
Qed.

(** The complete result of the kernel when the first [size(result)]
    elements of the four vectors exist and the reduction buffer is
    not empty. *)
Lemma vector_update_run (result : vector_base.t T) (alpha : T) (p r Ap : vector_base.t T)
    (beta : T) (inner_prod_buffer : vector_base.t T) :
  let N := vector_base.size result in
  let dres := vector_base.handle result in
  let dp := vector_base.handle p in
  let dr := vector_base.handle r in
  let dAp := vector_base.handle Ap in
  N <= length dres -> N <= length dp -> N <= length dr -> N <= length dAp ->
  0 < length (vector_base.handle inner_prod_buffer) ->
  pipelined_cg_vector_update result alpha p r Ap beta inner_prod_buffer
  = inr (vector_base.mk N (tabulate (new_result alpha dres dp) N dres),
         vector_base.mk (vector_base.size p) (tabulate (new_p alpha beta dp dr dAp) N dp),
         vector_base.mk (vector_base.size r) (tabulate (new_r alpha dr dAp) N dr),
         vector_base.mk (vector_base.size inner_prod_buffer)
           (<[0 := tsum (fun i => tmul (new_r alpha dr dAp i) (new_r alpha dr dAp i)) N]>
              (vector_base.handle inner_prod_buffer))).
Proof.
  intros N dres dp dr dAp Hres Hp Hr HAp Hbuf. unfold pipelined_cg_vector_update, for_range.
  fold N dres dp dr dAp. rewrite Nat.sub_0_r.
  destruct (for_loop_inv
    (fun i s => s = (tabulate (new_result alpha dres dp) i dres,
                     tabulate (new_p alpha beta dp dr dAp) i dp,
                     tabulate (new_r alpha dr dAp) i dr,
                     tsum (fun i => tmul (new_r alpha dr dAp i) (new_r alpha dr dAp i)) i))
    (vector_update_body alpha beta dAp) N 0 (dres, dp, dr, tzero)) as (s & -> & ->).
  - reflexivity.
  - intros i s Hi ->. eexists. split.
    + apply vector_update_body_run; lia.
    + rewrite tsum_S. reflexivity.
  - simpl. rewrite write_ok by exact Hbuf. reflexivity.
Qed.

(** *** The two stores into the reduction buffer *)

Lemma store_inner_prods_run (buf : vector_base.t T) (a b : T) :
  2 * (vector_base.size buf / 3) < length (vector_base.handle buf) ->
  store_inner_prods buf a b = inr (stored_inner_prods buf a b).
Proof.
  intros Hlen. unfold store_inner_prods, stored_inner_prods.
  rewrite write_ok by lia. cbn [bind].
  rewrite write_ok by (rewrite length_insert; lia). reflexivity.
Qed.

Lemma store_inner_prods_inr (buf buf' : vector_base.t T) (a b : T) :
  store_inner_prods buf a b = inr buf' ->
  2 * (vector_base.size buf / 3) < length (vector_base.handle buf) /\
  buf' = stored_inner_prods buf a b.
Proof.
  unfold store_inner_prods, stored_inner_prods. intros Hrun.
  apply bind_inr in Hrun as (l1 & Hw1 & Hrun).
  apply bind_inr in Hrun as (l2 & Hw2 & Hrun).
  apply write_inr in Hw1 as [Hl1 ->]. apply write_inr in Hw2 as [Hl2 ->].
  rewrite length_insert in Hl2. injection Hrun as <-. auto.
Qed.

(** *** Inner products over a tabulated vector *)

Lemma inner_prod_tabulate_sq (dot : nat -> T) (M : nat) (old : list T) :
  inner_prod (tabulate dot M old) (tabulate dot M old) M
  = tsum (fun row => tmul (dot row) (dot row)) M.
Proof.
  unfold inner_prod. apply tsum_ext. intros i Hi. rewrite tabulate_get_lt by exact Hi.
  reflexivity.
Qed.

Lemma inner_prod_tabulate_r (pb : list T) (dot : nat -> T) (M : nat) (old : list T) :
  inner_prod pb (tabulate dot M old) M = tsum (fun row => tmul (get pb row) (dot row)) M.
Proof.
  unfold inner_prod. apply tsum_ext. intros i Hi. rewrite tabulate_get_lt by exact Hi.
  reflexivity.
Qed.

(** *** Row loops that write [Ap[row]] and accumulate both reductions

    The row loops of the compressed, ELL and hybrid kernels have the
    same shape.  [dot row] is the value the inner loops of the row
    produce. *)
Lemma fused_rows_run (body : nat -> list T * T * T -> run (list T * T * T))
    (pb : list T) (dot : nat -> T) (M : nat) (Apb : list T) :
  M <= length Apb ->
  (forall row Apb' a b, row < M -> length Apb' = length Apb ->
     body row (Apb', a, b)
     = inr (<[row := dot row]> Apb', tadd a (tmul (dot row) (dot row)),
            tadd b (tmul (get pb row) (dot row)))) ->
  for_range 0 M body (Apb, tzero, tzero)
  = inr (tabulate dot M Apb,
         inner_prod (tabulate dot M Apb) (tabulate dot M Apb) M,
         inner_prod pb (tabulate dot M Apb) M).
Proof.
  intros HM Hbody. unfold for_range. rewrite Nat.sub_0_r.
  rewrite inner_prod_tabulate_sq, inner_prod_tabulate_r.
  destruct (for_loop_inv
    (fun i s => s = (tabulate dot i Apb, tsum (fun row => tmul (dot row) (dot row)) i,
                     tsum (fun row => tmul (get pb row) (dot row)) i))
    body M 0 (Apb, tzero, tzero)) as (s & -> & ->); [reflexivity | | reflexivity].
  intros i s Hi ->. eexists. split.
  - apply Hbody; [lia | apply tabulate_length; lia].
  - rewrite !tsum_S. rewrite tabulate_insert by (reflexivity || lia). reflexivity.
Qed.

Lemma fold_left_fmap {A B C : Type} (f : A -> C -> A) (g : B -> C) (l : list B) (a : A) :
  fold_left f (map g l) a = fold_left (fun a x => f a (g x)) l a.
Proof. revert a. induction l as [|x l IH]; intros a; simpl; [reflexivity | apply IH]. Qed.

Lemma fold_left_flat_map {A B C : Type} (f : A -> C -> A) (g : B -> list C) (l : list B)
    (a : A) :
  fold_left f (flat_map g l) a = fold_left (fun a x => fold_left f (g x) a) l a.
Proof.
  revert a. induction l as [|x l IH]; intros a; simpl; [reflexivity|].
  rewrite fold_left_app. apply IH.
Qed.

(** *** compressed_matrix *)

Lemma csr_entries_run (rowb colb : list nat) (elems pb : list T) (M N row : nat) (init : T) :
  csr_ok rowb colb elems M N -> N <= length pb -> row < M ->
  for_range (geti rowb row) (geti rowb (row + 1)) (csr_entry_body elems colb pb) init
  = inr (dot_vp (csr_entries rowb colb elems row) pb init).
Proof.
  intros [_ Hok] HN Hrow. unfold for_range, dot_vp, csr_entries.
  rewrite fold_left_fmap. apply for_loop_fold. intros i acc Hi.
  destruct (Hok row i Hrow) as (Hie & c & Hc & HcN); [lia|].
  unfold csr_entry_body. rewrite (read_get elements) by exact Hie. cbn [bind].
  rewrite (read_ok _ _ _ _ Hc). cbn [bind]. rewrite (read_get p_buf) by lia. cbn [bind].
  rewrite (geti_lookup _ _ _ Hc). reflexivity.
Qed.

Lemma csr_run_buffers (A : compressed_matrix.t T) (M N : nat) (p Ap buf : vector_base.t T) :
  matrix_ok (CSR A) M N -> buffers_ok M N p Ap buf ->
  let Apb := tabulate (kernel_row (CSR A) (vector_base.handle p)) M (vector_base.handle Ap) in
  pipelined_cg_prod (CSR A) p Ap buf
  = inr (vector_base.mk M Apb,
         stored_inner_prods buf (inner_prod Apb Apb M)
           (kernel_pAp (CSR A) (vector_base.handle p) Apb M)).
Proof.
  intros [HM Hok] (HAp & HApl & Hpl & HpM & Hbuf) Apb.
  unfold pipelined_cg_prod, pipelined_cg_prod_compressed_matrix. rewrite HM, HAp.
  rewrite (fused_rows_run _ (vector_base.handle p)
             (kernel_row (CSR A) (vector_base.handle p))); [| exact HApl |].
  - cbn [bind]. rewrite store_inner_prods_run by exact Hbuf. reflexivity.
  - intros row Apb' a b Hrow Hlen. unfold csr_row_body.
    rewrite (read_get p_buf) by lia. cbn [bind].
    destruct Hok as [Hrb Hok'].
    rewrite (read_geti row_buffer) by lia. cbn [bind].
    rewrite (read_geti row_buffer) by lia. cbn [bind].
    rewrite (csr_entries_run _ _ _ _ M N) by (auto; split; auto). cbn [bind].
    rewrite write_ok by lia. reflexivity.
Qed.

(** *** ell_matrix *)

Lemma ell_item_body_run (elems : list T) (crd : list nat) (stride : nat) (pb : list T)
    (N row item_id : nat) (sum : T) :
  slot_ok elems crd N (row + item_id * stride) -> N <= length pb ->
  ell_item_body elems crd stride pb row item_id sum
  = inr (dot_pv (slot_entry elems crd (row + item_id * stride)) pb sum).
Proof.
  intros [Hoff Hcrd] HN. unfold ell_item_body, slot_entry.
  rewrite (read_get elements) by exact Hoff. cbn [bind].
  destruct (truthy (get elems (row + item_id * stride))) eqn:Hval; [|reflexivity].
  destruct (Hcrd eq_refl) as (c & Hc & HcN).
  rewrite (read_ok _ _ _ _ Hc). cbn [bind]. rewrite (read_get p_buf) by lia. cbn [bind].
  rewrite (geti_lookup _ _ _ Hc). reflexivity.
Qed.

Lemma ell_items_run (elems : list T) (crd : list nat) (stride maxnnz : nat) (pb : list T)
    (M N row : nat) (init : T) :
  ell_ok elems crd stride maxnnz M N -> N <= length pb -> row < M ->
  for_range 0 maxnnz (ell_item_body elems crd stride pb row) init
  = inr (dot_pv (ell_entries elems crd stride maxnnz row) pb init).
Proof.
  intros Hok HN Hrow. unfold for_range, ell_entries. rewrite Nat.sub_0_r.
  unfold dot_pv at 1. rewrite fold_left_flat_map. apply for_loop_fold. intros i acc Hi.
  apply (ell_item_body_run _ _ _ _ N); [apply Hok; lia | exact HN].
Qed.

Lemma ell_run_buffers (A : ell_matrix.t T) (M N : nat) (p Ap buf : vector_base.t T) :
  matrix_ok (ELL A) M N -> buffers_ok M N p Ap buf ->
  let Apb := tabulate (kernel_row (ELL A) (vector_base.handle p)) M (vector_base.handle Ap) in
  pipelined_cg_prod (ELL A) p Ap buf
  = inr (vector_base.mk M Apb,
         stored_inner_prods buf (inner_prod Apb Apb M)
           (kernel_pAp (ELL A) (vector_base.handle p) Apb M)).
Proof.
  intros [HM Hok] (HAp & HApl & Hpl & HpM & Hbuf) Apb.
  unfold pipelined_cg_prod, pipelined_cg_prod_ell_matrix. rewrite HM, HAp.
  rewrite (fused_rows_run _ (vector_base.handle p)
             (kernel_row (ELL A) (vector_base.handle p))); [| exact HApl |].
  - cbn [bind]. rewrite store_inner_prods_run by exact Hbuf. reflexivity.
  - intros row Apb' a b Hrow Hlen. unfold ell_row_body.
    rewrite (read_get p_buf) by lia. cbn [bind].
    rewrite (ell_items_run _ _ _ _ _ M N) by auto. cbn [bind].
    rewrite write_ok by lia. reflexivity.
Qed.

(** *** hyb_matrix *)

Lemma hyb_csr_run (A : hyb_matrix.t T) (pb : list T) (M N row : nat) (init : T) :
  csr_ok (hyb_matrix.handle3 A) (hyb_matrix.handle4 A) (hyb_matrix.handle5 A) M N ->
  N <= length pb -> row < M ->
  for_range (geti (hyb_matrix.handle3 A) row) (geti (hyb_matrix.handle3 A) (row + 1))
    (hyb_csr_body A pb) init
  = inr (dot_pv (csr_entries (hyb_matrix.handle3 A) (hyb_matrix.handle4 A)
                   (hyb_matrix.handle5 A) row) pb init).
Proof.
  intros [_ Hok] HN Hrow. unfold for_range, dot_pv, csr_entries.
  rewrite fold_left_fmap. apply for_loop_fold. intros i acc Hi.
  destruct (Hok row i Hrow) as (Hie & c & Hc & HcN); [lia|].
  unfold hyb_csr_body. rewrite (read_ok _ _ _ _ Hc). cbn [bind].
  rewrite (read_get p_buf) by lia. cbn [bind].
  rewrite (read_get csr_elements) by exact Hie. cbn [bind].
  rewrite (geti_lookup _ _ _ Hc). reflexivity.
Qed.

Lemma hyb_run_buffers (A : hyb_matrix.t T) (M N : nat) (p Ap buf : vector_base.t T) :
  matrix_ok (HYB A) M N -> buffers_ok M N p Ap buf ->
  let Apb := tabulate (kernel_row (HYB A) (vector_base.handle p)) M (vector_base.handle Ap) in
  pipelined_cg_prod (HYB A) p Ap buf
  = inr (vector_base.mk M Apb,
         stored_inner_prods buf (inner_prod Apb Apb M)
           (kernel_pAp (HYB A) (vector_base.handle p) Apb M)).
Proof.
  intros (HM & Hell & Hcsr) (HAp & HApl & Hpl & HpM & Hbuf) Apb.
  unfold pipelined_cg_prod, pipelined_cg_prod_hyb_matrix. rewrite HM, HAp.
  rewrite (fused_rows_run _ (vector_base.handle p)
             (kernel_row (HYB A) (vector_base.handle p))); [| exact HApl |].
  - cbn [bind]. rewrite store_inner_prods_run by exact Hbuf. reflexivity.
  - intros row Apb' a b Hrow Hlen. unfold hyb_row_body.
    rewrite (read_get p_buf) by lia. cbn [bind].
    rewrite (ell_items_run _ _ _ _ _ M N) by auto. cbn [bind].
    pose proof Hcsr as [Hrb _].
    rewrite (read_geti csr_row_buffer) by lia. cbn [bind].
    rewrite (read_geti csr_row_buffer) by lia. cbn [bind].
    rewrite (hyb_csr_run _ _ M N) by auto. cbn [bind].
    rewrite write_ok by lia.
    unfold kernel_row, row_entries, hyb_entries, dot_pv. rewrite fold_left_app. reflexivity.
Qed.

(** *** coordinate_matrix *)

Lemma coo_flush_run (M : nat) (Apb : list T) :
  M <= length Apb ->
  for_range 0 M coo_flush_body Apb = inr (tabulate (fun _ => tzero) M Apb).
Proof.
  intros HM. unfold for_range. rewrite Nat.sub_0_r.
  destruct (for_loop_inv (fun i s => s = tabulate (fun _ => tzero) i Apb)
              coo_flush_body M 0 Apb) as (s & -> & ->); [reflexivity | | reflexivity].
  intros i s Hi ->. eexists. split; [|reflexivity].
  unfold coo_flush_body. rewrite write_ok by (rewrite tabulate_length; lia).
  rewrite tabulate_insert by (reflexivity || lia). reflexivity.
Qed.

Lemma coo_entries_S (elems : list T) (crd : list nat) (i row : nat) :
  coo_entries (coordinate_matrix.mk (Datatypes.S i) elems crd) row
  = coo_entries (coordinate_matrix.mk i elems crd) row
    ++ (if decide (geti crd (2 * i) = row)
        then [(geti crd (2 * i + 1), get elems i)] else []).
Proof.
  unfold coo_entries. cbn [coordinate_matrix.nnz coordinate_matrix.handle
                           coordinate_matrix.handle12].
  rewrite seq_S, flat_map_app. cbn [flat_map]. rewrite app_nil_r. reflexivity.
Qed.

(** The scatter pass after its first [i] entries. *)
Lemma coo_scatter_prefix (A : coordinate_matrix.t T) (pb : list T) (M N : nat) (Apb : list T)
    (i : nat) :
  coo_ok A M N -> N <= length pb -> M <= length Apb -> i <= coordinate_matrix.nnz A ->
  for_range 0 i (coo_scatter_body A pb) (tabulate (fun _ => tzero) M Apb)
  = inr (tabulate (fun row =>
           dot_vp (coo_entries (coordinate_matrix.mk i (coordinate_matrix.handle A)
                                  (coordinate_matrix.handle12 A)) row) pb tzero) M Apb).
Proof.
  intros Hok HN HM Hi. unfold for_range. rewrite Nat.sub_0_r.
  destruct (for_loop_inv
    (fun i s => s = tabulate (fun row =>
           dot_vp (coo_entries (coordinate_matrix.mk i (coordinate_matrix.handle A)
                                  (coordinate_matrix.handle12 A)) row) pb tzero) M Apb)
    (coo_scatter_body A pb) i 0 (tabulate (fun _ => tzero) M Apb)) as (s & -> & ->);
    [reflexivity | | reflexivity].
  intros k s Hk ->. eexists. split; [|reflexivity].
  destruct (Hok k) as (Hke & r & c & Hr & Hc & HrM & HcN); [lia|].
  unfold coo_scatter_body. rewrite (read_ok _ _ _ _ Hr). cbn [bind].
  rewrite (read_get Ap_buf) by (rewrite tabulate_length; lia). cbn [bind].
  rewrite (read_get elements) by exact Hke. cbn [bind].
  rewrite (read_ok _ _ _ _ Hc). cbn [bind]. rewrite (read_get p_buf) by lia. cbn [bind].
  rewrite write_ok by (rewrite tabulate_length; lia). f_equal.
  apply list_eq. intros j. destruct (decide (j = r)) as [->|Hne].
  - rewrite list_lookup_insert_eq by (rewrite tabulate_length; lia).
    rewrite tabulate_get_lt, tabulate_lookup_lt by exact HrM.
    rewrite coo_entries_S, (geti_lookup _ _ _ Hr), (geti_lookup _ _ _ Hc).
    rewrite decide_True by reflexivity. unfold dot_vp. rewrite fold_left_app. reflexivity.
  - rewrite list_lookup_insert_ne by lia. destruct (decide (j < M)) as [Hlt|Hge].
    + rewrite !tabulate_lookup_lt by exact Hlt.
      rewrite coo_entries_S, (geti_lookup _ _ _ Hr). rewrite decide_False by lia.
      rewrite app_nil_r. reflexivity.
    + rewrite !tabulate_lookup_ge by lia. reflexivity.
Qed.

Lemma coo_reduce_run (Apb pb : list T) (M : nat) :
  M <= length Apb -> M <= length pb ->
  for_range 0 M (coo_reduce_body Apb pb) (tzero, tzero)
  = inr (inner_prod Apb Apb M, inner_prod Apb pb M).
Proof.
  intros HA Hp. unfold for_range. rewrite Nat.sub_0_r.
  destruct (for_loop_inv
    (fun i s => s = (inner_prod Apb Apb i, inner_prod Apb pb i))
    (coo_reduce_body Apb pb) M 0 (tzero, tzero)) as (s & -> & ->);
    [reflexivity | | reflexivity].
  intros i s Hi ->. eexists. split; [|reflexivity].
  unfold coo_reduce_body. rewrite (read_get Ap_buf) by lia. cbn [bind].
  rewrite (read_get p_buf) by lia. cbn [bind]. unfold inner_prod. rewrite !tsum_S.
  reflexivity.
Qed.

Lemma coo_run_buffers (A : coordinate_matrix.t T) (M N : nat) (p Ap buf : vector_base.t T) :
  matrix_ok (COO A) M N -> buffers_ok M N p Ap buf ->
  let Apb := tabulate (kernel_row (COO A) (vector_base.handle p)) M (vector_base.handle Ap) in
  pipelined_cg_prod (COO A) p Ap buf
  = inr (vector_base.mk M Apb,
         stored_inner_prods buf (inner_prod Apb Apb M)
           (kernel_pAp (COO A) (vector_base.handle p) Apb M)).
Proof.
  intros Hok (HAp & HApl & Hpl & HpM & Hbuf) Apb.
  unfold pipelined_cg_prod, pipelined_cg_prod_coordinate_matrix. rewrite HAp.
  rewrite coo_flush_run by exact HApl. cbn [bind].
  rewrite (coo_scatter_prefix A _ M N) by (auto; lia). cbn [bind].
  assert (HA : coordinate_matrix.mk (coordinate_matrix.nnz A) (coordinate_matrix.handle A)
                 (coordinate_matrix.handle12 A) = A) by (destruct A; reflexivity).
  rewrite HA. fold (kernel_row (COO A) (vector_base.handle p)). fold Apb.
  rewrite coo_reduce_run by (unfold Apb; rewrite ?tabulate_length; lia). cbn [bind].
  rewrite store_inner_prods_run by exact Hbuf. reflexivity.
Qed.

(** *** sliced_ell_matrix *)

Lemma tabulate_nil_length (f : nat -> T) (n : nat) : length (tabulate f n []) = n.
Proof. unfold tabulate. rewrite length_app, length_map, length_seq, drop_nil. simpl. lia. Qed.

Lemma tabulate_full (f : nat -> T) (n : nat) (old : list T) :
  length old <= n -> tabulate f n old = tabulate f n [].
Proof.
  intros Hn. unfold tabulate. rewrite drop_ge by exact Hn. rewrite drop_nil. reflexivity.
Qed.

Lemma sell_clear_run (rv : list T) :
  for_range 0 (length rv) sell_clear_body rv = inr (tabulate (fun _ => tzero) (length rv) []).
Proof.
  unfold for_range. rewrite Nat.sub_0_r.
  destruct (for_loop_inv (fun i s => s = tabulate (fun _ => tzero) i rv)
              sell_clear_body (length rv) 0 rv) as (s & -> & ->); [reflexivity | |].
  - intros i s Hi ->. eexists. split; [|reflexivity].
    unfold sell_clear_body. rewrite write_ok by (rewrite tabulate_length; lia).
    rewrite tabulate_insert by (reflexivity || lia). reflexivity.
  - rewrite tabulate_full by lia. reflexivity.
Qed.

(** The scratch accumulator of a block after [c] of its columns. *)
Lemma sell_slots_run (A : sliced_ell_matrix.t T) (pb : list T) (N bs c : nat) :
  let rpb := sliced_ell_matrix.rows_per_block A in
  let g := fun c rib => tsum (fun cei => sell_slot_value A pb (bs + cei * rpb + rib)) c in
  (forall rib, rib < rpb ->
     slot_ok (sliced_ell_matrix.handle A) (sliced_ell_matrix.handle2 A) N
       (bs + c * rpb + rib)) ->
  N <= length pb ->
  for_range 0 rpb (sell_slot_body A pb (bs + c * rpb)) (tabulate (g c) rpb [])
  = inr (tabulate (g (Datatypes.S c)) rpb []).
Proof.
  intros rpb g Hok HN. unfold for_range. rewrite Nat.sub_0_r.
  destruct (for_loop_inv
    (fun rib s => s = tabulate (g (Datatypes.S c)) rib (tabulate (g c) rpb []))
    (sell_slot_body A pb (bs + c * rpb)) rpb 0 (tabulate (g c) rpb []))
    as (s & -> & ->); [reflexivity | |].
  - intros rib s Hrib ->. eexists. split; [|reflexivity].
    destruct (Hok rib) as [Hoff Hcrd]; [lia|].
    unfold sell_slot_body. rewrite (read_get elements) by exact Hoff. cbn [bind].
    rewrite (read_get result_values)
      by (rewrite tabulate_length; rewrite tabulate_nil_length; lia). cbn [bind].
    rewrite tabulate_get_ge, tabulate_get_lt by lia.
    assert (Hcontrib :
      (if truthy (get (sliced_ell_matrix.handle A) (bs + c * rpb + rib))
       then do c0 <- read column_indices (sliced_ell_matrix.handle2 A) (bs + c * rpb + rib);
            do pv <- read p_buf pb c0;
            ret (tmul pv (get (sliced_ell_matrix.handle A) (bs + c * rpb + rib)))
       else ret tzero)
      = inr (sell_slot_value A pb (bs + c * rpb + rib))).
    { unfold sell_slot_value.
      destruct (truthy (get (sliced_ell_matrix.handle A) (bs + c * rpb + rib))) eqn:Hval;
        [|reflexivity].
      destruct (Hcrd eq_refl) as (c0 & Hc0 & Hc0N).
      rewrite (read_ok _ _ _ _ Hc0). cbn [bind]. rewrite (read_get p_buf) by lia.
      cbn [bind]. rewrite (geti_lookup _ _ _ Hc0). reflexivity. }
    rewrite Hcontrib. cbn [bind].
    rewrite write_ok by (rewrite tabulate_length; rewrite tabulate_nil_length; lia).
    rewrite tabulate_insert; [reflexivity | rewrite tabulate_nil_length; lia |].
    unfold g. rewrite tsum_S. reflexivity.
  - rewrite tabulate_full by (rewrite tabulate_nil_length; lia). reflexivity.
Qed.

Lemma sell_columns_run (A : sliced_ell_matrix.t T) (pb : list T) (N block cols : nat) :
  let rpb := sliced_ell_matrix.rows_per_block A in
  let bs := geti (sliced_ell_matrix.handle3 A) block in
  let g := fun c rib => tsum (fun cei => sell_slot_value A pb (bs + cei * rpb + rib)) c in
  (forall cei, cei < cols ->
     exists bs, sliced_ell_matrix.handle3 A !! block = Some bs /\
       forall rib, rib < rpb ->
         slot_ok (sliced_ell_matrix.handle A) (sliced_ell_matrix.handle2 A) N
           (bs + cei * rpb + rib)) ->
  N <= length pb ->
  for_range 0 cols (sell_column_body A pb block) (tabulate (fun _ => tzero) rpb [])
  = inr (tabulate (g cols) rpb []).
Proof.
  intros rpb bs g Hok HN. unfold for_range. rewrite Nat.sub_0_r.
  destruct (for_loop_inv (fun c s => s = tabulate (g c) rpb [])
    (sell_column_body A pb block) cols 0 (tabulate (fun _ => tzero) rpb []))
    as (s & -> & ->); [reflexivity | | reflexivity].
  intros c s Hc ->. eexists. split; [|reflexivity].
  destruct (Hok c) as (bs' & Hbs & Hslots); [lia|].
  unfold sell_column_body. rewrite (read_ok _ _ _ _ Hbs). cbn [bind].
  assert (bs' = bs) as -> by (unfold bs; rewrite (geti_lookup _ _ _ Hbs); reflexivity).
  apply (sell_slots_run A pb N bs c); assumption.
Qed.

Lemma sell_dot_block (A : sliced_ell_matrix.t T) (pb : list T) (block rib : nat) :
  let rpb := sliced_ell_matrix.rows_per_block A in
  rib < rpb ->
  sell_dot A pb (block * rpb + rib)
  = tsum (fun cei => sell_slot_value A pb
            (geti (sliced_ell_matrix.handle3 A) block + cei * rpb + rib))
      (geti (sliced_ell_matrix.handle1 A) block).
Proof.
  intros rpb Hrib. unfold sell_dot, sell_offset. fold rpb.
  replace ((block * rpb + rib) / rpb) with block
    by (apply Nat.div_unique with rib; lia).
  replace ((block * rpb + rib) mod rpb) with rib
    by (apply Nat.mod_unique with block; lia).
  reflexivity.
Qed.

(** The rows of one block that lie below [M] are stored and counted,
    the others are dropped. *)
Lemma sell_out_run (A : sliced_ell_matrix.t T) (pb : list T) (M block : nat)
    (Apb rv : list T) :
  let rpb := sliced_ell_matrix.rows_per_block A in
  let dot := sell_dot A pb in
  let st := fun R => (tabulate dot R Apb, tsum (fun row => tmul (dot row) (dot row)) R,
                      tsum (fun row => tmul (get pb row) (dot row)) R) in
  (forall rib, rib < rpb -> rv !! rib = Some (dot (block * rpb + rib))) ->
  M <= length Apb -> M <= length pb ->
  for_range 0 rpb (sell_out_body M pb rv (block * rpb)) (st (Nat.min (block * rpb) M))
  = inr (st (Nat.min (block * rpb + rpb) M)).
Proof.
  intros rpb dot st Hrv HA Hp. unfold for_range. rewrite Nat.sub_0_r.
  destruct (for_loop_inv (fun rib s => s = st (Nat.min (block * rpb + rib) M))
    (sell_out_body M pb rv (block * rpb)) rpb 0 (st (Nat.min (block * rpb) M)))
    as (s & -> & ->); [f_equal; lia | | reflexivity].
  intros rib s Hrib ->. eexists. split; [|reflexivity].
  unfold sell_out_body, st. destruct (decide (block * rpb + rib < M)) as [Hlt|Hge].
  - rewrite (read_ok _ _ _ _ (Hrv rib ltac:(lia))). cbn [bind].
    replace (Nat.min (block * rpb + rib) M) with (block * rpb + rib) by lia.
    replace (Nat.min (block * rpb + Datatypes.S rib) M)
      with (Datatypes.S (block * rpb + rib)) by lia.
    rewrite write_ok by (rewrite tabulate_length; lia). cbn [bind].
    rewrite (read_get p_buf) by lia. cbn [bind]. rewrite !tsum_S.
    rewrite tabulate_insert by (reflexivity || lia). reflexivity.
  - replace (Nat.min (block * rpb + Datatypes.S rib) M)
      with (Nat.min (block * rpb + rib) M) by lia. reflexivity.
Qed.

Lemma sell_block_run (A : sliced_ell_matrix.t T) (pb : list T) (M N block : nat)
    (Apb rv : list T) :
  let rpb := sliced_ell_matrix.rows_per_block A in
  let dot := sell_dot A pb in
  let st := fun R => (tabulate dot R Apb, tsum (fun row => tmul (dot row) (dot row)) R,
                      tsum (fun row => tmul (get pb row) (dot row)) R) in
  sell_ok A M N -> block <= M / rpb -> length rv = rpb ->
  N <= length pb -> M <= length pb -> M <= length Apb ->
  exists rv', length rv' = rpb /\
    sell_block_body A pb M block (rv, st (Nat.min (block * rpb) M))
    = inr (rv', st (Nat.min (Datatypes.S block * rpb) M)).
Proof.
  intros rpb dot st [Hrpb Hok] Hblock Hrv HN HpM HA.
  destruct (Hok block Hblock) as (cols & Hcols & Hslots).
  exists (tabulate (fun rib => tsum (fun cei => sell_slot_value A pb
            (geti (sliced_ell_matrix.handle3 A) block + cei * rpb + rib)) cols) rpb []).
  split; [apply tabulate_nil_length|].
  unfold sell_block_body. rewrite (read_ok _ _ _ _ Hcols). cbn [bind].
  rewrite sell_clear_run. cbn [bind]. rewrite Hrv. unfold rpb.
  rewrite (sell_columns_run A pb N block cols) by assumption. cbn [bind]. fold rpb.
  rewrite (sell_out_run A pb M block Apb); [| | exact HA | exact HpM].
  - cbn [bind]. replace (Datatypes.S block * rpb) with (block * rpb + rpb) by lia.
    reflexivity.
  - intros rib Hrib. rewrite tabulate_lookup_lt by exact Hrib.
    rewrite sell_dot_block by exact Hrib. rewrite (geti_lookup _ _ _ Hcols). reflexivity.
Qed.

(** The state after the first [nb] blocks, for [nb] up to the number of
    blocks the kernel runs. *)
Lemma sell_blocks_run (A : sliced_ell_matrix.t T) (pb : list T) (M N nb : nat)
    (Apb : list T) :
  let rpb := sliced_ell_matrix.rows_per_block A in
  let dot := sell_dot A pb in
  sell_ok A M N -> nb <= M / rpb + 1 ->
  N <= length pb -> M <= length pb -> M <= length Apb ->
  exists rv,
    sell_blocks A pb M nb Apb
    = inr (rv, (tabulate dot (Nat.min (nb * rpb) M) Apb,
                tsum (fun row => tmul (dot row) (dot row)) (Nat.min (nb * rpb) M),
                tsum (fun row => tmul (get pb row) (dot row)) (Nat.min (nb * rpb) M))).
Proof.
  intros rpb dot Hok Hnb HN HpM HA. unfold sell_blocks, for_range. rewrite Nat.sub_0_r.
  destruct (for_loop_inv
    (fun k s => length (fst s) = rpb /\
       snd s = (tabulate dot (Nat.min (k * rpb) M) Apb,
                tsum (fun row => tmul (dot row) (dot row)) (Nat.min (k * rpb) M),
                tsum (fun row => tmul (get pb row) (dot row)) (Nat.min (k * rpb) M)))
    (sell_block_body A pb M) nb 0
    (replicate (sliced_ell_matrix.rows_per_block A) tzero,
     (Apb, tzero, tzero)))
    as ([rv out] & Hrun & Hlen & Hout).
  - split; [apply length_replicate | reflexivity].
  - intros k [rv out] Hk [Hlen Hout]. cbn [fst snd] in Hlen, Hout. subst out.
    destruct (sell_block_run A pb M N k Apb rv) as (rv' & Hlen' & Hbody);
      try assumption; [unfold rpb in *; lia|].
    exists (rv', (tabulate dot (Nat.min (Datatypes.S k * rpb) M) Apb,
                 tsum (fun row => tmul (dot row) (dot row)) (Nat.min (Datatypes.S k * rpb) M),
                 tsum (fun row => tmul (get pb row) (dot row))
                   (Nat.min (Datatypes.S k * rpb) M))).
    split; [exact Hbody | split; [exact Hlen' | reflexivity]].
  - cbn [fst snd] in *. subst out. exists rv. exact Hrun.
Qed.

Lemma sell_run_buffers (A : sliced_ell_matrix.t T) (M N : nat) (p Ap buf : vector_base.t T) :
  matrix_ok (SELL A) M N -> buffers_ok M N p Ap buf ->
  let Apb := tabulate (kernel_row (SELL A) (vector_base.handle p)) M (vector_base.handle Ap) in
  pipelined_cg_prod (SELL A) p Ap buf
  = inr (vector_base.mk M Apb,
         stored_inner_prods buf (inner_prod Apb Apb M)
           (kernel_pAp (SELL A) (vector_base.handle p) Apb M)).
Proof.
  intros [HM Hok] (HAp & HApl & Hpl & HpM & Hbuf) Apb.
  unfold pipelined_cg_prod, pipelined_cg_prod_sliced_ell_matrix.
  pose proof Hok as [Hrpb _]. rewrite decide_False by lia. cbn [bind ret].
  rewrite HM, HAp.
  destruct (sell_blocks_run A (vector_base.handle p) M N
              (M / sliced_ell_matrix.rows_per_block A + 1) (vector_base.handle Ap))
    as (rv & ->); try assumption; [lia|]. cbn [bind].
  assert (Hmin : Nat.min ((M / sliced_ell_matrix.rows_per_block A + 1)
                          * sliced_ell_matrix.rows_per_block A) M = M).
  { pose proof (Nat.div_mod_eq M (sliced_ell_matrix.rows_per_block A)).
    pose proof (Nat.mod_upper_bound M (sliced_ell_matrix.rows_per_block A)). nia. }
  rewrite Hmin. rewrite store_inner_prods_run by exact Hbuf.
  unfold Apb, kernel_pAp, kernel_row.
  rewrite inner_prod_tabulate_sq, inner_prod_tabulate_r. reflexivity.
Qed.

(** *** Every overload at once *)

Lemma prod_run_buffers (A : sparse_matrix T) (M N : nat) (p Ap buf : vector_base.t T) :
  matrix_ok A M N -> buffers_ok M N p Ap buf ->
  let Apb := tabulate (kernel_row A (vector_base.handle p)) M (vector_base.handle Ap) in
  pipelined_cg_prod A p Ap buf
  = inr (vector_base.mk M Apb,
         stored_inner_prods buf (inner_prod Apb Apb M)
           (kernel_pAp A (vector_base.handle p) Apb M)).
Proof.
  destruct A as [A|A|A|A|A].
  - apply csr_run_buffers.
  - apply coo_run_buffers.
  - apply ell_run_buffers.
  - apply sell_run_buffers.
  - apply hyb_run_buffers.
Qed.

Lemma vectors_ok_buffers_ok (M N : nat) (p Ap buf : vector_base.t T) :
  vectors_ok M N p Ap buf -> buffers_ok M N p Ap buf.
Proof. intros (HAp & HApl & Hp & Hpl & HpM & HB & Hbuf). repeat split; assumption. Qed.

Lemma prod_run (A : sparse_matrix T) (M N : nat) (p Ap buf : vector_base.t T) :
  matrix_ok A M N -> vectors_ok M N p Ap buf ->
  let Apb := tabulate (kernel_row A (vector_base.handle p)) M (vector_base.handle Ap) in
  pipelined_cg_prod A p Ap buf
  = inr (vector_base.mk M Apb,
         stored_inner_prods buf (inner_prod Apb Apb M)
           (kernel_pAp A (vector_base.handle p) Apb M)).
Proof.
  intros Hok Hvec.
  apply (prod_run_buffers A M N p Ap buf Hok (vectors_ok_buffers_ok M N p Ap buf Hvec)).
Qed.

Lemma coo_run (A : coordinate_matrix.t T) (M N : nat) (p Ap buf : vector_base.t T) :
  matrix_ok (COO A) M N -> vectors_ok M N p Ap buf ->
  let Apb := tabulate (kernel_row (COO A) (vector_base.handle p)) M (vector_base.handle Ap) in
  pipelined_cg_prod (COO A) p Ap buf
  = inr (vector_base.mk M Apb,
         stored_inner_prods buf (inner_prod Apb Apb M)
           (kernel_pAp (COO A) (vector_base.handle p) Apb M)).
Proof. apply (prod_run (COO A)). Qed.

(** The column of every stored entry of a row below [M] is below [N]. *)
Lemma csr_entries_range (rowb colb : list nat) (elems : list T) (M N row : nat)
    (cv : nat * T) :
  csr_ok rowb colb elems M N -> row < M ->
  In cv (csr_entries rowb colb elems row) -> fst cv < N.
Proof.
  intros [_ Hok] Hrow Hin. unfold csr_entries in Hin.
  apply in_map_iff in Hin as (i & <- & Hi). apply in_seq in Hi.
  destruct (Hok row i Hrow) as (_ & c & Hc & HcN); [lia|].
  cbn [fst]. rewrite (geti_lookup _ _ _ Hc). exact HcN.
Qed.

Lemma slot_entry_range (elems : list T) (crd : list nat) (N offset : nat) (cv : nat * T) :
  slot_ok elems crd N offset -> In cv (slot_entry elems crd offset) -> fst cv < N.
Proof.
  intros [_ Hcrd]. unfold slot_entry.
  destruct (truthy (get elems offset)); [|intros []].
  destruct (Hcrd eq_refl) as (c & Hc & HcN). intros [<-|[]].
  cbn [fst]. rewrite (geti_lookup _ _ _ Hc). exact HcN.
Qed.

Lemma ell_entries_range (elems : list T) (crd : list nat) (stride maxnnz M N row : nat)
    (cv : nat * T) :
  ell_ok elems crd stride maxnnz M N -> row < M ->
  In cv (ell_entries elems crd stride maxnnz row) -> fst cv < N.
Proof.
  intros Hok Hrow Hin. unfold ell_entries in Hin.
  apply in_flat_map in Hin as (item & Hitem & Hin). apply in_seq in Hitem.
  apply (slot_entry_range _ _ _ _ _ (Hok row item Hrow ltac:(lia)) Hin).
Qed.

Lemma entries_range (A : sparse_matrix T) (M N row : nat) (cv : nat * T) :
  matrix_ok A M N -> row < M -> In cv (row_entries A row) -> fst cv < N.
Proof.
  destruct A as [A|A|A|A|A]; cbn [matrix_ok row_entries].
  - intros [_ Hok]. apply csr_entries_range, Hok.
  - intros Hok Hrow Hin. unfold coo_entries in Hin.
    apply in_flat_map in Hin as (i & Hi & Hin). apply in_seq in Hi.
    destruct (Hok i) as (_ & r & c & Hr & Hc & _ & HcN); [lia|].
    destruct (decide _); [|destruct Hin]. destruct Hin as [<-|[]].
    cbn [fst]. rewrite (geti_lookup _ _ _ Hc). exact HcN.
  - intros [_ Hok]. apply ell_entries_range, Hok.
  - intros [_ [Hrpb Hok]] Hrow Hin. unfold sell_entries in Hin.
    apply in_flat_map in Hin as (cei & Hcei & Hin). apply in_seq in Hcei.
    destruct (Hok (row / sliced_ell_matrix.rows_per_block A)) as (cols & Hcols & Hslots).
    { apply Nat.Div0.div_le_mono. lia. }
    rewrite (geti_lookup _ _ _ Hcols) in Hcei.
    destruct (Hslots cei) as (bs & Hbs & Hrib); [lia|].
    unfold sell_offset in Hin. rewrite (geti_lookup _ _ _ Hbs) in Hin.
    assert (Hmod : row mod sliced_ell_matrix.rows_per_block A
                   < sliced_ell_matrix.rows_per_block A)
      by (apply Nat.mod_upper_bound; lia).
    apply (slot_entry_range _ _ N _ _ (Hrib _ Hmod) Hin).
  - intros (_ & Hell & Hcsr) Hrow Hin. unfold hyb_entries in Hin.
    apply in_app_iff in Hin as [Hin|Hin].
    + apply (ell_entries_range _ _ _ _ _ _ _ _ Hell Hrow Hin).
    + apply (csr_entries_range _ _ _ _ _ _ _ Hcsr Hrow Hin).
Qed.

End Proofs.

(** ** Reductions of the product

    The coordinate kernel multiplies [Ap[i] * p[i]] where the other
    kernels multiply [p[row] * Ap[row]]; the two agree as soon as the
    multiplication commutes, which is all this section assumes of the
    element type. *)

Section Reductions.
Context {T : Type} `{Scalar T}.
Hypothesis tmul_commutes : forall x y : T, tmul x y = tmul y x.

Lemma kernel_pAp_comm (A : sparse_matrix T) (pb Apb : list T) (M : nat) :
  kernel_pAp A pb Apb M = inner_prod pb Apb M.
Proof using tmul_commutes.
  destruct A; cbn [kernel_pAp]; try reflexivity.
  unfold inner_prod. apply tsum_ext. intros i _. apply tmul_commutes.
Qed.

Lemma stored_inner_prods_lookup (buf : vector_base.t T) (a b : T) :
  let B := vector_base.size buf / 3 in
  1 <= B -> 2 * B < length (vector_base.handle buf) ->
  vector_base.handle (stored_inner_prods buf a b) !! B = Some a /\
  vector_base.handle (stored_inner_prods buf a b) !! (2 * B) = Some b /\
  (forall j, j <> B -> j <> 2 * B ->
     vector_base.handle (stored_inner_prods buf a b) !! j = vector_base.handle buf !! j).
Proof using Type.
  intros B HB Hlen. unfold stored_inner_prods. fold B. cbn [vector_base.handle].
  split; [|split].
  - rewrite list_lookup_insert_ne by lia. apply list_lookup_insert_eq. lia.
  - apply list_lookup_insert_eq. rewrite length_insert. lia.
  - intros j HjB Hj2B. rewrite !list_lookup_insert_ne by lia. reflexivity.
Qed.

(** Every overload on well-formed inputs: what is returned in [Ap] and
    where the two reductions over the returned [Ap] are stored. *)
Lemma prod_reductions (A : sparse_matrix T) (M N : nat) (p Ap buf : vector_base.t T) :
  let B := vector_base.size buf / 3 in
  matrix_ok A M N -> vectors_ok M N p Ap buf ->
  exists Ap' buf',
    pipelined_cg_prod A p Ap buf = inr (Ap', buf') /\
    Ap' = vector_base.mk M
            (tabulate (kernel_row A (vector_base.handle p)) M (vector_base.handle Ap)) /\
    vector_base.handle buf' !! B
      = Some (inner_prod (vector_base.handle Ap') (vector_base.handle Ap') M) /\
    vector_base.handle buf' !! (2 * B)
      = Some (inner_prod (vector_base.handle p) (vector_base.handle Ap') M) /\
    (forall j, j <> B -> j <> 2 * B ->
       vector_base.handle buf' !! j = vector_base.handle buf !! j).
Proof using tmul_commutes.
  intros B Hok Hvec. do 2 eexists. split; [apply (prod_run A M N); assumption|].
  split; [reflexivity|]. rewrite kernel_pAp_comm.
  destruct Hvec as (_ & _ & _ & _ & _ & HB & Hbuf). cbn [vector_base.handle].
  apply stored_inner_prods_lookup; assumption.
Qed.

End Reductions.

(** ** Exact arithmetic *)

Section Exact.
Context {T : Type} `{ScalarLaws T}.

Lemma tadd_0_r (x : T) : tadd x tzero = x.
Proof. rewrite tadd_comm. apply tadd_0_l. Qed.

Lemma tmul_0_r (x : T) : tmul x tzero = tzero.
Proof. rewrite tmul_comm. apply tmul_0_l. Qed.

Lemma tadd_swap (a b c d : T) : tadd (tadd a b) (tadd c d) = tadd (tadd a c) (tadd b d).
Proof.
  rewrite <- (tadd_assoc a b), (tadd_assoc b c d), (tadd_comm b c).
  rewrite <- (tadd_assoc c b d), (tadd_assoc a c). reflexivity.
Qed.

Lemma tsum_zero (n : nat) : tsum (fun _ => tzero) n = tzero.
Proof.
  induction n as [|n IH]; [reflexivity|]. rewrite tsum_S, IH. apply tadd_0_l.
Qed.

Lemma tsum_add (f g : nat -> T) (n : nat) :
  tsum (fun i => tadd (f i) (g i)) n = tadd (tsum f n) (tsum g n).
Proof.
  induction n as [|n IH].
  - unfold tsum. simpl. rewrite tadd_0_l. reflexivity.
  - rewrite !tsum_S, IH. apply tadd_swap.
Qed.

Lemma tsum_single (c n : nat) (x : T) :
  c < n -> tsum (fun i => if decide (c = i) then x else tzero) n = x.
Proof.
  induction n as [|n IH]; intros Hc; [lia|]. rewrite tsum_S.
  destruct (decide (c = n)) as [->|Hne].
  - rewrite (tsum_ext _ (fun _ => tzero)).
    + rewrite tsum_zero. apply tadd_0_l.
    + intros i Hi. rewrite decide_False by lia. reflexivity.
  - rewrite IH by lia. apply tadd_0_r.
Qed.

Lemma entry_snoc (es : list (nat * T)) (c : nat) (v : T) (col : nat) :
  entry (es ++ [(c, v)]) col
  = if decide (c = col) then tadd (entry es col) v else entry es col.
Proof. unfold entry. rewrite fold_left_app. reflexivity. Qed.

(** The dense product of a row is the sum over its stored entries. *)
Lemma dense_dot_vp (es : list (nat * T)) (N : nat) (pb : list T) :
  (forall cv, In cv es -> fst cv < N) ->
  tsum (fun col => tmul (entry es col) (get pb col)) N = dot_vp es pb tzero.
Proof.
  induction es as [|[c v] es IH] using rev_ind; intros Hrange.
  - rewrite (tsum_ext _ (fun _ => tzero)); [apply tsum_zero|].
    intros i _. apply tmul_0_l.
  - unfold dot_vp. rewrite fold_left_app. cbn [fold_left fst snd]. fold (dot_vp es pb tzero).
    rewrite <- IH by (intros cv Hcv; apply Hrange, in_app_iff; left; exact Hcv).
    rewrite <- (tsum_single c N (tmul v (get pb c)))
      by (apply (Hrange (c, v)), in_app_iff; right; left; reflexivity).
    rewrite <- tsum_add. apply tsum_ext. intros col Hcol. rewrite entry_snoc.
    destruct (decide (c = col)) as [->|Hne].
    + apply tmul_add_distr_r.
    + rewrite tadd_0_r. reflexivity.
Qed.

Lemma dot_pv_vp (es : list (nat * T)) (pb : list T) (init : T) :
  dot_pv es pb init = dot_vp es pb init.
Proof.
  unfold dot_pv, dot_vp. apply fold_left_ext_in. intros a cv _.
  rewrite tmul_comm. reflexivity.
Qed.

Lemma sell_dot_pv (A : sliced_ell_matrix.t T) (pb : list T) (row : nat) :
  sell_dot A pb row = dot_pv (sell_entries A row) pb tzero.
Proof.
  unfold sell_dot, sell_entries, dot_pv, tsum. rewrite fold_left_flat_map.
  apply fold_left_ext_in. intros a cei _. unfold sell_slot_value, slot_entry.
  destruct (truthy _); cbn [fold_left fst snd]; [reflexivity | apply tadd_0_r].
Qed.

Lemma kernel_row_exact (A : sparse_matrix T) (M N : nat) (pb : list T) (row : nat) :
  matrix_ok A M N -> row < M -> kernel_row A pb row = prod_row A N pb row.
Proof.
  intros Hok Hrow. unfold prod_row, matrix_entry.
  rewrite dense_dot_vp by (intros cv; apply (entries_range A M N row cv Hok Hrow)).
  destruct A as [A|A|A|A|A]; cbn [kernel_row row_entries];
    rewrite ?sell_dot_pv, ?dot_pv_vp; reflexivity.
Qed.

Lemma kernel_pAp_exact (A : sparse_matrix T) (pb Apb : list T) (M : nat) :
  kernel_pAp A pb Apb M = inner_prod pb Apb M.
Proof. apply kernel_pAp_comm, tmul_comm. Qed.

(** The result of every overload on well-formed inputs, in exact
    arithmetic: [Ap] holds the dense product in its first [M] elements,
    the reduction buffer holds [(Ap,Ap)] at [B] and [(p,Ap)] at [2B]. *)
Lemma prod_exact (A : sparse_matrix T) (M N : nat) (p Ap buf : vector_base.t T) :
  matrix_ok A M N -> vectors_ok M N p Ap buf ->
  let Apb := tabulate (prod_row A N (vector_base.handle p)) M (vector_base.handle Ap) in
  pipelined_cg_prod A p Ap buf
  = inr (vector_base.mk M Apb,
         stored_inner_prods buf (inner_prod Apb Apb M)
           (inner_prod (vector_base.handle p) Apb M)).
Proof.
  intros Hok Hvec Apb. rewrite (prod_run A M N) by assumption.
  rewrite kernel_pAp_exact.
  rewrite (tabulate_ext (kernel_row A (vector_base.handle p))
                        (prod_row A N (vector_base.handle p)))
    by (intros row Hrow; apply (kernel_row_exact A M N); assumption).
  reflexivity.
Qed.

End Exact.

(** ** The vector update, element by element *)

Section VectorUpdate.
Context {T : Type} `{Scalar T}.

(** One iteration: the five steps on element [i], in the order of the source. *)
Lemma vector_update_body_step (alpha beta : T) (dres dp dr dAp : list T) (i : nat) (acc : T) :
  i < length dres -> i < length dp -> i < length dr -> i < length dAp ->
  vector_update_body alpha beta dAp i (dres, dp, dr, acc)
  = inr (<[i := tadd (get dres i) (tmul alpha (get dp i))]> dres,
         <[i := tadd (tsub (get dr i) (tmul alpha (get dAp i))) (tmul beta (get dp i))]> dp,
         <[i := tsub (get dr i) (tmul alpha (get dAp i))]> dr,
         tadd acc (tmul (tsub (get dr i) (tmul alpha (get dAp i)))
                        (tsub (get dr i) (tmul alpha (get dAp i))))).
Proof.
  intros Hres Hp Hr HAp. unfold vector_update_body.
  rewrite (read_get data_p) by exact Hp. cbn [bind].
  rewrite (read_get data_r) by exact Hr. cbn [bind].
  rewrite (read_get data_result) by exact Hres. cbn [bind].
  rewrite write_ok by exact Hres. cbn [bind].
  rewrite (read_get data_Ap) by exact HAp. cbn [bind].
  rewrite write_ok by exact Hp. cbn [bind].
  rewrite write_ok by exact Hr. reflexivity.
Qed.

(** The whole pass, element by element. *)
Lemma vector_update_spec (result : vector_base.t T) (alpha : T) (p r Ap : vector_base.t T)
    (beta : T) (buf : vector_base.t T) :
  let N := vector_base.size result in
  N <= length (vector_base.handle result) -> N <= length (vector_base.handle p) ->
  N <= length (vector_base.handle r) -> N <= length (vector_base.handle Ap) ->
  0 < length (vector_base.handle buf) ->
  exists result' p' r' buf',
    pipelined_cg_vector_update result alpha p r Ap beta buf = inr (result', p', r', buf') /\
    (forall i, i < N ->
       vector_base.handle result' !! i
         = Some (new_result alpha (vector_base.handle result) (vector_base.handle p) i) /\
       vector_base.handle r' !! i
         = Some (new_r alpha (vector_base.handle r) (vector_base.handle Ap) i) /\
       vector_base.handle p' !! i
         = Some (new_p alpha beta (vector_base.handle p) (vector_base.handle r)
                   (vector_base.handle Ap) i)) /\
    (forall j, N <= j ->
       vector_base.handle result' !! j = vector_base.handle result !! j /\
       vector_base.handle r' !! j = vector_base.handle r !! j /\
       vector_base.handle p' !! j = vector_base.handle p !! j) /\
    vector_base.handle buf'
      = <[0 := inner_prod (vector_base.handle r') (vector_base.handle r') N]>
          (vector_base.handle buf) /\
    (vector_base.size result' = N /\ vector_base.size p' = vector_base.size p /\
     vector_base.size r' = vector_base.size r /\ vector_base.size buf' = vector_base.size buf).
Proof.
  intros N Hres Hp Hr HAp Hbuf. do 4 eexists. split.
  - apply vector_update_run; assumption.
  - cbn [vector_base.handle vector_base.size]. fold N. split; [|split; [|split]].
    + intros i Hi. rewrite !tabulate_lookup_lt by exact Hi. auto.
    + intros j Hj. rewrite !tabulate_lookup_ge by exact Hj. auto.
    + rewrite inner_prod_tabulate_sq. reflexivity.
    + auto.
Qed.

End VectorUpdate.

(** ** The product, element by element *)

Section Product.
Context {T : Type} `{ScalarLaws T}.


End Product.

(** ** Empty slots *)

Section EmptySlots.
Context {T : Type} `{Scalar T}.

(** A slot is skipped on the value alone: the coordinate of a slot
    whose value is [0] is never looked up. *)
Lemma ell_item_body_coords (elems : list T) (crd crd' : list nat) (stride : nat)
    (pb : list T) (row item_id : nat) (sum : T) :
  (forall offset, truthy (get elems offset) = true -> crd' !! offset = crd !! offset) ->
  ell_item_body elems crd' stride pb row item_id sum
  = ell_item_body elems crd stride pb row item_id sum.
Proof.
  intros Hcrd. unfold ell_item_body.
  destruct (elems !! (row + item_id * stride)) as [val|] eqn:Hval.
  - rewrite (read_ok _ _ _ _ Hval). cbn [bind].
    destruct (truthy val) eqn:Htruthy; [|reflexivity].
    unfold read at 1 3. rewrite Hcrd; [reflexivity|].
    rewrite (get_lookup _ _ _ Hval). exact Htruthy.
  - unfold read at 1 4. rewrite Hval. reflexivity.
Qed.

Lemma ell_coords_irrelevant (A : ell_matrix.t T) (crd' : list nat)
    (p Ap buf : vector_base.t T) :
  (forall offset, truthy (get (ell_matrix.handle A) offset) = true ->
     crd' !! offset = ell_matrix.handle2 A !! offset) ->
  pipelined_cg_prod_ell_matrix
    (ell_matrix.mk (ell_matrix.size1 A) (ell_matrix.internal_size1 A)
       (ell_matrix.internal_maxnnz A) (ell_matrix.handle A) crd') p Ap buf
  = pipelined_cg_prod_ell_matrix A p Ap buf.
Proof.
  intros Hcrd. unfold pipelined_cg_prod_ell_matrix, for_range.
  cbn [ell_matrix.size1].
  rewrite (for_loop_ext _ (ell_row_body A (vector_base.handle p))); [reflexivity|].
  intros row [[Apb a] b] _. unfold ell_row_body, for_range.
  cbn [ell_matrix.internal_maxnnz ell_matrix.handle ell_matrix.handle2
       ell_matrix.internal_size1].
  destruct (read p_buf (vector_base.handle p) row) as [e|v]; cbn [bind]; [reflexivity|].
  rewrite (for_loop_ext _ (ell_item_body (ell_matrix.handle A) (ell_matrix.handle2 A)
                             (ell_matrix.internal_size1 A) (vector_base.handle p) row));
    [reflexivity|].
  intros item sum _. apply ell_item_body_coords, Hcrd.
Qed.

Lemma hyb_coords_irrelevant (A : hyb_matrix.t T) (crd' : list nat)
    (p Ap buf : vector_base.t T) :
  (forall offset, truthy (get (hyb_matrix.handle A) offset) = true ->
     crd' !! offset = hyb_matrix.handle2 A !! offset) ->
  pipelined_cg_prod_hyb_matrix
    (hyb_matrix.mk (hyb_matrix.size1 A) (hyb_matrix.internal_size1 A)
       (hyb_matrix.internal_ellnnz A) (hyb_matrix.handle A) crd'
       (hyb_matrix.handle3 A) (hyb_matrix.handle4 A) (hyb_matrix.handle5 A)) p Ap buf
  = pipelined_cg_prod_hyb_matrix A p Ap buf.
Proof.
  intros Hcrd. unfold pipelined_cg_prod_hyb_matrix, for_range.
  cbn [hyb_matrix.size1].
  rewrite (for_loop_ext _ (hyb_row_body A (vector_base.handle p))); [reflexivity|].
  intros row [[Apb a] b] _. unfold hyb_row_body, for_range.
  cbn [hyb_matrix.internal_ellnnz hyb_matrix.handle hyb_matrix.handle2
       hyb_matrix.internal_size1 hyb_matrix.handle3].
  destruct (read p_buf (vector_base.handle p) row) as [e|v]; cbn [bind]; [reflexivity|].
  rewrite (for_loop_ext _ (ell_item_body (hyb_matrix.handle A) (hyb_matrix.handle2 A)
                             (hyb_matrix.internal_size1 A) (vector_base.handle p) row)).
  - destruct (for_loop _ _ _ _) as [e|sum]; cbn [bind]; [reflexivity|].
    destruct (read csr_row_buffer _ row) as [e|cb]; cbn [bind]; [reflexivity|].
    destruct (read csr_row_buffer _ (row + 1)) as [e|ce]; cbn [bind]; [reflexivity|].
    reflexivity.
  - intros item sum _. apply ell_item_body_coords, Hcrd.
Qed.

Lemma flat_map_nil {A B : Type} (f : A -> list B) (l : list A) :
  (forall x, In x l -> f x = []) -> flat_map f l = [].
Proof.
  induction l as [|x l IH]; intros Hf; [reflexivity|]. cbn [flat_map].
  rewrite Hf by (left; reflexivity). apply IH. intros y Hy. apply Hf. right. exact Hy.
Qed.

End EmptySlots.

(** ** Arithmetic of [double]

    What the kernels rely on, and what they cannot rely on, when the
    element type is IEEE binary64. *)

Lemma double_mul_comm (x y : float) : tmul x y = tmul y x.
Proof.
  cbn [tmul Float_Scalar]. apply Prim2SF_inj. rewrite !FloatAxioms.mul_spec. unfold SF64mul, SFmul.
  destruct (Prim2SF x) as [sx|sx| |sx mx ex], (Prim2SF y) as [sy|sy| |sy my ey];
    rewrite ?(xorb_comm sy sx); try reflexivity.
  rewrite (Pos.mul_comm my mx), (Z.add_comm ey ex). reflexivity.
Qed.

(** A finite [x] times [0] is a zero of either sign, which adds nothing
    to [+0]. *)
Lemma double_finite_absorbed (x : float) :
  PrimFloat.is_finite x = true -> tadd tzero (tmul x tzero) = (tzero : float).
Proof.
  intros Hfin. cbn [tadd tmul tzero Float_Scalar]. apply Prim2SF_inj.
  rewrite FloatAxioms.add_spec, FloatAxioms.mul_spec.
  unfold PrimFloat.is_finite, PrimFloat.is_nan, PrimFloat.is_infinity in Hfin.
  rewrite !FloatAxioms.eqb_spec, FloatAxioms.abs_spec in Hfin.
  change (Prim2SF PrimFloat.zero) with (S754_zero false).
  change (Prim2SF PrimFloat.infinity) with (S754_infinity false) in Hfin.
  destruct (Prim2SF x) as [s|s| |s m e].
  - destruct s; reflexivity.
  - destruct s; discriminate Hfin.
  - discriminate Hfin.
  - destruct s; reflexivity.
Qed.

Lemma double_zero_absorbed : tadd tzero (tmul tzero tzero) = (tzero : float).
Proof. reflexivity. Qed.

Lemma double_truthy_zero : truthy (tzero : float) = false.
Proof. reflexivity. Qed.

Lemma double_nan_not_zero : PrimFloat.nan <> PrimFloat.zero.
Proof.
  intros E. apply (f_equal PrimFloat.is_nan) in E. vm_compute in E. discriminate E.
Qed.


(** ** Matrices whose every slot is [0]

    No law of arithmetic is assumed here beyond the facts about [0]
    named as hypotheses; they hold for [double] as well, for a [p]
    without infinite or NaN elements. *)

Lemma fold_left_id {A B : Type} (f : A -> B -> A) (l : list B) (a : A) :
  (forall a x, In x l -> f a x = a) -> fold_left f l a = a.
Proof.
  revert a. induction l as [|x l IH]; intros a Hf; [reflexivity|]. cbn [fold_left].
  rewrite Hf by (left; reflexivity). apply IH. intros a' y Hy. apply Hf. right. exact Hy.
Qed.

Lemma fold_left_fixed {A B : Type} (f : A -> B -> A) (l : list B) (a : A) :
  (forall x, In x l -> f a x = a) -> fold_left f l a = a.
Proof.
  induction l as [|x l IH]; intros Hf; [reflexivity|]. cbn [fold_left].
  rewrite Hf by (left; reflexivity). apply IH. intros y Hy. apply Hf. right. exact Hy.
Qed.

Section ZeroMatrix.
Context {T : Type} `{Scalar T}.

(** A sum of terms none of which changes [0] is [0]. *)
Lemma tsum_absorb (f : nat -> T) (n : nat) :
  (forall i, i < n -> tadd tzero (f i) = tzero) -> tsum f n = tzero.
Proof.
  induction n as [|n IH]; intros Hf; [reflexivity|].
  rewrite tsum_S, IH by (intros i Hi; apply Hf; lia). apply Hf. lia.
Qed.

Lemma prod_run_zero (A : sparse_matrix T) (M N : nat) (p Ap buf : vector_base.t T) :
  matrix_ok A M N -> vectors_ok M N p Ap buf ->
  (forall row, row < M -> kernel_row A (vector_base.handle p) row = tzero) ->
  (forall Apb, kernel_pAp A (vector_base.handle p) Apb M
               = inner_prod (vector_base.handle p) Apb M) ->
  tadd tzero (tmul tzero tzero) = tzero ->
  (forall i, i < length (vector_base.handle p) ->
     tadd tzero (tmul (get (vector_base.handle p) i) tzero) = tzero) ->
  pipelined_cg_prod A p Ap buf
  = inr (vector_base.mk M (tabulate (fun _ => tzero) M (vector_base.handle Ap)),
         stored_inner_prods buf tzero tzero).
Proof.
  intros Hok Hvec Hzero HpAp H00 Hp0. rewrite (prod_run A M N) by assumption.
  rewrite HpAp.
  rewrite (tabulate_ext (kernel_row A (vector_base.handle p)) (fun _ => tzero)) by exact Hzero.
  rewrite inner_prod_tabulate_sq, inner_prod_tabulate_r.
  rewrite (tsum_absorb (fun _ => tmul tzero tzero)) by (intros; exact H00).
  rewrite (tsum_absorb (fun row => tmul (get (vector_base.handle p) row) tzero)).
  - reflexivity.
  - intros i Hi. apply Hp0. destruct Hvec as (_ & _ & _ & _ & HpM & _). lia.
Qed.

Hypothesis truthy_tzero : truthy (tzero : T) = false.

Lemma ell_zero_ok (elems : list T) (crd : list nat) (stride maxnnz M N : nat) :
  (forall row item_id, row < M -> item_id < maxnnz ->
     elems !! (row + item_id * stride) = Some tzero) ->
  ell_ok elems crd stride maxnnz M N.
Proof using truthy_tzero.
  intros Hzero row item Hrow Hitem. specialize (Hzero row item Hrow Hitem). split.
  - apply lookup_lt_Some in Hzero. exact Hzero.
  - rewrite (get_lookup _ _ _ Hzero), truthy_tzero. discriminate.
Qed.

Lemma ell_zero_entries (elems : list T) (crd : list nat) (stride maxnnz M row : nat) :
  (forall row item_id, row < M -> item_id < maxnnz ->
     elems !! (row + item_id * stride) = Some tzero) ->
  row < M -> ell_entries elems crd stride maxnnz row = [].
Proof using truthy_tzero.
  intros Hzero Hrow. unfold ell_entries. apply flat_map_nil. intros item Hitem.
  apply in_seq in Hitem. unfold slot_entry.
  rewrite (get_lookup _ _ _ (Hzero row item Hrow ltac:(lia))), truthy_tzero. reflexivity.
Qed.

(** Overflow entries with the value [0] leave a sum that is [0] at [0],
    as long as [p[col] * 0] adds nothing to [0]. *)
Lemma csr_zero_dot (rowb colb : list nat) (elems pb : list T) (M N row : nat) :
  csr_ok rowb colb elems M N -> N <= length pb ->
  (forall row i, row < M -> geti rowb row <= i < geti rowb (row + 1) ->
     elems !! i = Some tzero) ->
  (forall i, i < length pb -> tadd tzero (tmul (get pb i) tzero) = tzero) ->
  row < M -> dot_pv (csr_entries rowb colb elems row) pb tzero = tzero.
Proof using Type.
  intros [_ Hok] HN Hzero Hp0 Hrow. unfold dot_pv, csr_entries. rewrite fold_left_fmap.
  apply fold_left_fixed. intros i Hi. apply in_seq in Hi. cbn [fst snd].
  rewrite (get_lookup _ _ _ (Hzero row i Hrow ltac:(lia))).
  destruct (Hok row i Hrow ltac:(lia)) as (_ & c & Hc & HcN).
  rewrite (geti_lookup _ _ _ Hc). apply Hp0. lia.
Qed.

Lemma ell_zero_run (A : ell_matrix.t T) (M N : nat) (p Ap buf : vector_base.t T) :
  tadd tzero (tmul tzero tzero) = tzero ->
  (forall i, i < length (vector_base.handle p) ->
     tadd tzero (tmul (get (vector_base.handle p) i) tzero) = tzero) ->
  ell_matrix.size1 A = M ->
  (forall row item_id, row < M -> item_id < ell_matrix.internal_maxnnz A ->
     ell_matrix.handle A !! (row + item_id * ell_matrix.internal_size1 A) = Some tzero) ->
  vectors_ok M N p Ap buf ->
  pipelined_cg_prod (ELL A) p Ap buf
  = inr (vector_base.mk M (tabulate (fun _ => tzero) M (vector_base.handle Ap)),
         stored_inner_prods buf tzero tzero).
Proof using truthy_tzero.
  intros H00 Hp0 HM Hzero Hvec. apply (prod_run_zero (ELL A) M N).
  - split; [exact HM | apply ell_zero_ok, Hzero].
  - exact Hvec.
  - intros row Hrow. cbn [kernel_row row_entries].
    rewrite (ell_zero_entries _ _ _ _ M) by assumption. reflexivity.
  - intros Apb. reflexivity.
  - exact H00.
  - exact Hp0.
Qed.

Lemma hyb_zero_run (A : hyb_matrix.t T) (M N : nat) (p Ap buf : vector_base.t T) :
  tadd tzero (tmul tzero tzero) = tzero ->
  (forall i, i < length (vector_base.handle p) ->
     tadd tzero (tmul (get (vector_base.handle p) i) tzero) = tzero) ->
  hyb_matrix.size1 A = M ->
  (forall row item_id, row < M -> item_id < hyb_matrix.internal_ellnnz A ->
     hyb_matrix.handle A !! (row + item_id * hyb_matrix.internal_size1 A) = Some tzero) ->
  csr_ok (hyb_matrix.handle3 A) (hyb_matrix.handle4 A) (hyb_matrix.handle5 A) M N ->
  (forall row i, row < M ->
     geti (hyb_matrix.handle3 A) row <= i < geti (hyb_matrix.handle3 A) (row + 1) ->
     hyb_matrix.handle5 A !! i = Some tzero) ->
  vectors_ok M N p Ap buf ->
  pipelined_cg_prod (HYB A) p Ap buf
  = inr (vector_base.mk M (tabulate (fun _ => tzero) M (vector_base.handle Ap)),
         stored_inner_prods buf tzero tzero).
Proof using truthy_tzero.
  intros H00 Hp0 HM Hzero Hcsr Hczero Hvec. apply (prod_run_zero (HYB A) M N).
  - split; [exact HM | split; [apply ell_zero_ok, Hzero | exact Hcsr]].
  - exact Hvec.
  - intros row Hrow. cbn [kernel_row row_entries]. unfold hyb_entries, dot_pv.
    rewrite fold_left_app. fold (dot_pv (ell_entries (hyb_matrix.handle A)
      (hyb_matrix.handle2 A) (hyb_matrix.internal_size1 A)
      (hyb_matrix.internal_ellnnz A) row) (vector_base.handle p) tzero).
    rewrite (ell_zero_entries _ _ _ _ M) by assumption. cbn [dot_pv fold_left].
    apply (csr_zero_dot _ _ _ _ M N); try assumption.
    destruct Hvec as (_ & _ & _ & HpN & _). exact HpN.
  - intros Apb. reflexivity.
  - exact H00.
  - exact Hp0.
Qed.

End ZeroMatrix.

(** ** What a successful run did to the reduction buffer *)

Section Frame.
Context {T : Type} `{Scalar T}.

Lemma vector_update_inr_buffer (result : vector_base.t T) (alpha : T)
    (p r Ap : vector_base.t T) (beta : T) (buf result' p' r' buf' : vector_base.t T) :
  pipelined_cg_vector_update result alpha p r Ap beta buf = inr (result', p', r', buf') ->
  exists x, 0 < length (vector_base.handle buf) /\
    buf' = vector_base.mk (vector_base.size buf) (<[0 := x]> (vector_base.handle buf)).
Proof.
  unfold pipelined_cg_vector_update. intros Hrun.
  apply bind_inr in Hrun as ([[[dres dp] dr] acc] & _ & Hrun).
  apply bind_inr in Hrun as (dbuf & Hw & Hrun).
  apply write_inr in Hw as [Hlen ->]. injection Hrun as _ _ _ <-.
  exists acc. auto.
Qed.

Lemma prod_inr_buffer (A : sparse_matrix T) (p Ap buf Ap' buf' : vector_base.t T) :
  pipelined_cg_prod A p Ap buf = inr (Ap', buf') ->
  exists a b, 2 * (vector_base.size buf / 3) < length (vector_base.handle buf) /\
    buf' = stored_inner_prods buf a b.
Proof.
  destruct A as [A|A|A|A|A]; cbn [pipelined_cg_prod]; intros Hrun.
  - unfold pipelined_cg_prod_compressed_matrix in Hrun.
    apply bind_inr in Hrun as ([[Apb a] b] & _ & Hrun).
    apply bind_inr in Hrun as (buf1 & Hst & Hrun).
    apply store_inner_prods_inr in Hst as [Hlen ->]. injection Hrun as _ <-. eauto.
  - unfold pipelined_cg_prod_coordinate_matrix in Hrun.
    apply bind_inr in Hrun as (Apb1 & _ & Hrun).
    apply bind_inr in Hrun as (Apb2 & _ & Hrun).
    apply bind_inr in Hrun as ([a b] & _ & Hrun).
    apply bind_inr in Hrun as (buf1 & Hst & Hrun).
    apply store_inner_prods_inr in Hst as [Hlen ->]. injection Hrun as _ <-. eauto.
  - unfold pipelined_cg_prod_ell_matrix in Hrun.
    apply bind_inr in Hrun as ([[Apb a] b] & _ & Hrun).
    apply bind_inr in Hrun as (buf1 & Hst & Hrun).
    apply store_inner_prods_inr in Hst as [Hlen ->]. injection Hrun as _ <-. eauto.
  - unfold pipelined_cg_prod_sliced_ell_matrix in Hrun.
    apply bind_inr in Hrun as (nb & _ & Hrun).
    apply bind_inr in Hrun as ([rv [[Apb a] b]] & _ & Hrun).
    apply bind_inr in Hrun as (buf1 & Hst & Hrun).
    apply store_inner_prods_inr in Hst as [Hlen ->]. injection Hrun as _ <-. eauto.
  - unfold pipelined_cg_prod_hyb_matrix in Hrun.
    apply bind_inr in Hrun as ([[Apb a] b] & _ & Hrun).
    apply bind_inr in Hrun as (buf1 & Hst & Hrun).
    apply store_inner_prods_inr in Hst as [Hlen ->]. injection Hrun as _ <-. eauto.
Qed.

End Frame.

(** ** The block past the last row of a sliced ELL matrix *)

Section ExtraBlock.
Context {T : Type} `{Scalar T}.

(** A block whose first row is not below [Ap.size()] stores nothing. *)
Lemma sell_out_skip (Ap_size : nat) (pb rv : list T) (first rpb : nat) (s : list T * T * T) :
  Ap_size <= first ->
  for_range 0 rpb (sell_out_body Ap_size pb rv first) s = inr s.
Proof.
  intros Hfirst. unfold for_range. rewrite (for_loop_fold (fun s _ => s)).
  - f_equal. generalize (seq 0 (rpb - 0)). intros l. induction l as [|x l IH]; auto.
  - intros i [[Apb a] b] _. unfold sell_out_body. rewrite decide_False by lia. reflexivity.
Qed.

(** What a completed block has read, and what it left alone. *)
Lemma sell_block_inr (A : sliced_ell_matrix.t T) (pb : list T) (Ap_size block : nat)
    (rv rv' : list T) (out out' : list T * T * T) :
  sell_block_body A pb Ap_size block (rv, out) = inr (rv', out') ->
  exists cols,
    sliced_ell_matrix.handle1 A !! block = Some cols /\
    (0 < cols -> is_Some (sliced_ell_matrix.handle3 A !! block)) /\
    (Ap_size <= block * sliced_ell_matrix.rows_per_block A -> out' = out).
Proof.
  unfold sell_block_body. intros Hrun.
  apply bind_inr in Hrun as (cols & Hcols & Hrun). apply read_inr in Hcols.
  apply bind_inr in Hrun as (rv1 & _ & Hrun).
  apply bind_inr in Hrun as (rv2 & Hcolumns & Hrun).
  apply bind_inr in Hrun as (out1 & Hout & Hrun). injection Hrun as _ <-.
  exists cols. split; [exact Hcols|]. split.
  - intros Hpos. unfold for_range in Hcolumns.
    destruct cols as [|cols]; [lia|]. cbn [Nat.sub for_loop] in Hcolumns.
    apply bind_inr in Hcolumns as (rv3 & Hcol & _). unfold sell_column_body in Hcol.
    apply bind_inr in Hcol as (bs & Hbs & _). apply read_inr in Hbs. eauto.
  - intros Hskip. rewrite sell_out_skip in Hout by exact Hskip. congruence.
Qed.

(** The entry of [block_start] for a block is used only if the block has columns. *)
Lemma sell_block_body_block_start (A : sliced_ell_matrix.t T) (bs' : list nat) (pb : list T)
    (Ap_size k : nat) (s : list T * (list T * T * T)) :
  sliced_ell_matrix.handle1 A !! k = Some 0 \/ bs' !! k = sliced_ell_matrix.handle3 A !! k ->
  sell_block_body
    (sliced_ell_matrix.mk (sliced_ell_matrix.size1 A) (sliced_ell_matrix.rows_per_block A)
       (sliced_ell_matrix.handle A) (sliced_ell_matrix.handle1 A)
       (sliced_ell_matrix.handle2 A) bs') pb Ap_size k s
  = sell_block_body A pb Ap_size k s.
Proof.
  intros Hor. destruct s as [rv out]. unfold sell_block_body.
  cbn [sliced_ell_matrix.handle1 sliced_ell_matrix.rows_per_block].
  destruct (read columns_per_block (sliced_ell_matrix.handle1 A) k) as [e|cols] eqn:Hcols;
    cbn [bind]; [reflexivity|].
  destruct (for_range 0 (length rv) sell_clear_body rv) as [e|rv1]; cbn [bind];
    [reflexivity|].
  apply read_inr in Hcols. unfold for_range at 1 3.
  rewrite (for_loop_ext _ (sell_column_body A pb k)); [reflexivity|].
  intros cei rv2 Hcei. destruct Hor as [Hzero|Heq]; [rewrite Hzero in Hcols; injection Hcols as <-; lia|].
  unfold sell_column_body, read. cbn [sliced_ell_matrix.handle3]. rewrite Heq. reflexivity.
Qed.

End ExtraBlock.

(** ** What a completed vector update has read *)

Section UpdateBound.
Context {T : Type} `{Scalar T}.

Lemma vector_update_body_inr (alpha beta : T) (dAp : list T) (i : nat)
    (dres dp dr : list T) (acc : T) (s' : list T * list T * list T * T) :
  vector_update_body alpha beta dAp i (dres, dp, dr, acc) = inr s' ->
  i < length dres /\ i < length dp /\ i < length dr /\ i < length dAp.
Proof.
  unfold vector_update_body. intros Hrun.
  apply bind_inr in Hrun as (vp & Hp & Hrun). apply read_inr, lookup_lt_Some in Hp.
  apply bind_inr in Hrun as (vr & Hr & Hrun). apply read_inr, lookup_lt_Some in Hr.
  apply bind_inr in Hrun as (res & Hres & Hrun). apply read_inr, lookup_lt_Some in Hres.
  apply bind_inr in Hrun as (dres1 & _ & Hrun).
  apply bind_inr in Hrun as (ap & HAp & _). apply read_inr, lookup_lt_Some in HAp.
  auto.
Qed.

Lemma vector_update_loop_inr (alpha beta : T) (dAp : list T) (N : nat)
    (dres dp dr : list T) (s' : list T * list T * list T * T) :
  for_loop N 0 (vector_update_body alpha beta dAp) (dres, dp, dr, tzero) = inr s' ->
  N <= length dres /\ N <= length dp /\ N <= length dr /\ N <= length dAp.
Proof.
  intros Hrun.
  pose proof (for_loop_inr_inv
    (fun i s => let '(dres1, dp1, dr1, _) := s in
       length dres1 = length dres /\ length dp1 = length dp /\ length dr1 = length dr /\
       i <= length dres /\ i <= length dp /\ i <= length dr /\
       (0 < i -> i <= length dAp))
    (vector_update_body alpha beta dAp) N 0 (dres, dp, dr, tzero) s') as Hinv.
  cbn beta iota in Hinv. destruct s' as [[[dres' dp'] dr'] acc'].
  destruct Hinv as (_ & _ & _ & H1 & H2 & H3 & H4); [| |exact Hrun|].
  - repeat split; lia.
  - intros i [[[dres1 dp1] dr1] acc1] s2 Hi (L1 & L2 & L3 & _) Hbody.
    pose proof (vector_update_body_inr _ _ _ _ _ _ _ _ _ Hbody) as (B1 & B2 & B3 & B4).
    rewrite vector_update_body_step in Hbody by assumption. injection Hbody as <-.
    rewrite !length_insert. repeat split; lia.
  - cbn [Nat.add] in *. destruct N as [|N]; repeat split; lia.
Qed.

Lemma vector_update_inr_lengths (result : vector_base.t T) (alpha : T)
    (p r Ap : vector_base.t T) (beta : T) (buf : vector_base.t T)
    (out : vector_base.t T * vector_base.t T * vector_base.t T * vector_base.t T) :
  pipelined_cg_vector_update result alpha p r Ap beta buf = inr out ->
  let N := vector_base.size result in
  N <= length (vector_base.handle result) /\ N <= length (vector_base.handle p) /\
  N <= length (vector_base.handle r) /\ N <= length (vector_base.handle Ap) /\
  0 < length (vector_base.handle buf).
Proof.
  unfold pipelined_cg_vector_update, for_range. rewrite Nat.sub_0_r. intros Hrun.
  apply bind_inr in Hrun as ([[[dres dp] dr] acc] & Hloop & Hrun).
  apply bind_inr in Hrun as (dbuf & Hw & _). apply write_inr in Hw as [Hlen _].
  apply vector_update_loop_inr in Hloop. cbn zeta. tauto.
Qed.

Lemma vector_update_sizes_unused (result : vector_base.t T) (alpha : T)
    (p r Ap : vector_base.t T) (beta : T) (buf : vector_base.t T) (sp sr sA sb : nat) :
  sum_map id handles_of
    (pipelined_cg_vector_update result alpha
       (vector_base.mk sp (vector_base.handle p)) (vector_base.mk sr (vector_base.handle r))
       (vector_base.mk sA (vector_base.handle Ap)) beta
       (vector_base.mk sb (vector_base.handle buf)))
  = sum_map id handles_of (pipelined_cg_vector_update result alpha p r Ap beta buf).
Proof.
  unfold pipelined_cg_vector_update. cbn [vector_base.handle vector_base.size].
  destruct (for_range 0 (vector_base.size result) _ _) as [e|[[[dres dp] dr] acc]];
    cbn [bind]; [reflexivity|].
  destruct (write data_buffer (vector_base.handle buf) 0 acc) as [e|dbuf]; reflexivity.
Qed.

End UpdateBound.

(** ** Claims *)

(** C1.  For four vectors of common size [N] and every index [i] below
    [N], one iteration of the vector-update kernel computes, from the
    old [p[i]] and [r[i]]: [result[i] + alpha * p[i]] for [result[i]],
    [new_r = r[i] - alpha * Ap[i]], [new_p = new_r + beta * p[i]],
    adds [new_r * new_r] to the running sum, and stores [new_p] and
    [new_r]; after the full pass every element below [N] holds these
    values and slot [0] of the reduction buffer holds the sum of
    [new_r[i]^2] over all [i].  For [result=[1,2]], [p=[1,1]],
    [r=[2,2]], [Ap=[0,0]], [alpha=1], [beta=0] the kernel produces
    [result=[2,3]], [r=[2,2]], [p=[2,2]] and the reduction value [8]. *)
Theorem C1_vector_update_recurrence :
  (forall (T : Type) (S : Scalar T) (alpha beta : T) (dres dp dr dAp : list T)
          (i : nat) (acc : T),
     i < length dres -> i < length dp -> i < length dr -> i < length dAp ->
     let new_r := tsub (get dr i) (tmul alpha (get dAp i)) in
     let new_p := tadd new_r (tmul beta (get dp i)) in
     vector_update_body alpha beta dAp i (dres, dp, dr, acc)
     = inr (<[i := tadd (get dres i) (tmul alpha (get dp i))]> dres,
            <[i := new_p]> dp, <[i := new_r]> dr, tadd acc (tmul new_r new_r)))
  /\
  (forall (T : Type) (S : Scalar T) (N : nat) (result p r Ap buf : vector_base.t T)
          (alpha beta : T),
     vector_base.size result = N -> vector_base.size p = N ->
     vector_base.size r = N -> vector_base.size Ap = N ->
     N <= length (vector_base.handle result) -> N <= length (vector_base.handle p) ->
     N <= length (vector_base.handle r) -> N <= length (vector_base.handle Ap) ->
     0 < length (vector_base.handle buf) ->
     exists result' p' r' buf',
       pipelined_cg_vector_update result alpha p r Ap beta buf
       = inr (result', p', r', buf') /\
       (forall i, i < N ->
          let new_r := tsub (get (vector_base.handle r) i)
                            (tmul alpha (get (vector_base.handle Ap) i)) in
          vector_base.handle result' !! i
            = Some (tadd (get (vector_base.handle result) i)
                         (tmul alpha (get (vector_base.handle p) i))) /\
          vector_base.handle r' !! i = Some new_r /\
          vector_base.handle p' !! i
            = Some (tadd new_r (tmul beta (get (vector_base.handle p) i)))) /\
       vector_base.handle buf' !! 0
         = Some (tsum (fun i => tmul (get (vector_base.handle r') i)
                                     (get (vector_base.handle r') i)) N))
  /\
  (forall s0 s1 s2 : Z,
     pipelined_cg_vector_update
       (vector_base.mk 2 [1; 2]%Z) 1%Z (vector_base.mk 2 [1; 1]%Z)
       (vector_base.mk 2 [2; 2]%Z) (vector_base.mk 2 [0; 0]%Z) 0%Z
       (vector_base.mk 3 [s0; s1; s2])
     = inr (vector_base.mk 2 [2; 3]%Z, vector_base.mk 2 [2; 2]%Z,
            vector_base.mk 2 [2; 2]%Z, vector_base.mk 3 [8%Z; s1; s2])).
Proof.
  split; [|split].
  - intros T S alpha beta dres dp dr dAp i acc Hres Hp Hr HAp.
    apply vector_update_body_step; assumption.
  - intros T S N result p r Ap buf alpha beta Hsres _ _ _ Hres Hp Hr HAp Hbuf. subst N.
    destruct (vector_update_spec result alpha p r Ap beta buf Hres Hp Hr HAp Hbuf)
      as (result' & p' & r' & buf' & Hrun & Hlow & _ & Hb & _).
    exists result', p', r', buf'. split; [exact Hrun|]. split.
    + intros i Hi. destruct (Hlow i Hi) as (H1 & H2 & H3). auto.
    + rewrite Hb. apply list_lookup_insert_eq. exact Hbuf.
  - intros s0 s1 s2. reflexivity.
Qed.

Lemma C1_vector_update_recurrence_witness :
  exists result' p' r' buf',
    pipelined_cg_vector_update
      (vector_base.mk 2 [1; 2]%Z) 1%Z (vector_base.mk 2 [1; 1]%Z)
      (vector_base.mk 2 [2; 2]%Z) (vector_base.mk 2 [0; 0]%Z) 0%Z
      (vector_base.mk 3 [7; 8; 9]%Z)
    = inr (result', p', r', buf') /\
    (forall i, i < 2 ->
       let new_r := tsub (get [2; 2]%Z i) (tmul 1%Z (get [0; 0]%Z i)) in
       vector_base.handle result' !! i
         = Some (tadd (get [1; 2]%Z i) (tmul 1%Z (get [1; 1]%Z i))) /\
       vector_base.handle r' !! i = Some new_r /\
       vector_base.handle p' !! i = Some (tadd new_r (tmul 0%Z (get [1; 1]%Z i)))) /\
    vector_base.handle buf' !! 0
      = Some (tsum (fun i => tmul (get (vector_base.handle r') i)
                                  (get (vector_base.handle r') i)) 2).
Proof.
  apply (proj1 (proj2 C1_vector_update_recurrence) Z Z_Scalar 2
           (vector_base.mk 2 [1; 2]%Z) (vector_base.mk 2 [1; 1]%Z)
           (vector_base.mk 2 [2; 2]%Z) (vector_base.mk 2 [0; 0]%Z)
           (vector_base.mk 3 [7; 8; 9]%Z) 1%Z 0%Z);
    simpl; (reflexivity || lia).
Defined.

Lemma one_by_one_csr_ok : matrix_ok one_by_one_csr 1 1.
Proof.
  split; [reflexivity|]. split; [simpl; lia|]. intros row i Hrow Hi.
  assert (row = 0) as -> by lia. cbn in Hi. assert (i = 0) as -> by lia.
  split; [simpl; lia|]. exists 0. split; [reflexivity | lia].
Qed.

Lemma example_vectors_ok (a0 s0 s1 s2 : Z) :
  vectors_ok 1 1 (vector_base.mk 1 [3%Z]) (vector_base.mk 1 [a0])
    (vector_base.mk 3 [s0; s1; s2]).
Proof. unfold vectors_ok. cbn. lia. Qed.

Lemma one_by_one_sell_ok : matrix_ok one_by_one_sell 1 1.
Proof.
  split; [reflexivity|]. split; [simpl; lia|]. cbn. intros block Hblock.
  destruct block as [|[|block]]; [| |lia].
  - exists 1. split; [reflexivity|]. intros cei Hcei. exists 0. split; [reflexivity|].
    intros rib Hrib. assert (cei = 0) as -> by lia. assert (rib = 0) as -> by lia.
    split; [simpl; lia|]. intros _. exists 0. split; [reflexivity | lia].
  - exists 0. split; [reflexivity|]. intros cei Hcei. lia.
Qed.

Lemma one_by_one_hyb_ok : matrix_ok one_by_one_hyb 1 1.
Proof.
  split; [reflexivity|]. split.
  - intros row item Hrow Hitem.
    assert (row = 0) as -> by lia. assert (item = 0) as -> by (cbn in Hitem; lia).
    split; [simpl; lia|]. intros _. exists 0. split; [reflexivity | lia].
  - split; [cbn; lia|]. intros row i Hrow Hi. assert (row = 0) as -> by lia.
    cbn in Hi. lia.
Qed.

Lemma overflow_hyb_ok : matrix_ok overflow_hyb 1 1.
Proof.
  split; [reflexivity|]. split.
  - intros row item Hrow Hitem.
    assert (row = 0) as -> by lia. assert (item = 0) as -> by (cbn in Hitem; lia).
    split; [simpl; lia|]. cbn. intros Hval. discriminate Hval.
  - split; [cbn; lia|]. intros row i Hrow Hi. assert (row = 0) as -> by lia.
    cbn in Hi. assert (i = 0) as -> by lia. split; [cbn; lia|].
    exists 0. split; [reflexivity | lia].
Qed.

Lemma unordered_coo_double_ok : matrix_ok (COO unordered_coo_double) 2 2.
Proof.
  intros i Hi. cbn in Hi. split; [cbn; lia|].
  destruct i as [|[|[|i]]]; [| | |lia].
  - exists 1, 1. cbn. repeat split; lia.
  - exists 0, 0. cbn. repeat split; lia.
  - exists 1, 0. cbn. repeat split; lia.
Qed.

(** C2.  For every well-formed matrix [A] and vector [p], every overload
    of the fused product returns in each row of [Ap] what the kernel
    accumulates over the stored entries of that row, and stores [S1],
    the sum over all rows of [Ap[row]^2], at offset [B] of the reduction
    buffer and [S2], the sum over all rows of [p[row] * Ap[row]], at
    offset [2B], where [B] is a third of the size of the buffer; the
    multiplication is assumed to commute, as it does for [double].  For
    every encoding, in any of the five layouts, of the [1 x 1] matrix
    with the value [5] over the integers, and [p = [3]], the kernel
    produces [Ap = [15]], [S1 = 225] and [S2 = 45]; over [double] it
    does so for the encodings of [one_by_one_double]. *)
Theorem C2_prod_reductions :
  (forall (T : Type) (S : Scalar T) (A : sparse_matrix T) (M N : nat)
          (p Ap buf : vector_base.t T),
     (forall x y : T, tmul x y = tmul y x) ->
     matrix_ok A M N -> vectors_ok M N p Ap buf ->
     let B := vector_base.size buf / 3 in
     exists Ap' buf',
       pipelined_cg_prod A p Ap buf = inr (Ap', buf') /\
       (forall row, row < M ->
          vector_base.handle Ap' !! row = Some (kernel_row A (vector_base.handle p) row)) /\
       vector_base.handle buf' !! B
         = Some (tsum (fun row => tmul (get (vector_base.handle Ap') row)
                                       (get (vector_base.handle Ap') row)) M) /\
       vector_base.handle buf' !! (2 * B)
         = Some (tsum (fun row => tmul (get (vector_base.handle p) row)
                                       (get (vector_base.handle Ap') row)) M))
  /\
  (forall (A : sparse_matrix Z) (a0 s0 s1 s2 : Z),
     matrix_ok A 1 1 -> matrix_entry A 0 0 = 5%Z ->
     pipelined_cg_prod A (vector_base.mk 1 [3%Z]) (vector_base.mk 1 [a0])
       (vector_base.mk 3 [s0; s1; s2])
     = inr (vector_base.mk 1 [15%Z], vector_base.mk 3 [s0; 225%Z; 45%Z]))
  /\
  (forall (A : sparse_matrix float) (a0 s0 s1 s2 : float),
     In A one_by_one_double ->
     pipelined_cg_prod A (vector_base.mk 1 [3%float]) (vector_base.mk 1 [a0])
       (vector_base.mk 3 [s0; s1; s2])
     = inr (vector_base.mk 1 [15%float], vector_base.mk 3 [s0; 225%float; 45%float])).
Proof.
  split; [|split].
  - intros T S A M N p Ap buf Hcomm Hok Hvec B.
    destruct (prod_reductions Hcomm A M N p Ap buf Hok Hvec)
      as (Ap' & buf' & Hrun & -> & HB & H2B & _).
    eexists. exists buf'. split; [exact Hrun|]. split; [|split; [exact HB | exact H2B]].
    intros row Hrow. cbn [vector_base.handle]. apply tabulate_lookup_lt, Hrow.
  - intros A a0 s0 s1 s2 Hok Hentry.
    rewrite (prod_exact A 1 1); [| exact Hok | apply example_vectors_ok].
    assert (Hrow : prod_row A 1 [3%Z] 0 = 15%Z).
    { unfold prod_row, tsum. cbn [seq fold_left]. rewrite Hentry. reflexivity. }
    unfold tabulate, stored_inner_prods, inner_prod, tsum.
    cbn [vector_base.handle vector_base.size seq map fold_left app].
    rewrite Hrow. reflexivity.
  - intros A a0 s0 s1 s2 HA. unfold one_by_one_double in HA. cbn [In] in HA.
    destruct HA as [<-|[<-|[<-|[<-|[<-|[<-|[]]]]]]]; reflexivity.
Qed.

Lemma C2_prod_reductions_witness :
  (exists Ap' buf',
     pipelined_cg_prod (COO unordered_coo_double) (vector_base.mk 2 [3; 4]%float)
       (vector_base.mk 2 [99; 98]%float) (vector_base.mk 3 [7; 8; 9]%float)
     = inr (Ap', buf') /\
     (forall row, row < 2 ->
        vector_base.handle Ap' !! row
        = Some (kernel_row (COO unordered_coo_double) [3; 4]%float row)) /\
     vector_base.handle buf' !! 1
       = Some (tsum (fun row => tmul (get (vector_base.handle Ap') row)
                                     (get (vector_base.handle Ap') row)) 2) /\
     vector_base.handle buf' !! 2
       = Some (tsum (fun row => tmul (get [3; 4]%float row)
                                     (get (vector_base.handle Ap') row)) 2))
  /\
  pipelined_cg_prod overflow_hyb
    (vector_base.mk 1 [3%Z]) (vector_base.mk 1 [0%Z]) (vector_base.mk 3 [7; 8; 9]%Z)
  = inr (vector_base.mk 1 [15%Z], vector_base.mk 3 [7; 225; 45]%Z)
  /\
  pipelined_cg_prod one_by_one_hyb
    (vector_base.mk 1 [3%Z]) (vector_base.mk 1 [0%Z]) (vector_base.mk 3 [7; 8; 9]%Z)
  = inr (vector_base.mk 1 [15%Z], vector_base.mk 3 [7; 225; 45]%Z)
  /\
  pipelined_cg_prod one_by_one_sell
    (vector_base.mk 1 [3%Z]) (vector_base.mk 1 [0%Z]) (vector_base.mk 3 [7; 8; 9]%Z)
  = inr (vector_base.mk 1 [15%Z], vector_base.mk 3 [7; 225; 45]%Z)
  /\
  pipelined_cg_prod (HYB (hyb_matrix.mk 1 1 1 [0%float] [77] [0; 1] [0] [5%float]))
    (vector_base.mk 1 [3%float]) (vector_base.mk 1 [0%float])
    (vector_base.mk 3 [7; 8; 9]%float)
  = inr (vector_base.mk 1 [15%float], vector_base.mk 3 [7; 225; 45]%float).
Proof.
  split; [|split; [|split; [|split]]].
  - apply (proj1 C2_prod_reductions float Float_Scalar (COO unordered_coo_double) 2 2
             (vector_base.mk 2 [3; 4]%float) (vector_base.mk 2 [99; 98]%float)
             (vector_base.mk 3 [7; 8; 9]%float) double_mul_comm unordered_coo_double_ok).
    unfold vectors_ok. cbn. lia.
  - apply (proj1 (proj2 C2_prod_reductions) overflow_hyb 0%Z 7%Z 8%Z 9%Z overflow_hyb_ok).
    reflexivity.
  - apply (proj1 (proj2 C2_prod_reductions) one_by_one_hyb 0%Z 7%Z 8%Z 9%Z
             one_by_one_hyb_ok).
    reflexivity.
  - apply (proj1 (proj2 C2_prod_reductions) one_by_one_sell 0%Z 7%Z 8%Z 9%Z
             one_by_one_sell_ok).
    reflexivity.
  - apply (proj2 (proj2 C2_prod_reductions)
             (HYB (hyb_matrix.mk 1 1 1 [0%float] [77] [0; 1] [0] [5%float]))
             0%float 7%float 8%float 9%float).
    unfold one_by_one_double. cbn [In]. tauto.
Defined.

(** C3, as stated, fails: on the [1 x 1] matrix with the value [5] and
    [p = [3]] the product kernel returns [Ap = [15]]; the value it
    stores at offset [B = 1] is [225], which is [(Ap,Ap)] and not
    [(p,Ap) = 45], and the value at offset [2B = 2] is [45], which is
    [(p,Ap)] and not [(Ap,Ap) = 225]. *)
Lemma C3_offsets_counterexample :
  exists Ap' buf',
    pipelined_cg_prod one_by_one_csr (vector_base.mk 1 [3%Z]) (vector_base.mk 1 [0%Z])
      (vector_base.mk 3 [0; 0; 0]%Z)
    = inr (Ap', buf') /\
    vector_base.handle buf' !! 1 <> Some (inner_prod [3%Z] (vector_base.handle Ap') 1) /\
    vector_base.handle buf' !! 2
      <> Some (inner_prod (vector_base.handle Ap') (vector_base.handle Ap') 1).
Proof.
  exists (vector_base.mk 1 [15%Z]), (vector_base.mk 3 [0; 225; 45]%Z).
  split; [reflexivity|]. split; cbn; intros [=].
Qed.

(** C3, amended.  The three partial sums in the reduction buffer at the
    offsets [0], [B], [2B] are, in this order, [(r,r)] from the
    vector-update kernel, [(Ap,Ap)] from the product kernel and [(p,Ap)]
    from the product kernel: a vector update stores [inner_prod(r,r)] of
    the updated [r] at offset [0], and every product kernel stores
    [inner_prod(Ap,Ap)] at offset [B] and [inner_prod(p,Ap)] at offset
    [2B]. *)
Theorem C3_reduction_offsets :
  forall (T : Type) (S : Scalar T),
  (forall x y : T, tmul x y = tmul y x) ->
  (forall (result p r Ap buf : vector_base.t T) (alpha beta : T),
     let N := vector_base.size result in
     N <= length (vector_base.handle result) -> N <= length (vector_base.handle p) ->
     N <= length (vector_base.handle r) -> N <= length (vector_base.handle Ap) ->
     0 < length (vector_base.handle buf) ->
     exists result' p' r' buf',
       pipelined_cg_vector_update result alpha p r Ap beta buf
       = inr (result', p', r', buf') /\
       vector_base.handle buf' !! 0
         = Some (inner_prod (vector_base.handle r') (vector_base.handle r') N))
  /\
  (forall (A : sparse_matrix T) (M N : nat) (p Ap buf : vector_base.t T),
     matrix_ok A M N -> vectors_ok M N p Ap buf ->
     let B := vector_base.size buf / 3 in
     exists Ap' buf',
       pipelined_cg_prod A p Ap buf = inr (Ap', buf') /\
       vector_base.handle buf' !! B
         = Some (inner_prod (vector_base.handle Ap') (vector_base.handle Ap') M) /\
       vector_base.handle buf' !! (2 * B)
         = Some (inner_prod (vector_base.handle p) (vector_base.handle Ap') M)).
Proof.
  intros T S Hcomm. split.
  - intros result p r Ap buf alpha beta N Hres Hp Hr HAp Hbuf.
    destruct (vector_update_spec result alpha p r Ap beta buf Hres Hp Hr HAp Hbuf)
      as (result' & p' & r' & buf' & Hrun & _ & _ & Hb & _).
    exists result', p', r', buf'. split; [exact Hrun|].
    rewrite Hb. apply list_lookup_insert_eq. exact Hbuf.
  - intros A M N p Ap buf Hok Hvec B.
    destruct (prod_reductions Hcomm A M N p Ap buf Hok Hvec)
      as (Ap' & buf' & Hrun & _ & HB & H2B & _).
    exists Ap', buf'. auto.
Qed.

Lemma C3_reduction_offsets_witness :
  (exists result' p' r' buf',
     pipelined_cg_vector_update
       (vector_base.mk 2 [1; 2]%Z) 1%Z (vector_base.mk 2 [1; 1]%Z)
       (vector_base.mk 2 [2; 2]%Z) (vector_base.mk 2 [0; 0]%Z) 0%Z
       (vector_base.mk 3 [7; 8; 9]%Z)
     = inr (result', p', r', buf') /\
     vector_base.handle buf' !! 0
       = Some (inner_prod (vector_base.handle r') (vector_base.handle r') 2))
  /\
  (exists Ap' buf',
     pipelined_cg_prod one_by_one_ell (vector_base.mk 1 [3%Z]) (vector_base.mk 1 [0%Z])
       (vector_base.mk 3 [7; 8; 9]%Z)
     = inr (Ap', buf') /\
     vector_base.handle buf' !! 1
       = Some (inner_prod (vector_base.handle Ap') (vector_base.handle Ap') 1) /\
     vector_base.handle buf' !! 2 = Some (inner_prod [3%Z] (vector_base.handle Ap') 1)).
Proof.
  split.
  - apply (proj1 (C3_reduction_offsets Z Z_Scalar Z.mul_comm)
             (vector_base.mk 2 [1; 2]%Z) (vector_base.mk 2 [1; 1]%Z)
             (vector_base.mk 2 [2; 2]%Z) (vector_base.mk 2 [0; 0]%Z)
             (vector_base.mk 3 [7; 8; 9]%Z) 1%Z 0%Z); simpl; lia.
  - apply (proj2 (C3_reduction_offsets Z Z_Scalar Z.mul_comm) one_by_one_ell 1 1
             (vector_base.mk 1 [3%Z]) (vector_base.mk 1 [0%Z])
             (vector_base.mk 3 [7; 8; 9]%Z)).
    + split; [reflexivity|]. intros row item Hrow Hitem.
      assert (row = 0) as -> by lia. assert (item = 0) as -> by (cbn in Hitem; lia).
      split; [simpl; lia|]. intros _. exists 0. split; [reflexivity | lia].
    + apply example_vectors_ok.
Defined.

Lemma prod_row_logically_equal {T : Type} `{Scalar T} (A B : sparse_matrix T) (M N : nat)
    (pb : list T) (row : nat) :
  logically_equal M N A B -> row < M -> prod_row A N pb row = prod_row B N pb row.
Proof.
  intros Heq Hrow. unfold prod_row. apply tsum_ext. intros col Hcol.
  rewrite (Heq row col Hrow Hcol). reflexivity.
Qed.








Lemma zero_hyb_double_csr_ok :
  csr_ok (hyb_matrix.handle3 zero_hyb_double) (hyb_matrix.handle4 zero_hyb_double)
    (hyb_matrix.handle5 zero_hyb_double) 2 2.
Proof.
  split; [cbn; lia|]. intros row i Hrow Hi.
  destruct row as [|[|row]]; cbn in Hi; try lia.
  assert (i = 0) as -> by lia. split; [cbn; lia|].
  exists 0. split; [reflexivity | lia].
Qed.

Lemma zero_ell_double_zero (row item_id : nat) :
  row < 2 -> item_id < ell_matrix.internal_maxnnz zero_ell_double ->
  ell_matrix.handle zero_ell_double
    !! (row + item_id * ell_matrix.internal_size1 zero_ell_double) = Some tzero.
Proof.
  intros Hrow Hitem. cbn in Hitem.
  destruct row as [|[|row]]; destruct item_id as [|[|item_id]]; try lia; reflexivity.
Qed.

Lemma zero_hyb_double_zero (row item_id : nat) :
  row < 2 -> item_id < hyb_matrix.internal_ellnnz zero_hyb_double ->
  hyb_matrix.handle zero_hyb_double
    !! (row + item_id * hyb_matrix.internal_size1 zero_hyb_double) = Some tzero.
Proof.
  intros Hrow Hitem. cbn in Hitem.
  destruct row as [|[|row]]; destruct item_id as [|item_id]; try lia; reflexivity.
Qed.

(** C5, as stated, fails over [double].  Every slot of [zero_ell_double]
    and of [zero_hyb_double] is [0].  With [p = [inf; 1]] the ELL kernel
    returns [Ap = [0; 0]], but the reduction [(p,Ap)] it stores is
    [inf * 0 + 1 * 0 = NaN]; the hybrid kernel multiplies its overflow
    entry [0] with [p[0] = inf] without testing it and returns
    [Ap[0] = NaN]. *)
Lemma C5_zero_slots_counterexample :
  matrix_ok (ELL zero_ell_double) 2 2 /\ matrix_ok (HYB zero_hyb_double) 2 2 /\
  vectors_ok 2 2 (vector_base.mk 2 [PrimFloat.infinity; 1%float])
    (vector_base.mk 2 [99; 98]%float) (vector_base.mk 3 [7; 8; 9]%float) /\
  pipelined_cg_prod (ELL zero_ell_double) (vector_base.mk 2 [PrimFloat.infinity; 1%float])
    (vector_base.mk 2 [99; 98]%float) (vector_base.mk 3 [7; 8; 9]%float)
  = inr (vector_base.mk 2 [0; 0]%float,
         vector_base.mk 3 [7%float; 0%float; PrimFloat.nan]) /\
  pipelined_cg_prod (HYB zero_hyb_double) (vector_base.mk 2 [PrimFloat.infinity; 1%float])
    (vector_base.mk 2 [99; 98]%float) (vector_base.mk 3 [7; 8; 9]%float)
  = inr (vector_base.mk 2 [PrimFloat.nan; 0%float],
         vector_base.mk 3 [7%float; PrimFloat.nan; PrimFloat.nan]) /\
  PrimFloat.nan <> 0%float.
Proof.
  split; [|split; [|split; [|split; [|split]]]].
  - split; [reflexivity|]. apply (ell_zero_ok double_truthy_zero), zero_ell_double_zero.
  - split; [reflexivity|]. split.
    + apply (ell_zero_ok double_truthy_zero), zero_hyb_double_zero.
    + exact zero_hyb_double_csr_ok.
  - unfold vectors_ok. cbn. lia.
  - reflexivity.
  - reflexivity.
  - exact double_nan_not_zero.
Qed.

(** C5, amended.  The ELL and hybrid kernels decide on the stored value
    alone whether a slot is skipped: the coordinate buffer may hold
    anything, or nothing at all, at the slots whose value is [0] without
    changing the run, so the column index of such a slot is never used
    to read [p]; this holds for every element type.  For a matrix whose
    every slot is [0] (whatever its coordinate buffer holds) the kernel
    returns [0] in every row of [Ap] and [0] for both reductions,
    provided that [p[i] * 0] adds nothing to [0] for every element of
    [p]; over [double] this is the case when every element of [p] is
    finite. *)
Theorem C5_zero_slots_skipped :
  (forall (T : Type) (S : Scalar T) (A : ell_matrix.t T) (crd' : list nat)
          (p Ap buf : vector_base.t T),
     (forall offset, truthy (get (ell_matrix.handle A) offset) = true ->
        crd' !! offset = ell_matrix.handle2 A !! offset) ->
     pipelined_cg_prod
       (ELL (ell_matrix.mk (ell_matrix.size1 A) (ell_matrix.internal_size1 A)
               (ell_matrix.internal_maxnnz A) (ell_matrix.handle A) crd')) p Ap buf
     = pipelined_cg_prod (ELL A) p Ap buf)
  /\
  (forall (T : Type) (S : Scalar T) (A : hyb_matrix.t T) (crd' : list nat)
          (p Ap buf : vector_base.t T),
     (forall offset, truthy (get (hyb_matrix.handle A) offset) = true ->
        crd' !! offset = hyb_matrix.handle2 A !! offset) ->
     pipelined_cg_prod
       (HYB (hyb_matrix.mk (hyb_matrix.size1 A) (hyb_matrix.internal_size1 A)
               (hyb_matrix.internal_ellnnz A) (hyb_matrix.handle A) crd'
               (hyb_matrix.handle3 A) (hyb_matrix.handle4 A) (hyb_matrix.handle5 A)))
       p Ap buf
     = pipelined_cg_prod (HYB A) p Ap buf)
  /\
  (forall (T : Type) (S : Scalar T) (A : ell_matrix.t T) (M N : nat)
          (p Ap buf : vector_base.t T),
     truthy (tzero : T) = false ->
     tadd tzero (tmul tzero tzero) = (tzero : T) ->
     (forall i, i < length (vector_base.handle p) ->
        tadd tzero (tmul (get (vector_base.handle p) i) tzero) = tzero) ->
     ell_matrix.size1 A = M ->
     (forall row item_id, row < M -> item_id < ell_matrix.internal_maxnnz A ->
        ell_matrix.handle A !! (row + item_id * ell_matrix.internal_size1 A) = Some tzero) ->
     vectors_ok M N p Ap buf ->
     pipelined_cg_prod (ELL A) p Ap buf
     = inr (vector_base.mk M (tabulate (fun _ => tzero) M (vector_base.handle Ap)),
            stored_inner_prods buf tzero tzero))
  /\
  (forall (T : Type) (S : Scalar T) (A : hyb_matrix.t T) (M N : nat)
          (p Ap buf : vector_base.t T),
     truthy (tzero : T) = false ->
     tadd tzero (tmul tzero tzero) = (tzero : T) ->
     (forall i, i < length (vector_base.handle p) ->
        tadd tzero (tmul (get (vector_base.handle p) i) tzero) = tzero) ->
     hyb_matrix.size1 A = M ->
     (forall row item_id, row < M -> item_id < hyb_matrix.internal_ellnnz A ->
        hyb_matrix.handle A !! (row + item_id * hyb_matrix.internal_size1 A) = Some tzero) ->
     csr_ok (hyb_matrix.handle3 A) (hyb_matrix.handle4 A) (hyb_matrix.handle5 A) M N ->
     (forall row i, row < M ->
        geti (hyb_matrix.handle3 A) row <= i < geti (hyb_matrix.handle3 A) (row + 1) ->
        hyb_matrix.handle5 A !! i = Some tzero) ->
     vectors_ok M N p Ap buf ->
     pipelined_cg_prod (HYB A) p Ap buf
     = inr (vector_base.mk M (tabulate (fun _ => tzero) M (vector_base.handle Ap)),
            stored_inner_prods buf tzero tzero))
  /\
  (forall (A : ell_matrix.t float) (M N : nat) (p Ap buf : vector_base.t float),
     (forall i x, vector_base.handle p !! i = Some x -> PrimFloat.is_finite x = true) ->
     ell_matrix.size1 A = M ->
     (forall row item_id, row < M -> item_id < ell_matrix.internal_maxnnz A ->
        ell_matrix.handle A !! (row + item_id * ell_matrix.internal_size1 A) = Some tzero) ->
     vectors_ok M N p Ap buf ->
     pipelined_cg_prod (ELL A) p Ap buf
     = inr (vector_base.mk M (tabulate (fun _ => tzero) M (vector_base.handle Ap)),
            stored_inner_prods buf tzero tzero))
  /\
  (forall (A : hyb_matrix.t float) (M N : nat) (p Ap buf : vector_base.t float),
     (forall i x, vector_base.handle p !! i = Some x -> PrimFloat.is_finite x = true) ->
     hyb_matrix.size1 A = M ->
     (forall row item_id, row < M -> item_id < hyb_matrix.internal_ellnnz A ->
        hyb_matrix.handle A !! (row + item_id * hyb_matrix.internal_size1 A) = Some tzero) ->
     csr_ok (hyb_matrix.handle3 A) (hyb_matrix.handle4 A) (hyb_matrix.handle5 A) M N ->
     (forall row i, row < M ->
        geti (hyb_matrix.handle3 A) row <= i < geti (hyb_matrix.handle3 A) (row + 1) ->
        hyb_matrix.handle5 A !! i = Some tzero) ->
     vectors_ok M N p Ap buf ->
     pipelined_cg_prod (HYB A) p Ap buf
     = inr (vector_base.mk M (tabulate (fun _ => tzero) M (vector_base.handle Ap)),
            stored_inner_prods buf tzero tzero)).
Proof.
  assert (Hfinite : forall p : vector_base.t float,
            (forall i x, vector_base.handle p !! i = Some x -> PrimFloat.is_finite x = true) ->
            forall i, i < length (vector_base.handle p) ->
              tadd tzero (tmul (get (vector_base.handle p) i) tzero) = tzero).
  { intros p Hfin i Hi. destruct (lookup_lt_is_Some_2 _ _ Hi) as [x Hx].
    rewrite (get_lookup _ _ _ Hx). apply double_finite_absorbed, (Hfin i x Hx). }
  split; [|split; [|split; [|split; [|split]]]].
  - intros T S A crd' p Ap buf Hcrd. apply ell_coords_irrelevant, Hcrd.
  - intros T S A crd' p Ap buf Hcrd. apply hyb_coords_irrelevant, Hcrd.
  - intros T S A M N p Ap buf Htruthy H00 Hp0 HM Hzero Hvec.
    apply (ell_zero_run Htruthy A M N p Ap buf H00 Hp0 HM Hzero Hvec).
  - intros T S A M N p Ap buf Htruthy H00 Hp0 HM Hzero Hcsr Hczero Hvec.
    apply (hyb_zero_run Htruthy A M N p Ap buf H00 Hp0 HM Hzero Hcsr Hczero Hvec).
  - intros A M N p Ap buf Hfin HM Hzero Hvec.
    apply (ell_zero_run double_truthy_zero A M N p Ap buf double_zero_absorbed
             (Hfinite p Hfin) HM Hzero Hvec).
  - intros A M N p Ap buf Hfin HM Hzero Hcsr Hczero Hvec.
    apply (hyb_zero_run double_truthy_zero A M N p Ap buf double_zero_absorbed
             (Hfinite p Hfin) HM Hzero Hcsr Hczero Hvec).
Qed.

Lemma C5_zero_slots_skipped_witness :
  pipelined_cg_prod (ELL zero_ell_double) (vector_base.mk 2 [3; -4]%float)
    (vector_base.mk 2 [99; 98]%float) (vector_base.mk 3 [7; 8; 9]%float)
  = inr (vector_base.mk 2 [0; 0]%float, vector_base.mk 3 [7; 0; 0]%float)
  /\
  pipelined_cg_prod (HYB zero_hyb_double) (vector_base.mk 2 [3; -4]%float)
    (vector_base.mk 2 [99; 98]%float) (vector_base.mk 3 [7; 8; 9]%float)
  = inr (vector_base.mk 2 [0; 0]%float, vector_base.mk 3 [7; 0; 0]%float)
  /\
  pipelined_cg_prod (ELL zero_ell) (vector_base.mk 2 [3; 4]%Z) (vector_base.mk 2 [99; 98]%Z)
    (vector_base.mk 3 [7; 8; 9]%Z)
  = inr (vector_base.mk 2 [0; 0]%Z, vector_base.mk 3 [7; 0; 0]%Z)
  /\
  pipelined_cg_prod (HYB zero_hyb) (vector_base.mk 2 [3; 4]%Z) (vector_base.mk 2 [99; 98]%Z)
    (vector_base.mk 3 [7; 8; 9]%Z)
  = inr (vector_base.mk 2 [0; 0]%Z, vector_base.mk 3 [7; 0; 0]%Z)
  /\
  pipelined_cg_prod (ELL (ell_matrix.mk 2 2 2 [5; 7; 0; 0]%Z [0; 1; 99]))
    (vector_base.mk 2 [3; 4]%Z) (vector_base.mk 2 [99; 98]%Z) (vector_base.mk 3 [7; 8; 9]%Z)
  = pipelined_cg_prod (ELL diag_ell)
      (vector_base.mk 2 [3; 4]%Z) (vector_base.mk 2 [99; 98]%Z) (vector_base.mk 3 [7; 8; 9]%Z).
Proof.
  assert (Hfin : forall i x, [3; -4]%float !! i = Some x -> PrimFloat.is_finite x = true).
  { intros i x Hx. destruct i as [|[|i]]; cbn in Hx; [| |discriminate Hx];
      injection Hx as <-; reflexivity. }
  assert (Hvec : vectors_ok 2 2 (vector_base.mk 2 [3; -4]%float)
                   (vector_base.mk 2 [99; 98]%float) (vector_base.mk 3 [7; 8; 9]%float))
    by (unfold vectors_ok; cbn; lia).
  split; [|split; [|split; [|split]]].
  - apply (proj1 (proj2 (proj2 (proj2 (proj2 C5_zero_slots_skipped))))
             zero_ell_double 2 2 (vector_base.mk 2 [3; -4]%float)
             (vector_base.mk 2 [99; 98]%float) (vector_base.mk 3 [7; 8; 9]%float)
             Hfin eq_refl zero_ell_double_zero Hvec).
  - apply (proj2 (proj2 (proj2 (proj2 (proj2 C5_zero_slots_skipped))))
             zero_hyb_double 2 2 (vector_base.mk 2 [3; -4]%float)
             (vector_base.mk 2 [99; 98]%float) (vector_base.mk 3 [7; 8; 9]%float)
             Hfin eq_refl zero_hyb_double_zero zero_hyb_double_csr_ok); [|exact Hvec].
    intros row i Hrow Hi. destruct row as [|[|row]]; cbn in Hi; try lia.
    assert (i = 0) as -> by lia. reflexivity.
  - apply (proj1 (proj2 (proj2 C5_zero_slots_skipped)) Z Z_Scalar
             zero_ell 2 2 (vector_base.mk 2 [3; 4]%Z) (vector_base.mk 2 [99; 98]%Z)
             (vector_base.mk 3 [7; 8; 9]%Z) eq_refl eq_refl).
    + intros i Hi. cbn in Hi. destruct i as [|[|i]]; [reflexivity | reflexivity | lia].
    + reflexivity.
    + intros row item Hrow Hitem. cbn in Hitem.
      destruct row as [|[|row]]; destruct item as [|[|item]]; try lia; reflexivity.
    + unfold vectors_ok. cbn. lia.
  - apply (proj1 (proj2 (proj2 (proj2 C5_zero_slots_skipped))) Z Z_Scalar
             zero_hyb 2 2 (vector_base.mk 2 [3; 4]%Z) (vector_base.mk 2 [99; 98]%Z)
             (vector_base.mk 3 [7; 8; 9]%Z) eq_refl eq_refl).
    + intros i Hi. cbn in Hi. destruct i as [|[|i]]; [reflexivity | reflexivity | lia].
    + reflexivity.
    + intros row item Hrow Hitem. cbn in Hitem.
      destruct row as [|[|row]]; destruct item as [|item]; try lia; reflexivity.
    + split; [cbn; lia|]. intros row i Hrow Hi.
      destruct row as [|[|row]]; cbn in Hi; try lia.
      assert (i = 0) as -> by lia. split; [cbn; lia|].
      exists 0. split; [reflexivity | lia].
    + intros row i Hrow Hi. destruct row as [|[|row]]; cbn in Hi; try lia.
      assert (i = 0) as -> by lia. reflexivity.
    + unfold vectors_ok. cbn. lia.
  - apply (proj1 C5_zero_slots_skipped Z Z_Scalar diag_ell [0; 1; 99]).
    intros offset. destruct offset as [|[|[|[|offset]]]]; cbn; intros Hval;
      try reflexivity; discriminate Hval.
Defined.







Lemma coo_dot_fold {T : Type} `{Scalar T} (A : coordinate_matrix.t T) (pb : list T)
    (row : nat) :
  dot_vp (coo_entries A row) pb tzero
  = fold_left (fun acc i =>
        if decide (geti (coordinate_matrix.handle12 A) (2 * i) = row)
        then tadd acc (tmul (get (coordinate_matrix.handle A) i)
                            (get pb (geti (coordinate_matrix.handle12 A) (2 * i + 1))))
        else acc)
      (seq 0 (coordinate_matrix.nnz A)) tzero.
Proof.
  unfold dot_vp, coo_entries. rewrite fold_left_flat_map. apply fold_left_ext_in.
  intros a i _. destruct (decide _); reflexivity.
Qed.

(** C7.  The coordinate kernel first sets every element of [Ap] to [0];
    then one pass over the [nnz] stored triples adds [value * p[col]] to
    [Ap[row]] for each triple; then a separate pass over the completed
    [Ap] computes both reductions.  So [Ap[row]] is the sum of
    [value * p[col]] over exactly the stored entries of that row, in
    storage order, and a row without stored entries ends at [0]. *)
Theorem C7_coordinate_phases :
  forall (T : Type) (S : Scalar T) (A : coordinate_matrix.t T) (M N : nat)
         (p Ap buf : vector_base.t T),
    matrix_ok (COO A) M N -> vectors_ok M N p Ap buf ->
    let pb := vector_base.handle p in
    let crd := coordinate_matrix.handle12 A in
    let row_sum := fun row =>
      fold_left (fun acc i =>
          if decide (geti crd (2 * i) = row)
          then tadd acc (tmul (get (coordinate_matrix.handle A) i)
                              (get pb (geti crd (2 * i + 1))))
          else acc)
        (seq 0 (coordinate_matrix.nnz A)) tzero in
    exists flushed scattered,
      for_range 0 (vector_base.size Ap) coo_flush_body (vector_base.handle Ap)
        = inr flushed /\
      (forall row, row < M -> flushed !! row = Some tzero) /\
      for_range 0 (coordinate_matrix.nnz A) (coo_scatter_body A pb) flushed
        = inr scattered /\
      (forall row, row < M -> scattered !! row = Some (row_sum row)) /\
      (forall row, row < M ->
         (forall i, i < coordinate_matrix.nnz A -> geti crd (2 * i) <> row) ->
         scattered !! row = Some tzero) /\
      for_range 0 (vector_base.size Ap) (coo_reduce_body scattered pb) (tzero, tzero)
        = inr (inner_prod scattered scattered M, inner_prod scattered pb M) /\
      pipelined_cg_prod (COO A) p Ap buf
        = inr (vector_base.mk M scattered,
               stored_inner_prods buf (inner_prod scattered scattered M)
                 (inner_prod scattered pb M)).
Proof.
  intros T S A M N p Ap buf Hok Hvec pb crd row_sum.
  pose proof Hvec as (HAp & HApl & Hp & Hpl & HpM & HB & Hbuf).
  assert (HA : coordinate_matrix.mk (coordinate_matrix.nnz A) (coordinate_matrix.handle A)
                 (coordinate_matrix.handle12 A) = A) by (destruct A; reflexivity).
  exists (tabulate (fun _ => tzero) M (vector_base.handle Ap)),
         (tabulate (fun row => dot_vp (coo_entries A row) pb tzero) M (vector_base.handle Ap)).
  rewrite HAp. split; [apply coo_flush_run, HApl|].
  split; [intros row Hrow; rewrite tabulate_lookup_lt by exact Hrow; reflexivity|].
  split.
  { rewrite (coo_scatter_prefix A pb M N) by (auto; lia). rewrite HA. reflexivity. }
  split.
  { intros row Hrow. rewrite tabulate_lookup_lt by exact Hrow.
    rewrite coo_dot_fold. reflexivity. }
  split.
  { intros row Hrow Hempty. rewrite tabulate_lookup_lt by exact Hrow.
    rewrite coo_dot_fold. f_equal. apply fold_left_id. intros a i Hi.
    apply in_seq in Hi. rewrite decide_False; [reflexivity | apply Hempty; lia]. }
  split; [apply coo_reduce_run; unfold pb; rewrite ?tabulate_length; lia|].
  apply (coo_run A M N); assumption.
Qed.

Lemma C7_coordinate_phases_witness :
  exists flushed scattered,
    for_range 0 3 coo_flush_body [99; 98; 97]%Z = inr flushed /\
    (forall row, row < 3 -> flushed !! row = Some 0%Z) /\
    for_range 0 3 (coo_scatter_body unordered_coo [3; 4; 1]%Z) flushed = inr scattered /\
    (forall row, row < 3 ->
       scattered !! row
       = Some (fold_left (fun acc i =>
                   if decide (geti [1; 0; 0; 1; 1; 1] (2 * i) = row)
                   then tadd acc (tmul (get [4; 2; 6]%Z i)
                                       (get [3; 4; 1]%Z (geti [1; 0; 0; 1; 1; 1] (2 * i + 1))))
                   else acc)
                 (seq 0 3) 0%Z)) /\
    (forall row, row < 3 ->
       (forall i, i < 3 -> geti [1; 0; 0; 1; 1; 1] (2 * i) <> row) ->
       scattered !! row = Some 0%Z) /\
    for_range 0 3 (coo_reduce_body scattered [3; 4; 1]%Z) (0%Z, 0%Z)
      = inr (inner_prod scattered scattered 3, inner_prod scattered [3; 4; 1]%Z 3) /\
    pipelined_cg_prod (COO unordered_coo) (vector_base.mk 3 [3; 4; 1]%Z)
      (vector_base.mk 3 [99; 98; 97]%Z) (vector_base.mk 3 [7; 8; 9]%Z)
      = inr (vector_base.mk 3 scattered,
             stored_inner_prods (vector_base.mk 3 [7; 8; 9]%Z)
               (inner_prod scattered scattered 3) (inner_prod scattered [3; 4; 1]%Z 3)).
Proof.
  apply (C7_coordinate_phases Z Z_Scalar unordered_coo 3 3 (vector_base.mk 3 [3; 4; 1]%Z)
           (vector_base.mk 3 [99; 98; 97]%Z) (vector_base.mk 3 [7; 8; 9]%Z)).
  - intros i Hi. cbn in Hi. destruct i as [|[|[|i]]]; [| | |lia].
    + split; [cbn; lia|]. exists 1, 0. cbn. repeat split; lia.
    + split; [cbn; lia|]. exists 0, 1. cbn. repeat split; lia.
    + split; [cbn; lia|]. exists 1, 1. cbn. repeat split; lia.
  - unfold vectors_ok. cbn. lia.
Defined.

(** C8.  For a reduction buffer of size [3 * B] with [B >= 1], whatever
    it holds: a run of the vector-update kernel changes the buffer at
    offset [0] only, so the contents at [B] and [2B] are as before; a
    run of any overload of the fused product changes the buffer at the
    offsets [B] and [2B] only, so the contents at offset [0] are as
    before.  On well-formed inputs both kernels do run to completion. *)
Theorem C8_reduction_buffer_frame :
  forall (T : Type) (S : Scalar T) (buf : vector_base.t T) (B : nat),
    vector_base.size buf = 3 * B -> 1 <= B ->
    (forall (result p r Ap result' p' r' buf' : vector_base.t T) (alpha beta : T),
       pipelined_cg_vector_update result alpha p r Ap beta buf = inr (result', p', r', buf') ->
       (forall j, j <> 0 -> vector_base.handle buf' !! j = vector_base.handle buf !! j) /\
       vector_base.handle buf' !! B = vector_base.handle buf !! B /\
       vector_base.handle buf' !! (2 * B) = vector_base.handle buf !! (2 * B))
    /\
    (forall (A : sparse_matrix T) (p Ap Ap' buf' : vector_base.t T),
       pipelined_cg_prod A p Ap buf = inr (Ap', buf') ->
       (forall j, j <> B -> j <> 2 * B ->
          vector_base.handle buf' !! j = vector_base.handle buf !! j) /\
       vector_base.handle buf' !! 0 = vector_base.handle buf !! 0)
    /\
    (forall (result p r Ap : vector_base.t T) (alpha beta : T),
       let N := vector_base.size result in
       N <= length (vector_base.handle result) -> N <= length (vector_base.handle p) ->
       N <= length (vector_base.handle r) -> N <= length (vector_base.handle Ap) ->
       0 < length (vector_base.handle buf) ->
       exists out, pipelined_cg_vector_update result alpha p r Ap beta buf = inr out)
    /\
    (forall (A : sparse_matrix T) (M N : nat) (p Ap : vector_base.t T),
       matrix_ok A M N -> vectors_ok M N p Ap buf ->
       exists out, pipelined_cg_prod A p Ap buf = inr out).
Proof.
  intros T S buf B Hsize HB. split; [|split; [|split]].
  - intros result p r Ap result' p' r' buf' alpha beta Hrun.
    apply vector_update_inr_buffer in Hrun as (x & Hlen & ->).
    cbn [vector_base.handle].
    assert (Hframe : forall j, j <> 0 ->
              <[0 := x]> (vector_base.handle buf) !! j = vector_base.handle buf !! j)
      by (intros j Hj; apply list_lookup_insert_ne; lia).
    split; [exact Hframe|]. split; apply Hframe; lia.
  - intros A p Ap Ap' buf' Hrun.
    apply prod_inr_buffer in Hrun as (a & b & Hlen & ->).
    assert (HB3 : vector_base.size buf / 3 = B)
      by (rewrite Hsize; symmetry; apply Nat.div_unique with 0; lia).
    unfold stored_inner_prods. rewrite HB3. cbn [vector_base.handle].
    assert (Hframe : forall j, j <> B -> j <> 2 * B ->
              <[2 * B := b]> (<[B := a]> (vector_base.handle buf)) !! j
              = vector_base.handle buf !! j)
      by (intros j Hj1 Hj2; rewrite !list_lookup_insert_ne by lia; reflexivity).
    split; [exact Hframe | apply Hframe; lia].
  - intros result p r Ap alpha beta N Hres Hp Hr HAp Hbuf. eexists.
    apply vector_update_run; assumption.
  - intros A M N p Ap Hok Hvec. eexists. apply (prod_run A M N); assumption.
Qed.

Lemma C8_reduction_buffer_frame_witness :
  ((forall j, j <> 0 -> [8; 8; 9]%Z !! j = [7; 8; 9]%Z !! j) /\
   [8; 8; 9]%Z !! 1 = [7; 8; 9]%Z !! 1 /\
   [8; 8; 9]%Z !! (2 * 1) = [7; 8; 9]%Z !! (2 * 1))
  /\
  ((forall j, j <> 1 -> j <> 2 * 1 -> [7; 225; 45]%Z !! j = [7; 8; 9]%Z !! j) /\
   [7; 225; 45]%Z !! 0 = [7; 8; 9]%Z !! 0).
Proof.
  pose proof (C8_reduction_buffer_frame Z Z_Scalar (vector_base.mk 3 [7; 8; 9]%Z) 1
                eq_refl (le_n 1)) as (Hupdate & Hprod & _).
  split.
  - apply (Hupdate (vector_base.mk 2 [1; 2]%Z) (vector_base.mk 2 [1; 1]%Z)
             (vector_base.mk 2 [2; 2]%Z) (vector_base.mk 2 [0; 0]%Z)
             (vector_base.mk 2 [2; 3]%Z) (vector_base.mk 2 [2; 2]%Z)
             (vector_base.mk 2 [2; 2]%Z) (vector_base.mk 3 [8; 8; 9]%Z) 1%Z 0%Z).
    reflexivity.
  - apply (Hprod one_by_one_coo (vector_base.mk 1 [3%Z]) (vector_base.mk 1 [0%Z])
             (vector_base.mk 1 [15%Z]) (vector_base.mk 3 [7; 225; 45]%Z)).
    reflexivity.
Defined.

(** C9, as stated, fails for [block_start]: the row count [2] of
    [multiple_sell] is a multiple of its [rows_per_block = 2], its
    [block_start] has no entry at the block index [2 / 2 = 1], and the
    kernel runs to completion, which it could not do had it read that
    entry. *)
Lemma C9_extra_block_counterexample :
  sliced_ell_matrix.size1 multiple_sell mod sliced_ell_matrix.rows_per_block multiple_sell = 0
  /\
  sliced_ell_matrix.handle3 multiple_sell
    !! (sliced_ell_matrix.size1 multiple_sell / sliced_ell_matrix.rows_per_block multiple_sell)
  = None
  /\
  pipelined_cg_prod (SELL multiple_sell) (vector_base.mk 2 [3; 4]%Z)
    (vector_base.mk 2 [99; 98]%Z) (vector_base.mk 3 [7; 8; 9]%Z)
  = inr (vector_base.mk 2 [15; 28]%Z, vector_base.mk 3 [7; 1009; 157]%Z).
Proof. split; [|split]; reflexivity. Qed.

(** C9, amended.  The sliced ELL kernel runs [size1 / rows_per_block + 1]
    blocks.  When the row count [M] is a multiple of [rows_per_block],
    a completed run has read the entry of [columns_per_block] at the
    block index [M / rows_per_block], one past the last block with real
    rows, and the entry of [block_start] at that index if that block has
    a nonzero number of columns; if it has none, [block_start] is not
    used at that index.  No row of that block passes the guard
    [row < Ap.size()], so [Ap] and both reductions are those reached
    after the first [M / rows_per_block] blocks. *)
Theorem C9_extra_block :
  forall (T : Type) (S : Scalar T) (A : sliced_ell_matrix.t T) (p Ap buf : vector_base.t T),
    let M := sliced_ell_matrix.size1 A in
    let rpb := sliced_ell_matrix.rows_per_block A in
    M mod rpb = 0 -> vector_base.size Ap = M ->
    (forall Ap' buf',
       pipelined_cg_prod (SELL A) p Ap buf = inr (Ap', buf') ->
       exists cols rv rv' Apb a b,
         sliced_ell_matrix.handle1 A !! (M / rpb) = Some cols /\
         (0 < cols -> is_Some (sliced_ell_matrix.handle3 A !! (M / rpb))) /\
         sell_blocks A (vector_base.handle p) M (M / rpb) (vector_base.handle Ap)
           = inr (rv, (Apb, a, b)) /\
         sell_blocks A (vector_base.handle p) M (M / rpb + 1) (vector_base.handle Ap)
           = inr (rv', (Apb, a, b)) /\
         Ap' = vector_base.mk M Apb /\ buf' = stored_inner_prods buf a b)
    /\
    (forall bs' : list nat,
       sliced_ell_matrix.handle1 A !! (M / rpb) = Some 0 ->
       (forall k, k < M / rpb -> bs' !! k = sliced_ell_matrix.handle3 A !! k) ->
       pipelined_cg_prod
         (SELL (sliced_ell_matrix.mk M rpb (sliced_ell_matrix.handle A)
                  (sliced_ell_matrix.handle1 A) (sliced_ell_matrix.handle2 A) bs'))
         p Ap buf
       = pipelined_cg_prod (SELL A) p Ap buf).
Proof.
  intros T S A p Ap buf M rpb Hmod HAp. split.
  - intros Ap' buf' Hrun. cbn [pipelined_cg_prod] in Hrun.
    unfold pipelined_cg_prod_sliced_ell_matrix in Hrun. fold rpb M in Hrun.
    destruct (decide (rpb = 0)) as [Hz|Hnz]; [discriminate Hrun|].
    cbn [bind ret] in Hrun. rewrite HAp in Hrun.
    apply bind_inr in Hrun as ([rv' [[Apb a] b]] & Hblocks & Hrun).
    apply bind_inr in Hrun as (buf1 & Hst & Hrun).
    apply store_inner_prods_inr in Hst as [_ ->]. injection Hrun as <- <-.
    pose proof Hblocks as Hall. unfold sell_blocks, for_range in Hblocks.
    rewrite Nat.sub_0_r, for_loop_app in Hblocks.
    apply bind_inr in Hblocks as ([rv out] & Hfirst & Hlast).
    cbn [for_loop Nat.add] in Hlast.
    apply bind_inr in Hlast as (s' & Hbody & Hret). injection Hret as ->.
    apply sell_block_inr in Hbody as (cols & Hcols & Hbs & Hout).
    assert (Hfull : M <= M / rpb * sliced_ell_matrix.rows_per_block A).
    { fold rpb. pose proof (Nat.div_mod_eq M rpb). lia. }
    specialize (Hout Hfull). subst out.
    exists cols, rv, rv', Apb, a, b. repeat split; try assumption.
    unfold sell_blocks, for_range. rewrite Nat.sub_0_r. exact Hfirst.
  - intros bs' Hzero Hsame. cbn [pipelined_cg_prod].
    unfold pipelined_cg_prod_sliced_ell_matrix.
    cbn [sliced_ell_matrix.rows_per_block sliced_ell_matrix.size1]. fold rpb M.
    destruct (decide (rpb = 0)) as [Hz|Hnz]; [reflexivity|]. cbn [bind ret].
    unfold sell_blocks, for_range. cbn [sliced_ell_matrix.rows_per_block].
    rewrite (for_loop_ext _ (sell_block_body A (vector_base.handle p) (vector_base.size Ap)));
      [reflexivity|].
    intros k s Hk. apply sell_block_body_block_start.
    destruct (decide (k = M / rpb)) as [->|Hne]; [left; exact Hzero|].
    right. apply Hsame. lia.
Qed.

Lemma C9_extra_block_witness :
  exists cols rv rv' Apb a b,
    [1; 0] !! (2 / 2) = Some cols /\
    (0 < cols -> is_Some ([0] !! (2 / 2))) /\
    sell_blocks multiple_sell [3; 4]%Z 2 (2 / 2) [99; 98]%Z = inr (rv, (Apb, a, b)) /\
    sell_blocks multiple_sell [3; 4]%Z 2 (2 / 2 + 1) [99; 98]%Z = inr (rv', (Apb, a, b)) /\
    vector_base.mk 2 [15; 28]%Z = vector_base.mk 2 Apb /\
    vector_base.mk 3 [7; 1009; 157]%Z
    = stored_inner_prods (vector_base.mk 3 [7; 8; 9]%Z) a b.
Proof.
  apply (proj1 (C9_extra_block Z Z_Scalar multiple_sell (vector_base.mk 2 [3; 4]%Z)
                  (vector_base.mk 2 [99; 98]%Z) (vector_base.mk 3 [7; 8; 9]%Z)
                  eq_refl eq_refl)
           (vector_base.mk 2 [15; 28]%Z) (vector_base.mk 3 [7; 1009; 157]%Z)).
  reflexivity.
Defined.

(** C10.  The vector-update kernel takes its loop bound from the size of
    [result] alone.  It runs to completion exactly when the first
    [size(result)] elements of [result], [p], [r] and [Ap] and slot [0]
    of the reduction buffer exist; the sizes of [p], [r], [Ap] and of the
    reduction buffer have no influence on the run; and when the sizes
    differ, the elements below [size(result)] of [result], [p] and [r]
    are updated from the elements at the same index, the elements from
    [size(result)] on are left as they were, and the reduction is the sum
    over the indices below [size(result)]. *)
Theorem C10_update_loop_bound :
  forall (T : Type) (S : Scalar T) (result p r Ap buf : vector_base.t T) (alpha beta : T),
    let N := vector_base.size result in
    ((exists out, pipelined_cg_vector_update result alpha p r Ap beta buf = inr out)
     <-> N <= length (vector_base.handle result) /\ N <= length (vector_base.handle p) /\
         N <= length (vector_base.handle r) /\ N <= length (vector_base.handle Ap) /\
         0 < length (vector_base.handle buf))
    /\
    (forall sp sr sA sb : nat,
       sum_map id handles_of
         (pipelined_cg_vector_update result alpha
            (vector_base.mk sp (vector_base.handle p))
            (vector_base.mk sr (vector_base.handle r))
            (vector_base.mk sA (vector_base.handle Ap)) beta
            (vector_base.mk sb (vector_base.handle buf)))
       = sum_map id handles_of (pipelined_cg_vector_update result alpha p r Ap beta buf))
    /\
    (forall result' p' r' buf',
       pipelined_cg_vector_update result alpha p r Ap beta buf = inr (result', p', r', buf') ->
       (forall i, i < N ->
          let new_r := tsub (get (vector_base.handle r) i)
                            (tmul alpha (get (vector_base.handle Ap) i)) in
          vector_base.handle result' !! i
            = Some (tadd (get (vector_base.handle result) i)
                         (tmul alpha (get (vector_base.handle p) i))) /\
          vector_base.handle r' !! i = Some new_r /\
          vector_base.handle p' !! i
            = Some (tadd new_r (tmul beta (get (vector_base.handle p) i)))) /\
       (forall j, N <= j ->
          vector_base.handle result' !! j = vector_base.handle result !! j /\
          vector_base.handle r' !! j = vector_base.handle r !! j /\
          vector_base.handle p' !! j = vector_base.handle p !! j) /\
       vector_base.handle buf'
         = <[0 := tsum (fun i =>
                    let new_r := tsub (get (vector_base.handle r) i)
                                      (tmul alpha (get (vector_base.handle Ap) i)) in
                    tmul new_r new_r) N]> (vector_base.handle buf)).
Proof.
  intros T S result p r Ap buf alpha beta N. split; [|split].
  - split.
    + intros [out Hrun]. apply (vector_update_inr_lengths _ _ _ _ _ _ _ _ Hrun).
    + intros (Hres & Hp & Hr & HAp & Hbuf). eexists. apply vector_update_run; assumption.
  - intros sp sr sA sb. apply vector_update_sizes_unused.
  - intros result' p' r' buf' Hrun.
    pose proof (vector_update_inr_lengths _ _ _ _ _ _ _ _ Hrun)
      as (Hres & Hp & Hr & HAp & Hbuf).
    rewrite vector_update_run in Hrun by assumption. injection Hrun as <- <- <- <-.
    cbn [vector_base.handle]. fold N. split; [|split].
    + intros i Hi. rewrite !tabulate_lookup_lt by exact Hi. auto.
    + intros j Hj. rewrite !tabulate_lookup_ge by exact Hj. auto.
    + reflexivity.
Qed.

Lemma C10_update_loop_bound_witness :
  (forall i, i < 2 ->
     let new_r := tsub (get [2; 2]%Z i) (tmul 1%Z (get [0; 0; 70]%Z i)) in
     [2; 3; 50]%Z !! i = Some (tadd (get [1; 2; 50]%Z i) (tmul 1%Z (get [1; 1; 60; 61]%Z i))) /\
     [2; 2]%Z !! i = Some new_r /\
     [2; 2; 60; 61]%Z !! i = Some (tadd new_r (tmul 0%Z (get [1; 1; 60; 61]%Z i)))) /\
  (forall j, 2 <= j ->
     [2; 3; 50]%Z !! j = [1; 2; 50]%Z !! j /\
     [2; 2]%Z !! j = [2; 2]%Z !! j /\
     [2; 2; 60; 61]%Z !! j = [1; 1; 60; 61]%Z !! j) /\
  [8%Z]
  = <[0 := tsum (fun i =>
             let new_r := tsub (get [2; 2]%Z i) (tmul 1%Z (get [0; 0; 70]%Z i)) in
             tmul new_r new_r) 2]> [7%Z].
Proof.
  apply (proj2 (proj2 (C10_update_loop_bound Z Z_Scalar
           (vector_base.mk 2 [1; 2; 50]%Z) (vector_base.mk 7 [1; 1; 60; 61]%Z)
           (vector_base.mk 0 [2; 2]%Z) (vector_base.mk 1 [0; 0; 70]%Z)
           (vector_base.mk 0 [7%Z]) 1%Z 0%Z))
           (vector_base.mk 2 [2; 3; 50]%Z) (vector_base.mk 7 [2; 2; 60; 61]%Z)
           (vector_base.mk 0 [2; 2]%Z) (vector_base.mk 0 [8%Z])).
  reflexivity.
Defined.

(** ** Further properties of the kernels *)

Section Overwrite.
Context {T : Type} `{Scalar T}.

Lemma inner_prod_ext (x x' y y' : list T) (n : nat) :
  (forall i, i < n -> get x i = get x' i) -> (forall i, i < n -> get y i = get y' i) ->
  inner_prod x y n = inner_prod x' y' n.
Proof.
  intros Hx Hy. unfold inner_prod. apply tsum_ext. intros i Hi.
  rewrite (Hx i Hi), (Hy i Hi). reflexivity.
Qed.

Lemma kernel_pAp_ext (A : sparse_matrix T) (pb Apb Apb' : list T) (M : nat) :
  (forall i, i < M -> get Apb i = get Apb' i) ->
  kernel_pAp A pb Apb M = kernel_pAp A pb Apb' M.
Proof.
  intros HAp. destruct A; cbn [kernel_pAp]; apply inner_prod_ext; auto.
Qed.

End Overwrite.

(** X1.  Every overload of the fused product overwrites [Ap]: called
    with two different [Ap] vectors of the same size, it returns the
    same first [M] elements and the same reduction buffer, and it leaves
    each allocation as it was from index [M] on.  (No law of arithmetic
    is assumed.) *)
Theorem X1_prod_overwrites_Ap :
  forall (T : Type) (S : Scalar T) (A : sparse_matrix T) (M N : nat)
         (p Ap1 Ap2 buf : vector_base.t T),
    matrix_ok A M N -> buffers_ok M N p Ap1 buf -> buffers_ok M N p Ap2 buf ->
    exists Ap1' Ap2' buf',
      pipelined_cg_prod A p Ap1 buf = inr (Ap1', buf') /\
      pipelined_cg_prod A p Ap2 buf = inr (Ap2', buf') /\
      (forall row, row < M ->
         vector_base.handle Ap1' !! row = vector_base.handle Ap2' !! row) /\
      (forall j, M <= j ->
         vector_base.handle Ap1' !! j = vector_base.handle Ap1 !! j /\
         vector_base.handle Ap2' !! j = vector_base.handle Ap2 !! j).
Proof.
  intros T S A M N p Ap1 Ap2 buf Hok H1 H2.
  pose proof (prod_run_buffers A M N p Ap1 buf Hok H1) as Hrun1.
  pose proof (prod_run_buffers A M N p Ap2 buf Hok H2) as Hrun2.
  cbv zeta in Hrun1, Hrun2.
  assert (Hsame : forall i, i < M ->
    get (tabulate (kernel_row A (vector_base.handle p)) M (vector_base.handle Ap1)) i
    = get (tabulate (kernel_row A (vector_base.handle p)) M (vector_base.handle Ap2)) i).
  { intros i Hi. rewrite !tabulate_get_lt by exact Hi. reflexivity. }
  do 3 eexists. split; [exact Hrun1|]. split.
  - rewrite Hrun2. f_equal. f_equal. f_equal.
    + apply inner_prod_ext; intros i Hi; symmetry; apply Hsame, Hi.
    + apply kernel_pAp_ext. intros i Hi. symmetry. apply Hsame, Hi.
  - cbn [vector_base.handle]. split.
    + intros row Hrow. rewrite !tabulate_lookup_lt by exact Hrow. reflexivity.
    + intros j Hj. rewrite !tabulate_lookup_ge by exact Hj. auto.
Qed.

Lemma X1_prod_overwrites_Ap_witness :
  exists Ap1' Ap2' buf',
    pipelined_cg_prod one_by_one_coo (vector_base.mk 1 [3%Z])
      (vector_base.mk 1 [99; 98]%Z) (vector_base.mk 3 [7; 8; 9]%Z) = inr (Ap1', buf') /\
    pipelined_cg_prod one_by_one_coo (vector_base.mk 1 [3%Z])
      (vector_base.mk 1 [-4; 6; 2]%Z) (vector_base.mk 3 [7; 8; 9]%Z) = inr (Ap2', buf') /\
    (forall row, row < 1 ->
       vector_base.handle Ap1' !! row = vector_base.handle Ap2' !! row) /\
    (forall j, 1 <= j ->
       vector_base.handle Ap1' !! j = [99; 98]%Z !! j /\
       vector_base.handle Ap2' !! j = [-4; 6; 2]%Z !! j).
Proof.
  apply (X1_prod_overwrites_Ap Z Z_Scalar one_by_one_coo 1 1 (vector_base.mk 1 [3%Z])
           (vector_base.mk 1 [99; 98]%Z) (vector_base.mk 1 [-4; 6; 2]%Z)
           (vector_base.mk 3 [7; 8; 9]%Z)).
  - intros i Hi. cbn in Hi. assert (i = 0) as -> by lia.
    split; [cbn; lia|]. exists 0, 0. cbn. repeat split; lia.
  - unfold buffers_ok. cbn. lia.
  - unfold buffers_ok. cbn. lia.
Defined.

(** X2.  One iteration of the solver on a shared reduction buffer: a
    vector update followed by a fused product with the updated [p]
    leaves all three partial sums in the buffer at once, [(r,r)] of the
    updated [r] at offset [0], [(Ap,Ap)] at [B] and [(p,Ap)] at [2B];
    the product does not disturb what the update stored. *)
Theorem X2_update_then_prod :
  forall (T : Type) (S : Scalar T) (A : sparse_matrix T) (M N : nat)
         (result p r Ap buf : vector_base.t T) (alpha beta : T),
    (forall x y : T, tmul x y = tmul y x) ->
    matrix_ok A M N -> vectors_ok M N p Ap buf ->
    vector_base.size result = M ->
    M <= length (vector_base.handle result) -> M <= length (vector_base.handle r) ->
    let B := vector_base.size buf / 3 in
    exists result' p' r' buf1 Ap' buf2,
      pipelined_cg_vector_update result alpha p r Ap beta buf
        = inr (result', p', r', buf1) /\
      pipelined_cg_prod A p' Ap buf1 = inr (Ap', buf2) /\
      vector_base.handle buf2 !! 0
        = Some (inner_prod (vector_base.handle r') (vector_base.handle r') M) /\
      vector_base.handle buf2 !! B
        = Some (inner_prod (vector_base.handle Ap') (vector_base.handle Ap') M) /\
      vector_base.handle buf2 !! (2 * B)
        = Some (inner_prod (vector_base.handle p') (vector_base.handle Ap') M).
Proof.
  intros T S A M N result p r Ap buf alpha beta Hcomm Hok Hvec Hsize Hres Hr B.
  pose proof Hvec as (HAp & HApl & Hp & Hpl & HpM & HB & Hbuf).
  pose proof (vector_update_run result alpha p r Ap beta buf) as Hup.
  cbv zeta in Hup. rewrite Hsize in Hup.
  specialize (Hup Hres HpM Hr HApl ltac:(lia)).
  set (p' := vector_base.mk (vector_base.size p)
               (tabulate (new_p alpha beta (vector_base.handle p) (vector_base.handle r)
                            (vector_base.handle Ap)) M (vector_base.handle p))) in *.
  set (r' := vector_base.mk (vector_base.size r)
               (tabulate (new_r alpha (vector_base.handle r) (vector_base.handle Ap)) M
                  (vector_base.handle r))) in *.
  set (buf1 := vector_base.mk (vector_base.size buf)
                 (<[0 := tsum (fun i =>
                            tmul (new_r alpha (vector_base.handle r) (vector_base.handle Ap) i)
                                 (new_r alpha (vector_base.handle r) (vector_base.handle Ap) i))
                          M]> (vector_base.handle buf))) in *.
  assert (Hvec1 : vectors_ok M N p' Ap buf1).
  { unfold vectors_ok, p', buf1. cbn [vector_base.handle vector_base.size].
    rewrite tabulate_length by exact HpM. rewrite length_insert. repeat split; assumption. }
  destruct (prod_reductions Hcomm A M N p' Ap buf1 Hok Hvec1)
    as (Ap' & buf2 & Hrun & _ & H1 & H2 & Hframe).
  eexists. exists p', r', buf1, Ap', buf2. split; [exact Hup|]. split; [exact Hrun|].
  split; [|split; [exact H1 | exact H2]].
  rewrite Hframe by (unfold buf1; cbn [vector_base.size]; lia).
  unfold buf1, r'. cbn [vector_base.handle].
  rewrite list_lookup_insert_eq by lia. rewrite inner_prod_tabulate_sq. reflexivity.
Qed.

Lemma X2_update_then_prod_witness :
  exists result' p' r' buf1 Ap' buf2,
    pipelined_cg_vector_update (vector_base.mk 2 [1; 2]%Z) 1%Z (vector_base.mk 2 [1; 1]%Z)
      (vector_base.mk 2 [2; 2]%Z) (vector_base.mk 2 [0; 0]%Z) 0%Z
      (vector_base.mk 3 [7; 8; 9]%Z)
      = inr (result', p', r', buf1) /\
    pipelined_cg_prod (ELL diag_ell) p' (vector_base.mk 2 [0; 0]%Z) buf1 = inr (Ap', buf2) /\
    vector_base.handle buf2 !! 0
      = Some (inner_prod (vector_base.handle r') (vector_base.handle r') 2) /\
    vector_base.handle buf2 !! 1
      = Some (inner_prod (vector_base.handle Ap') (vector_base.handle Ap') 2) /\
    vector_base.handle buf2 !! 2
      = Some (inner_prod (vector_base.handle p') (vector_base.handle Ap') 2).
Proof.
  apply (X2_update_then_prod Z Z_Scalar (ELL diag_ell) 2 2
           (vector_base.mk 2 [1; 2]%Z) (vector_base.mk 2 [1; 1]%Z)
           (vector_base.mk 2 [2; 2]%Z) (vector_base.mk 2 [0; 0]%Z)
           (vector_base.mk 3 [7; 8; 9]%Z) 1%Z 0%Z Z.mul_comm).
  - split; [reflexivity|]. intros row item Hrow Hitem. cbn in Hitem.
    destruct row as [|[|row]]; destruct item as [|[|item]]; try lia;
      (split; [cbn; lia|]); cbn; intros Hval; try discriminate Hval.
    + exists 0. split; [reflexivity | lia].
    + exists 1. split; [reflexivity | lia].
  - unfold vectors_ok. cbn. lia.
  - reflexivity.
  - cbn. lia.
  - cbn. lia.
Defined.

(** X3.  A hybrid matrix whose overflow part is empty in every row
    ([csr_row_buffer[row + 1] <= csr_row_buffer[row]]) is handled exactly
    as the ELL matrix made of its ELL part: the two kernels return the
    same result, or stop at the same fault. *)
Theorem X3_hyb_without_overflow :
  forall (T : Type) (S : Scalar T) (A : hyb_matrix.t T) (p Ap buf : vector_base.t T),
    (forall row, row < hyb_matrix.size1 A ->
       exists col_begin col_end,
         hyb_matrix.handle3 A !! row = Some col_begin /\
         hyb_matrix.handle3 A !! (row + 1) = Some col_end /\
         col_end <= col_begin) ->
    pipelined_cg_prod (HYB A) p Ap buf
    = pipelined_cg_prod
        (ELL (ell_matrix.mk (hyb_matrix.size1 A) (hyb_matrix.internal_size1 A)
                (hyb_matrix.internal_ellnnz A) (hyb_matrix.handle A) (hyb_matrix.handle2 A)))
        p Ap buf.
Proof.
  intros T S A p Ap buf Hempty. cbn [pipelined_cg_prod].
  unfold pipelined_cg_prod_hyb_matrix, pipelined_cg_prod_ell_matrix, for_range.
  cbn [ell_matrix.size1].
  rewrite (for_loop_ext _
    (ell_row_body (ell_matrix.mk (hyb_matrix.size1 A) (hyb_matrix.internal_size1 A)
                     (hyb_matrix.internal_ellnnz A) (hyb_matrix.handle A)
                     (hyb_matrix.handle2 A)) (vector_base.handle p))); [reflexivity|].
  intros row [[Apb a] b] Hrow. unfold hyb_row_body, ell_row_body.
  cbn [ell_matrix.internal_maxnnz ell_matrix.handle ell_matrix.handle2
       ell_matrix.internal_size1].
  destruct (read p_buf (vector_base.handle p) row) as [e|v]; cbn [bind]; [reflexivity|].
  destruct (for_range 0 (hyb_matrix.internal_ellnnz A) _ tzero) as [e|sum]; cbn [bind];
    [reflexivity|].
  destruct (Hempty row ltac:(lia)) as (cb & ce & Hcb & Hce & Hle).
  rewrite (read_ok _ _ _ _ Hcb), (read_ok _ _ _ _ Hce). cbn [bind].
  unfold for_range at 1. replace (ce - cb) with 0 by lia. reflexivity.
Qed.

Lemma X3_hyb_without_overflow_witness :
  pipelined_cg_prod (HYB (hyb_matrix.mk 2 2 2 [5; 7; 0; 0]%Z [0; 1; 0; 0] [0; 0; 0] [] []))
    (vector_base.mk 2 [3; 4]%Z) (vector_base.mk 2 [99; 98]%Z) (vector_base.mk 3 [7; 8; 9]%Z)
  = pipelined_cg_prod (ELL diag_ell)
      (vector_base.mk 2 [3; 4]%Z) (vector_base.mk 2 [99; 98]%Z) (vector_base.mk 3 [7; 8; 9]%Z).
Proof.
  apply (X3_hyb_without_overflow Z Z_Scalar
           (hyb_matrix.mk 2 2 2 [5; 7; 0; 0]%Z [0; 1; 0; 0] [0; 0; 0] [] [])).
  intros row Hrow. cbn in Hrow. exists 0, 0.
  destruct row as [|[|row]]; [| |lia]; cbn; repeat split; lia.
Defined.

Section Completed.
Context {T : Type} `{Scalar T}.

Lemma for_loop_completed_ext {S : Type} (body body' : nat -> S -> run S) (n lo : nat) (s : S) :
  (forall i s, lo <= i < lo + n -> completed (body i s) = completed (body' i s)) ->
  completed (for_loop n lo body s) = completed (for_loop n lo body' s).
Proof.
  revert lo s. induction n as [|n IH]; intros lo s Hb; [reflexivity|]. cbn [for_loop].
  specialize (Hb lo s ltac:(lia)) as Hhead.
  destruct (body lo s) as [e|s1], (body' lo s) as [e'|s1']; cbn [completed bind] in *;
    try discriminate; [reflexivity|].
  injection Hhead as <-. apply IH. intros i s2 Hi. apply Hb. lia.
Qed.

Lemma hyb_csr_body_completed (A : hyb_matrix.t T) (pb : list T) (i : nat) (acc : T) :
  (forall x y : T, tmul x y = tmul y x) ->
  completed (hyb_csr_body A pb i acc)
  = completed (csr_entry_body (hyb_matrix.handle5 A) (hyb_matrix.handle4 A) pb i acc).
Proof.
  intros Hcomm. unfold hyb_csr_body, csr_entry_body, read.
  destruct (hyb_matrix.handle4 A !! i) as [c|], (hyb_matrix.handle5 A !! i) as [e|];
    cbn [bind ret completed]; try reflexivity.
  - destruct (pb !! c) as [pv|]; cbn [bind ret completed]; [|reflexivity].
    rewrite Hcomm. reflexivity.
  - destruct (pb !! c) as [pv|]; reflexivity.
Qed.

Lemma hyb_row_body_completed (A : hyb_matrix.t T) (pb : list T) (row : nat)
    (s : list T * T * T) :
  (forall x y : T, tmul x y = tmul y x) ->
  hyb_matrix.internal_ellnnz A = 0 ->
  completed (hyb_row_body A pb row s)
  = completed (csr_row_body
                 (compressed_matrix.mk (hyb_matrix.size1 A) (hyb_matrix.handle5 A)
                    (hyb_matrix.handle3 A) (hyb_matrix.handle4 A)) pb row s).
Proof.
  intros Hcomm Hzero. destruct s as [[Apb a] b]. unfold hyb_row_body, csr_row_body.
  cbn [compressed_matrix.handle compressed_matrix.handle1 compressed_matrix.handle2].
  rewrite Hzero. unfold for_range at 1. cbn [Nat.sub for_loop ret].
  unfold read.
  destruct (pb !! row) as [v|]; cbn [bind ret completed]; [|reflexivity].
  destruct (hyb_matrix.handle3 A !! row) as [cb|],
           (hyb_matrix.handle3 A !! (row + 1)) as [ce|];
    cbn [bind ret completed]; try reflexivity.
  unfold for_range.
  pose proof (for_loop_completed_ext (hyb_csr_body A pb)
    (csr_entry_body (hyb_matrix.handle5 A) (hyb_matrix.handle4 A) pb)
    (ce - cb) cb tzero
    (fun i acc _ => hyb_csr_body_completed A pb i acc Hcomm)) as Hloop.
  destruct (for_loop (ce - cb) cb (hyb_csr_body A pb) tzero) as [e|sum],
           (for_loop (ce - cb) cb (csr_entry_body _ _ pb) tzero) as [e'|sum'];
    cbn [completed bind] in *; try discriminate; [reflexivity|].
  injection Hloop as <-. reflexivity.
Qed.

End Completed.

(** X4.  A hybrid matrix without ELL columns ([internal_ellnnz = 0]) is
    handled as the compressed matrix made of its overflow part: the
    hybrid kernel runs to completion exactly when the compressed-matrix
    kernel does, and then both return the same [Ap] and reduction
    buffer.  The two multiply in opposite orders ([p * value] against
    [value * p]), so the multiplication is assumed to commute. *)
Theorem X4_hyb_without_ell :
  forall (T : Type) (S : Scalar T) (A : hyb_matrix.t T) (p Ap buf : vector_base.t T),
    (forall x y : T, tmul x y = tmul y x) ->
    hyb_matrix.internal_ellnnz A = 0 ->
    completed (pipelined_cg_prod (HYB A) p Ap buf)
    = completed (pipelined_cg_prod
                   (CSR (compressed_matrix.mk (hyb_matrix.size1 A) (hyb_matrix.handle5 A)
                           (hyb_matrix.handle3 A) (hyb_matrix.handle4 A))) p Ap buf).
Proof.
  intros T S A p Ap buf Hcomm Hzero. cbn [pipelined_cg_prod].
  unfold pipelined_cg_prod_hyb_matrix, pipelined_cg_prod_compressed_matrix, for_range.
  cbn [compressed_matrix.size1].
  pose proof (for_loop_completed_ext
    (hyb_row_body A (vector_base.handle p))
    (csr_row_body (compressed_matrix.mk (hyb_matrix.size1 A) (hyb_matrix.handle5 A)
                     (hyb_matrix.handle3 A) (hyb_matrix.handle4 A)) (vector_base.handle p))
    (hyb_matrix.size1 A - 0) 0 (vector_base.handle Ap, tzero, tzero)) as Hloop.
  specialize (Hloop (fun row s _ =>
    hyb_row_body_completed A (vector_base.handle p) row s Hcomm Hzero)).
  destruct (for_loop _ 0 (hyb_row_body A (vector_base.handle p)) _) as [e|s1],
           (for_loop _ 0 (csr_row_body _ (vector_base.handle p)) _) as [e'|s1'];
    cbn [completed bind] in *; try discriminate; [reflexivity|].
  injection Hloop as <-. reflexivity.
Qed.

Lemma X4_hyb_without_ell_witness :
  completed (pipelined_cg_prod
               (HYB (hyb_matrix.mk 2 2 0 [] [] [0; 1; 2] [0; 1] [5; 7]%Z))
               (vector_base.mk 2 [3; 4]%Z) (vector_base.mk 2 [99; 98]%Z)
               (vector_base.mk 3 [7; 8; 9]%Z))
  = completed (pipelined_cg_prod
                 (CSR (compressed_matrix.mk 2 [5; 7]%Z [0; 1; 2] [0; 1]))
                 (vector_base.mk 2 [3; 4]%Z) (vector_base.mk 2 [99; 98]%Z)
                 (vector_base.mk 3 [7; 8; 9]%Z)).
Proof.
  apply (X4_hyb_without_ell Z Z_Scalar (hyb_matrix.mk 2 2 0 [] [] [0; 1; 2] [0; 1] [5; 7]%Z)
           (vector_base.mk 2 [3; 4]%Z) (vector_base.mk 2 [99; 98]%Z)
           (vector_base.mk 3 [7; 8; 9]%Z) Z.mul_comm eq_refl).
Defined.

Section SlicedEmptySlots.
Context {T : Type} `{Scalar T}.

Lemma sell_slot_body_coords (A : sliced_ell_matrix.t T) (ci' : list nat) (pb : list T)
    (stride_start row_in_block : nat) (rv : list T) :
  (forall offset, truthy (get (sliced_ell_matrix.handle A) offset) = true ->
     ci' !! offset = sliced_ell_matrix.handle2 A !! offset) ->
  sell_slot_body
    (sliced_ell_matrix.mk (sliced_ell_matrix.size1 A) (sliced_ell_matrix.rows_per_block A)
       (sliced_ell_matrix.handle A) (sliced_ell_matrix.handle1 A) ci'
       (sliced_ell_matrix.handle3 A)) pb stride_start row_in_block rv
  = sell_slot_body A pb stride_start row_in_block rv.
Proof.
  intros Hci. unfold sell_slot_body.
  cbn [sliced_ell_matrix.handle sliced_ell_matrix.handle2].
  destruct (sliced_ell_matrix.handle A !! (stride_start + row_in_block)) as [val|] eqn:Hval.
  - rewrite (read_ok _ _ _ _ Hval). cbn [bind].
    destruct (read result_values rv row_in_block) as [e|old]; cbn [bind]; [reflexivity|].
    destruct (truthy val) eqn:Htruthy; [|reflexivity].
    unfold read at 1 3. rewrite Hci; [reflexivity|].
    rewrite (get_lookup _ _ _ Hval). exact Htruthy.
  - unfold read at 1 5. rewrite Hval. reflexivity.
Qed.

Lemma sell_coords_irrelevant (A : sliced_ell_matrix.t T) (ci' : list nat)
    (p Ap buf : vector_base.t T) :
  (forall offset, truthy (get (sliced_ell_matrix.handle A) offset) = true ->
     ci' !! offset = sliced_ell_matrix.handle2 A !! offset) ->
  pipelined_cg_prod_sliced_ell_matrix
    (sliced_ell_matrix.mk (sliced_ell_matrix.size1 A) (sliced_ell_matrix.rows_per_block A)
       (sliced_ell_matrix.handle A) (sliced_ell_matrix.handle1 A) ci'
       (sliced_ell_matrix.handle3 A)) p Ap buf
  = pipelined_cg_prod_sliced_ell_matrix A p Ap buf.
Proof.
  intros Hci. unfold pipelined_cg_prod_sliced_ell_matrix.
  cbn [sliced_ell_matrix.rows_per_block sliced_ell_matrix.size1].
  destruct (decide (sliced_ell_matrix.rows_per_block A = 0)); [reflexivity|]. cbn [bind ret].
  unfold sell_blocks, for_range. cbn [sliced_ell_matrix.rows_per_block].
  rewrite (for_loop_ext _ (sell_block_body A (vector_base.handle p) (vector_base.size Ap)));
    [reflexivity|].
  intros block [rv out] _. unfold sell_block_body.
  cbn [sliced_ell_matrix.handle1 sliced_ell_matrix.rows_per_block].
  destruct (read columns_per_block (sliced_ell_matrix.handle1 A) block) as [e|cols];
    cbn [bind]; [reflexivity|].
  destruct (for_range 0 (length rv) sell_clear_body rv) as [e|rv1]; cbn [bind];
    [reflexivity|].
  unfold for_range at 1 3.
  rewrite (for_loop_ext _ (sell_column_body A (vector_base.handle p) block)); [reflexivity|].
  intros cei rv2 _. unfold sell_column_body.
  cbn [sliced_ell_matrix.handle3 sliced_ell_matrix.rows_per_block].
  destruct (read block_start (sliced_ell_matrix.handle3 A) block) as [e|bs]; cbn [bind];
    [reflexivity|].
  unfold for_range. apply for_loop_ext. intros rib rv3 _.
  apply sell_slot_body_coords, Hci.
Qed.

End SlicedEmptySlots.

Section SlicedZero.
Context {T : Type} `{Scalar T}.
Hypothesis truthy_tzero : truthy (tzero : T) = false.

(** The sliced ELL kernel adds a [0] for every empty slot, so that the
    sum of a row of empty slots is [0 + 0 + ... + 0]. *)
Lemma sell_zero_run (A : sliced_ell_matrix.t T) (M N : nat) (p Ap buf : vector_base.t T) :
  let rpb := sliced_ell_matrix.rows_per_block A in
  tadd tzero tzero = (tzero : T) ->
  tadd tzero (tmul tzero tzero) = (tzero : T) ->
  (forall i, i < length (vector_base.handle p) ->
     tadd tzero (tmul (get (vector_base.handle p) i) tzero) = tzero) ->
  sliced_ell_matrix.size1 A = M -> 0 < rpb ->
  (forall block, block <= M / rpb ->
     exists cols, sliced_ell_matrix.handle1 A !! block = Some cols /\
       forall cei, cei < cols ->
         exists bs, sliced_ell_matrix.handle3 A !! block = Some bs /\
           forall rib, rib < rpb ->
             sliced_ell_matrix.handle A !! (bs + cei * rpb + rib) = Some tzero) ->
  vectors_ok M N p Ap buf ->
  pipelined_cg_prod (SELL A) p Ap buf
  = inr (vector_base.mk M (tabulate (fun _ => tzero) M (vector_base.handle Ap)),
         stored_inner_prods buf tzero tzero).
Proof using truthy_tzero.
  intros rpb H0 H00 Hp0 HM Hrpb Hzero Hvec. apply (prod_run_zero (SELL A) M N).
  - split; [exact HM|]. split; [exact Hrpb|]. fold rpb. intros block Hblock.
    destruct (Hzero block Hblock) as (cols & Hcols & Hslots).
    exists cols. split; [exact Hcols|]. intros cei Hcei.
    destruct (Hslots cei Hcei) as (bs & Hbs & Hrib). exists bs. split; [exact Hbs|].
    intros rib Hr. specialize (Hrib rib Hr). split.
    + apply lookup_lt_Some in Hrib. exact Hrib.
    + rewrite (get_lookup _ _ _ Hrib), truthy_tzero. discriminate.
  - exact Hvec.
  - intros row Hrow. cbn [kernel_row]. unfold sell_dot. fold rpb.
    destruct (Hzero (row / rpb)) as (cols & Hcols & Hslots).
    { apply Nat.Div0.div_le_mono. lia. }
    rewrite (geti_lookup _ _ _ Hcols). apply tsum_absorb.
    intros cei Hcei. destruct (Hslots cei Hcei) as (bs & Hbs & Hrib).
    unfold sell_slot_value, sell_offset. fold rpb. rewrite (geti_lookup _ _ _ Hbs).
    assert (Hmod : row mod rpb < rpb) by (apply Nat.mod_upper_bound; lia).
    rewrite (get_lookup _ _ _ (Hrib _ Hmod)), truthy_tzero. exact H0.
  - intros Apb. reflexivity.
  - exact H00.
  - exact Hp0.
Qed.

End SlicedZero.

Lemma zero_sell_double_zero (block : nat) :
  block <= 2 / sliced_ell_matrix.rows_per_block zero_sell_double ->
  exists cols, sliced_ell_matrix.handle1 zero_sell_double !! block = Some cols /\
    forall cei, cei < cols ->
      exists bs, sliced_ell_matrix.handle3 zero_sell_double !! block = Some bs /\
        forall rib, rib < sliced_ell_matrix.rows_per_block zero_sell_double ->
          sliced_ell_matrix.handle zero_sell_double
            !! (bs + cei * sliced_ell_matrix.rows_per_block zero_sell_double + rib)
          = Some tzero.
Proof.
  cbn. intros Hblock. destruct block as [|[|block]]; [| |lia].
  - exists 1. split; [reflexivity|]. intros cei Hcei. exists 0. split; [reflexivity|].
    intros rib Hrib. assert (cei = 0) as -> by lia.
    destruct rib as [|[|rib]]; [reflexivity | reflexivity | lia].
  - exists 0. split; [reflexivity|]. intros cei Hcei. lia.
Qed.

(** X5.  The sliced ELL kernel, too, decides on the stored value alone
    whether it looks up a column index: for every element type, the
    column-index buffer may hold anything, or nothing, at the slots
    whose value is [0] without changing the run.  A sliced ELL matrix
    whose every slot is [0] gives [0] in every row of [Ap] and [0] for
    both reductions, provided that [0 + 0] is [0] and that [p[i] * 0]
    adds nothing to [0] for every element of [p]; over [double] this is
    the case when every element of [p] is finite, and with
    [p = [inf; 1]] the reduction [(p,Ap)] is [NaN]. *)
Theorem X5_sliced_ell_zero_slots :
  (forall (T : Type) (S : Scalar T) (A : sliced_ell_matrix.t T) (ci' : list nat)
          (p Ap buf : vector_base.t T),
     (forall offset, truthy (get (sliced_ell_matrix.handle A) offset) = true ->
        ci' !! offset = sliced_ell_matrix.handle2 A !! offset) ->
     pipelined_cg_prod
       (SELL (sliced_ell_matrix.mk (sliced_ell_matrix.size1 A)
                (sliced_ell_matrix.rows_per_block A) (sliced_ell_matrix.handle A)
                (sliced_ell_matrix.handle1 A) ci' (sliced_ell_matrix.handle3 A))) p Ap buf
     = pipelined_cg_prod (SELL A) p Ap buf)
  /\
  (forall (T : Type) (S : Scalar T) (A : sliced_ell_matrix.t T) (M N : nat)
          (p Ap buf : vector_base.t T),
     let rpb := sliced_ell_matrix.rows_per_block A in
     truthy (tzero : T) = false ->
     tadd tzero tzero = (tzero : T) ->
     tadd tzero (tmul tzero tzero) = (tzero : T) ->
     (forall i, i < length (vector_base.handle p) ->
        tadd tzero (tmul (get (vector_base.handle p) i) tzero) = tzero) ->
     sliced_ell_matrix.size1 A = M -> 0 < rpb ->
     (forall block, block <= M / rpb ->
        exists cols, sliced_ell_matrix.handle1 A !! block = Some cols /\
          forall cei, cei < cols ->
            exists bs, sliced_ell_matrix.handle3 A !! block = Some bs /\
              forall rib, rib < rpb ->
                sliced_ell_matrix.handle A !! (bs + cei * rpb + rib) = Some tzero) ->
     vectors_ok M N p Ap buf ->
     pipelined_cg_prod (SELL A) p Ap buf
     = inr (vector_base.mk M (tabulate (fun _ => tzero) M (vector_base.handle Ap)),
            stored_inner_prods buf tzero tzero))
  /\
  (forall (A : sliced_ell_matrix.t float) (M N : nat) (p Ap buf : vector_base.t float),
     let rpb := sliced_ell_matrix.rows_per_block A in
     (forall i x, vector_base.handle p !! i = Some x -> PrimFloat.is_finite x = true) ->
     sliced_ell_matrix.size1 A = M -> 0 < rpb ->
     (forall block, block <= M / rpb ->
        exists cols, sliced_ell_matrix.handle1 A !! block = Some cols /\
          forall cei, cei < cols ->
            exists bs, sliced_ell_matrix.handle3 A !! block = Some bs /\
              forall rib, rib < rpb ->
                sliced_ell_matrix.handle A !! (bs + cei * rpb + rib) = Some tzero) ->
     vectors_ok M N p Ap buf ->
     pipelined_cg_prod (SELL A) p Ap buf
     = inr (vector_base.mk M (tabulate (fun _ => tzero) M (vector_base.handle Ap)),
            stored_inner_prods buf tzero tzero))
  /\
  pipelined_cg_prod (SELL zero_sell_double)
    (vector_base.mk 2 [PrimFloat.infinity; 1%float]) (vector_base.mk 2 [99; 98]%float)
    (vector_base.mk 3 [7; 8; 9]%float)
  = inr (vector_base.mk 2 [0; 0]%float,
         vector_base.mk 3 [7%float; 0%float; PrimFloat.nan]).
Proof.
  split; [|split; [|split]].
  - intros T S A ci' p Ap buf Hci. apply sell_coords_irrelevant, Hci.
  - intros T S A M N p Ap buf rpb Htruthy. apply (sell_zero_run Htruthy).
  - intros A M N p Ap buf rpb Hfin.
    apply (sell_zero_run double_truthy_zero A M N p Ap buf eq_refl double_zero_absorbed).
    intros i Hi. destruct (lookup_lt_is_Some_2 _ _ Hi) as [x Hx].
    rewrite (get_lookup _ _ _ Hx). apply double_finite_absorbed, (Hfin i x Hx).
  - reflexivity.
Qed.

Lemma X5_sliced_ell_zero_slots_witness :
  pipelined_cg_prod (SELL (sliced_ell_matrix.mk 2 2 [5; 0; 0; 7]%Z [2; 0] [0; 99; 99; 1] [0]))
    (vector_base.mk 2 [3; 4]%Z) (vector_base.mk 2 [99; 98]%Z) (vector_base.mk 3 [7; 8; 9]%Z)
  = pipelined_cg_prod (SELL (sliced_ell_matrix.mk 2 2 [5; 0; 0; 7]%Z [2; 0] [0; 0; 0; 1] [0]))
      (vector_base.mk 2 [3; 4]%Z) (vector_base.mk 2 [99; 98]%Z) (vector_base.mk 3 [7; 8; 9]%Z)
  /\
  pipelined_cg_prod (SELL (sliced_ell_matrix.mk 2 2 [0; 0]%Z [1; 0] [77] [0]))
    (vector_base.mk 2 [3; 4]%Z) (vector_base.mk 2 [99; 98]%Z) (vector_base.mk 3 [7; 8; 9]%Z)
  = inr (vector_base.mk 2 [0; 0]%Z, vector_base.mk 3 [7; 0; 0]%Z)
  /\
  pipelined_cg_prod (SELL zero_sell_double) (vector_base.mk 2 [3; -4]%float)
    (vector_base.mk 2 [99; 98]%float) (vector_base.mk 3 [7; 8; 9]%float)
  = inr (vector_base.mk 2 [0; 0]%float, vector_base.mk 3 [7; 0; 0]%float).
Proof.
  split; [|split].
  - apply (proj1 X5_sliced_ell_zero_slots Z Z_Scalar
             (sliced_ell_matrix.mk 2 2 [5; 0; 0; 7]%Z [2; 0] [0; 0; 0; 1] [0])
             [0; 99; 99; 1]).
    intros offset. destruct offset as [|[|[|[|offset]]]]; cbn; intros Hval;
      try reflexivity; discriminate Hval.
  - apply (proj1 (proj2 X5_sliced_ell_zero_slots) Z Z_Scalar
             (sliced_ell_matrix.mk 2 2 [0; 0]%Z [1; 0] [77] [0]) 2 2
             (vector_base.mk 2 [3; 4]%Z) (vector_base.mk 2 [99; 98]%Z)
             (vector_base.mk 3 [7; 8; 9]%Z) eq_refl eq_refl eq_refl).
    + intros i Hi. cbn in Hi. destruct i as [|[|i]]; [reflexivity | reflexivity | lia].
    + reflexivity.
    + cbn. lia.
    + cbn. intros block Hblock. destruct block as [|[|block]]; [| |lia].
      * exists 1. split; [reflexivity|]. intros cei Hcei. exists 0. split; [reflexivity|].
        intros rib Hrib. assert (cei = 0) as -> by lia.
        destruct rib as [|[|rib]]; [reflexivity | reflexivity | lia].
      * exists 0. split; [reflexivity|]. intros cei Hcei. lia.
    + unfold vectors_ok. cbn. lia.
  - apply (proj1 (proj2 (proj2 X5_sliced_ell_zero_slots)) zero_sell_double 2 2
             (vector_base.mk 2 [3; -4]%float) (vector_base.mk 2 [99; 98]%float)
             (vector_base.mk 3 [7; 8; 9]%float)).
    + intros i x Hx. destruct i as [|[|i]]; cbn in Hx; [| |discriminate Hx];
        injection Hx as <-; reflexivity.
    + reflexivity.
    + cbn. lia.
    + exact zero_sell_double_zero.
    + unfold vectors_ok. cbn. lia.
Defined.

Section CoordinateOrder.
Context {T : Type} `{ScalarLaws T}.

Lemma lookup_flat_map_pair {X : Type} (a b : X -> nat) (l : list X) (i : nat) :
  flat_map (fun t => [a t; b t]) l !! (2 * i) = a <$> l !! i /\
  flat_map (fun t => [a t; b t]) l !! (2 * i + 1) = b <$> l !! i.
Proof.
  revert i. induction l as [|t l IH]; intros i; [split; reflexivity|].
  destruct i as [|i]; [split; reflexivity|].
  replace (2 * Datatypes.S i) with (Datatypes.S (Datatypes.S (2 * i))) by lia.
  cbn [flat_map app Nat.add]. exact (IH i).
Qed.

Lemma flat_map_seq_lookup {X Y : Type} (f : nat -> list Y) (g : X -> list Y) (l : list X) :
  (forall i x, l !! i = Some x -> f i = g x) ->
  flat_map f (seq 0 (length l)) = flat_map g l.
Proof.
  induction l as [|x l IH] using rev_ind; intros Hfg; [reflexivity|].
  rewrite length_app, Nat.add_comm. cbn [length Nat.add].
  rewrite seq_S, !flat_map_app. cbn [flat_map Nat.add]. rewrite !app_nil_r. f_equal.
  - apply IH. intros i y Hy. apply Hfg. rewrite lookup_app_l; [exact Hy|].
    apply lookup_lt_Some in Hy. exact Hy.
  - apply Hfg. rewrite lookup_app_r by lia. rewrite Nat.sub_diag. reflexivity.
Qed.

Lemma coo_entries_of_triples (l : list (nat * nat * T)) (row : nat) :
  coo_entries (coo_of_triples l) row
  = flat_map (fun t => if decide (fst (fst t) = row) then [(snd (fst t), snd t)] else []) l.
Proof.
  unfold coo_entries, coo_of_triples.
  cbn [coordinate_matrix.nnz coordinate_matrix.handle coordinate_matrix.handle12].
  apply flat_map_seq_lookup. intros i t Ht.
  destruct (lookup_flat_map_pair (fun t : nat * nat * T => fst (fst t))
              (fun t => snd (fst t)) l i) as [Hr Hc].
  rewrite Ht in Hr, Hc.
  rewrite (geti_lookup _ (2 * i) (fst (fst t)) Hr), (geti_lookup _ (2 * i + 1) (snd (fst t)) Hc).
  assert (Hv : map snd l !! i = Some (snd t)) by (rewrite list_lookup_fmap, Ht; reflexivity).
  rewrite (get_lookup _ _ _ Hv). reflexivity.
Qed.

Lemma coo_of_triples_ok (l : list (nat * nat * T)) (M N : nat) :
  Forall (fun t => fst (fst t) < M /\ snd (fst t) < N) l ->
  matrix_ok (COO (coo_of_triples l)) M N.
Proof.
  intros Hall i Hi. unfold coo_of_triples in *.
  cbn [coordinate_matrix.nnz coordinate_matrix.handle coordinate_matrix.handle12] in *.
  split; [rewrite length_map; exact Hi|].
  destruct (lookup_lt_is_Some_2 l i Hi) as [t Ht].
  destruct (lookup_flat_map_pair (fun t : nat * nat * T => fst (fst t))
              (fun t => snd (fst t)) l i) as [Hr Hc].
  rewrite Ht in Hr, Hc.
  exists (fst (fst t)), (snd (fst t)). split; [exact Hr|]. split; [exact Hc|].
  rewrite Forall_forall in Hall. apply Hall. apply list_elem_of_lookup. eauto.
Qed.

Lemma entry_permutation (es es' : list (nat * T)) (col : nat) :
  Permutation es es' -> entry es col = entry es' col.
Proof.
  intros Hperm. unfold entry. generalize (tzero : T).
  induction Hperm as [|x l l' _ IH|x y l|l l' l'' _ IH1 _ IH2]; intros init.
  - reflexivity.
  - cbn [fold_left]. apply IH.
  - cbn [fold_left]. f_equal.
    destruct (decide (fst y = col)), (decide (fst x = col)); try reflexivity.
    rewrite <- !tadd_assoc, (tadd_comm (snd y)). reflexivity.
  - rewrite IH1. apply IH2.
Qed.

Lemma coo_of_triples_permutation (l1 l2 : list (nat * nat * T)) (M N : nat) :
  Permutation l1 l2 ->
  logically_equal M N (COO (coo_of_triples l1)) (COO (coo_of_triples l2)).
Proof.
  intros Hperm row col _ _. unfold matrix_entry. cbn [row_entries].
  rewrite !coo_entries_of_triples. apply entry_permutation.
  apply Permutation_flat_map, Hperm.
Qed.

End CoordinateOrder.

(** X6.  The coordinate kernel does not depend on the order in which the
    entries are stored: for two coordinate matrices built from the same
    triples in different orders (repeated triples included) it returns
    the same [Ap] and the same reduction buffer, in exact arithmetic. *)
Theorem X6_coordinate_order :
  forall (T : Type) (S : Scalar T) (L : ScalarLaws T) (l1 l2 : list (nat * nat * T))
         (M N : nat) (p Ap buf : vector_base.t T),
    Permutation l1 l2 ->
    Forall (fun t => fst (fst t) < M /\ snd (fst t) < N) l1 ->
    vectors_ok M N p Ap buf ->
    exists out,
      pipelined_cg_prod (COO (coo_of_triples l1)) p Ap buf = inr out /\
      pipelined_cg_prod (COO (coo_of_triples l2)) p Ap buf = inr out.
Proof.
  intros T S L l1 l2 M N p Ap buf Hperm Hall Hvec.
  assert (Hall2 : Forall (fun t => fst (fst t) < M /\ snd (fst t) < N) l2)
    by (rewrite <- Hperm; exact Hall).
  eexists. split.
  - apply (prod_exact (COO (coo_of_triples l1)) M N); [apply coo_of_triples_ok, Hall | exact Hvec].
  - rewrite (prod_exact (COO (coo_of_triples l2)) M N);
      [| apply coo_of_triples_ok, Hall2 | exact Hvec].
    rewrite (tabulate_ext (prod_row (COO (coo_of_triples l2)) N (vector_base.handle p))
                          (prod_row (COO (coo_of_triples l1)) N (vector_base.handle p)));
      [reflexivity|].
    intros row Hrow. symmetry.
    apply (prod_row_logically_equal _ _ M N); [|exact Hrow].
    apply coo_of_triples_permutation, Hperm.
Qed.

Lemma X6_coordinate_order_witness :
  exists out,
    pipelined_cg_prod (COO (coo_of_triples [(1, 0, 4%Z); (0, 1, 2%Z); (1, 1, 6%Z)]))
      (vector_base.mk 2 [3; 4]%Z) (vector_base.mk 2 [99; 98]%Z) (vector_base.mk 3 [7; 8; 9]%Z)
    = inr out /\
    pipelined_cg_prod (COO (coo_of_triples [(0, 1, 2%Z); (1, 1, 6%Z); (1, 0, 4%Z)]))
      (vector_base.mk 2 [3; 4]%Z) (vector_base.mk 2 [99; 98]%Z) (vector_base.mk 3 [7; 8; 9]%Z)
    = inr out.
Proof.
  apply (X6_coordinate_order Z Z_Scalar Z_ScalarLaws
           [(1, 0, 4%Z); (0, 1, 2%Z); (1, 1, 6%Z)] [(0, 1, 2%Z); (1, 1, 6%Z); (1, 0, 4%Z)]
           2 2).
  - exact (Permutation_cons_append [(0, 1, 2%Z); (1, 1, 6%Z)] (1, 0, 4%Z)).
  - repeat constructor; cbn; lia.
  - unfold vectors_ok. cbn. lia.
Defined.

Section EmptyInputs.
Context {T : Type} `{Scalar T}.

Lemma vector_base_eta (v : vector_base.t T) :
  vector_base.mk (vector_base.size v) (vector_base.handle v) = v.
Proof. destruct v. reflexivity. Qed.

Lemma sell_first_block_missing (A : sliced_ell_matrix.t T) (p Ap buf : vector_base.t T) :
  sliced_ell_matrix.rows_per_block A <> 0 ->
  sliced_ell_matrix.handle1 A !! 0 = None ->
  pipelined_cg_prod (SELL A) p Ap buf = inl (OutOfBounds columns_per_block 0).
Proof.
  intros Hrpb Hcols. cbn [pipelined_cg_prod]. unfold pipelined_cg_prod_sliced_ell_matrix.
  rewrite decide_False by exact Hrpb. cbn [bind ret].
  unfold sell_blocks, for_range. rewrite Nat.sub_0_r, Nat.add_comm. cbn [Nat.add for_loop].
  unfold sell_block_body, read. rewrite Hcols. reflexivity.
Qed.

Lemma sell_empty_run (A : sliced_ell_matrix.t T) (p Ap buf : vector_base.t T) :
  sliced_ell_matrix.size1 A = 0 -> sliced_ell_matrix.rows_per_block A <> 0 ->
  sliced_ell_matrix.handle1 A !! 0 = Some 0 -> vector_base.size Ap = 0 ->
  2 * (vector_base.size buf / 3) < length (vector_base.handle buf) ->
  pipelined_cg_prod (SELL A) p Ap buf = inr (Ap, stored_inner_prods buf tzero tzero).
Proof.
  intros HM Hrpb Hcols HAp Hbuf. cbn [pipelined_cg_prod].
  unfold pipelined_cg_prod_sliced_ell_matrix.
  rewrite decide_False by exact Hrpb. cbn [bind ret]. rewrite HM, Nat.Div0.div_0_l.
  unfold sell_blocks, for_range. cbn [Nat.add Nat.sub for_loop].
  unfold sell_block_body. rewrite (read_ok _ _ _ _ Hcols). cbn [bind].
  rewrite sell_clear_run. cbn [bind].
  unfold for_range at 1. cbn [Nat.sub for_loop bind ret].
  rewrite sell_out_skip by lia. cbn [bind ret].
  rewrite store_inner_prods_run by exact Hbuf. rewrite vector_base_eta. reflexivity.
Qed.

End EmptyInputs.

(** X7.  Empty inputs.  A vector update with [size(result) = 0] touches
    no vector and stores [0] at offset [0] of the reduction buffer.  A
    product with a matrix without rows (for the coordinate matrix:
    without entries, and with an empty [Ap]) reads none of the matrix
    buffers, returns [Ap] as it was and stores [0] for both reductions.
    The sliced ELL kernel is the exception: it always visits block [0],
    so it needs the entry of [columns_per_block] for that block even
    when the matrix has no rows. *)
Theorem X7_empty_inputs :
  forall (T : Type) (S : Scalar T) (buf : vector_base.t T),
  (forall (result p r Ap : vector_base.t T) (alpha beta : T),
     vector_base.size result = 0 -> 0 < length (vector_base.handle buf) ->
     pipelined_cg_vector_update result alpha p r Ap beta buf
     = inr (result, p, r,
            vector_base.mk (vector_base.size buf) (<[0 := tzero]> (vector_base.handle buf))))
  /\
  (forall (A : sparse_matrix T) (p Ap : vector_base.t T),
     match A with
     | CSR A => compressed_matrix.size1 A = 0
     | COO A => coordinate_matrix.nnz A = 0 /\ vector_base.size Ap = 0
     | ELL A => ell_matrix.size1 A = 0
     | SELL A => sliced_ell_matrix.size1 A = 0 /\ sliced_ell_matrix.rows_per_block A <> 0 /\
                 sliced_ell_matrix.handle1 A !! 0 = Some 0 /\ vector_base.size Ap = 0
     | HYB A => hyb_matrix.size1 A = 0
     end ->
     2 * (vector_base.size buf / 3) < length (vector_base.handle buf) ->
     pipelined_cg_prod A p Ap buf = inr (Ap, stored_inner_prods buf tzero tzero))
  /\
  (forall (A : sliced_ell_matrix.t T) (p Ap : vector_base.t T),
     sliced_ell_matrix.rows_per_block A <> 0 ->
     sliced_ell_matrix.handle1 A !! 0 = None ->
     pipelined_cg_prod (SELL A) p Ap buf = inl (OutOfBounds columns_per_block 0)).
Proof.
  intros T S buf. split; [|split].
  - intros result p r Ap alpha beta Hsize Hbuf. unfold pipelined_cg_vector_update, for_range.
    rewrite Hsize. cbn [Nat.sub for_loop bind ret]. rewrite write_ok by exact Hbuf.
    cbn [bind ret]. rewrite <- Hsize, !vector_base_eta. reflexivity.
  - intros A p Ap Hempty Hbuf. destruct A as [A|A|A|A|A]; cbn [pipelined_cg_prod].
    + unfold pipelined_cg_prod_compressed_matrix, for_range. rewrite Hempty.
      cbn [Nat.sub for_loop bind ret]. rewrite store_inner_prods_run by exact Hbuf.
      rewrite vector_base_eta. reflexivity.
    + destruct Hempty as [Hnnz HAp].
      unfold pipelined_cg_prod_coordinate_matrix, for_range. rewrite Hnnz, HAp.
      cbn [Nat.sub for_loop bind ret]. rewrite store_inner_prods_run by exact Hbuf.
      rewrite <- HAp, vector_base_eta. reflexivity.
    + unfold pipelined_cg_prod_ell_matrix, for_range. rewrite Hempty.
      cbn [Nat.sub for_loop bind ret]. rewrite store_inner_prods_run by exact Hbuf.
      rewrite vector_base_eta. reflexivity.
    + destruct Hempty as (HM & Hrpb & Hcols & HAp).
      apply (sell_empty_run A p Ap buf); assumption.
    + unfold pipelined_cg_prod_hyb_matrix, for_range. rewrite Hempty.
      cbn [Nat.sub for_loop bind ret]. rewrite store_inner_prods_run by exact Hbuf.
      rewrite vector_base_eta. reflexivity.
  - intros A p Ap. apply sell_first_block_missing.
Qed.

Lemma X7_empty_inputs_witness :
  pipelined_cg_vector_update (vector_base.mk 0 [1; 2]%Z) 1%Z (vector_base.mk 2 [1; 1]%Z)
    (vector_base.mk 2 [2; 2]%Z) (vector_base.mk 2 [0; 0]%Z) 0%Z (vector_base.mk 3 [7; 8; 9]%Z)
  = inr (vector_base.mk 0 [1; 2]%Z, vector_base.mk 2 [1; 1]%Z, vector_base.mk 2 [2; 2]%Z,
         vector_base.mk 3 [0; 8; 9]%Z)
  /\
  pipelined_cg_prod (CSR (compressed_matrix.mk 0 [] [] [])) (vector_base.mk 0 [3%Z])
    (vector_base.mk 0 [99%Z]) (vector_base.mk 3 [7; 8; 9]%Z)
  = inr (vector_base.mk 0 [99%Z], vector_base.mk 3 [7; 0; 0]%Z)
  /\
  pipelined_cg_prod (SELL (sliced_ell_matrix.mk 0 2 [] [] [] [])) (vector_base.mk 0 [3%Z])
    (vector_base.mk 0 [99%Z]) (vector_base.mk 3 [7; 8; 9]%Z)
  = inl (OutOfBounds columns_per_block 0).
Proof.
  pose proof (X7_empty_inputs Z Z_Scalar (vector_base.mk 3 [7; 8; 9]%Z))
    as (Hupdate & Hprod & Hsell).
  split; [|split].
  - apply (Hupdate (vector_base.mk 0 [1; 2]%Z) (vector_base.mk 2 [1; 1]%Z)
             (vector_base.mk 2 [2; 2]%Z) (vector_base.mk 2 [0; 0]%Z) 1%Z 0%Z eq_refl).
    cbn. lia.
  - apply (Hprod (CSR (compressed_matrix.mk 0 [] [] [])) (vector_base.mk 0 [3%Z])
             (vector_base.mk 0 [99%Z]) eq_refl).
    cbn. lia.
  - apply (Hsell (sliced_ell_matrix.mk 0 2 [] [] [] []) (vector_base.mk 0 [3%Z])
             (vector_base.mk 0 [99%Z])); [cbn; lia | reflexivity].
Defined.

Section Bounds.
Context {T : Type} `{Scalar T}.

(** Every iteration of a completed loop has completed. *)
Lemma for_loop_inr_each {S : Type} (body : nat -> S -> run S) (n lo : nat) (s s' : S) :
  for_loop n lo body s = inr s' ->
  forall i, lo <= i < lo + n -> exists si si', body i si = inr si'.
Proof.
  revert lo s. induction n as [|n IH]; intros lo s Hrun i Hi; [lia|].
  cbn [for_loop] in Hrun. apply bind_inr in Hrun as (s1 & Hbody & Hrest).
  destruct (decide (i = lo)) as [->|Hne]; [eauto|].
  apply (IH (Datatypes.S lo) s1 Hrest). lia.
Qed.

Lemma csr_entry_body_inr (elems : list T) (colb : list nat) (pb : list T) (i : nat)
    (acc acc' : T) :
  csr_entry_body elems colb pb i acc = inr acc' ->
  i < length elems /\ exists c, colb !! i = Some c /\ c < length pb.
Proof.
  unfold csr_entry_body. intros Hrun.
  apply bind_inr in Hrun as (e & He & Hrun). apply read_inr, lookup_lt_Some in He.
  apply bind_inr in Hrun as (c & Hc & Hrun). apply read_inr in Hc.
  apply bind_inr in Hrun as (pv & Hpv & _). apply read_inr, lookup_lt_Some in Hpv.
  eauto.
Qed.

(** What the compressed-matrix kernel needs of row [row]. *)
Lemma csr_row_body_inr (A : compressed_matrix.t T) (pb : list T) (row : nat)
    (Apb : list T) (a b : T) (s' : list T * T * T) :
  csr_row_body A pb row (Apb, a, b) = inr s' ->
  (row < length pb /\ row < length Apb /\ row + 1 < length (compressed_matrix.handle1 A) /\
   forall i, geti (compressed_matrix.handle1 A) row <= i
             < geti (compressed_matrix.handle1 A) (row + 1) ->
     i < length (compressed_matrix.handle A) /\
     exists c, compressed_matrix.handle2 A !! i = Some c /\ c < length pb) /\
  length (fst (fst s')) = length Apb.
Proof.
  unfold csr_row_body. intros Hrun.
  apply bind_inr in Hrun as (v & Hv & Hrun). apply read_inr, lookup_lt_Some in Hv.
  apply bind_inr in Hrun as (re & Hre & Hrun). apply read_inr in Hre.
  apply bind_inr in Hrun as (rb & Hrb & Hrun). apply read_inr in Hrb.
  apply bind_inr in Hrun as (dot & Hloop & Hrun).
  apply bind_inr in Hrun as (Apb1 & Hw & Hrun). apply write_inr in Hw as [Hw ->].
  injection Hrun as <-. cbn [fst]. split; [|apply length_insert].
  split; [exact Hv|]. split; [exact Hw|].
  split; [apply lookup_lt_Some in Hre; exact Hre|].
  intros i Hi. rewrite (geti_lookup _ _ _ Hrb), (geti_lookup _ _ _ Hre) in Hi.
  unfold for_range in Hloop.
  destruct (for_loop_inr_each _ _ _ _ _ Hloop i ltac:(lia)) as (acc & acc' & Hbody).
  apply (csr_entry_body_inr _ _ _ _ _ _ Hbody).
Qed.

Lemma csr_loop_inr (A : compressed_matrix.t T) (pb Apb : list T) (s' : list T * T * T) :
  for_range 0 (compressed_matrix.size1 A) (csr_row_body A pb) (Apb, tzero, tzero) = inr s' ->
  forall row, row < compressed_matrix.size1 A ->
    row < length pb /\ row < length Apb /\ row + 1 < length (compressed_matrix.handle1 A) /\
    forall i, geti (compressed_matrix.handle1 A) row <= i
              < geti (compressed_matrix.handle1 A) (row + 1) ->
      i < length (compressed_matrix.handle A) /\
      exists c, compressed_matrix.handle2 A !! i = Some c /\ c < length pb.
Proof.
  unfold for_range. rewrite Nat.sub_0_r. intros Hrun.
  pose proof (for_loop_inr_inv
    (fun k s => length (fst (fst s)) = length Apb /\
       forall row, row < k ->
         row < length pb /\ row < length Apb /\
         row + 1 < length (compressed_matrix.handle1 A) /\
         forall i, geti (compressed_matrix.handle1 A) row <= i
                   < geti (compressed_matrix.handle1 A) (row + 1) ->
           i < length (compressed_matrix.handle A) /\
           exists c, compressed_matrix.handle2 A !! i = Some c /\ c < length pb)
    (csr_row_body A pb) (compressed_matrix.size1 A) 0 (Apb, tzero, tzero) s') as Hinv.
  cbn beta in Hinv. apply Hinv; [| |exact Hrun].
  - split; [reflexivity|]. intros row Hrow. lia.
  - intros k [[Apb1 a] b] s2 Hk [Hlen Hrows] Hbody. cbn [fst] in Hlen.
    apply csr_row_body_inr in Hbody as [Hrow Hlen']. rewrite Hlen in Hrow, Hlen'.
    split; [exact Hlen'|]. intros row Hlt.
    destruct (decide (row = k)) as [->|Hne]; [exact Hrow | apply Hrows; lia].
Qed.

End Bounds.

(** X8.  The compressed-matrix kernel runs to completion exactly when
    every index it forms lies in its buffer: for every row below
    [size1], [p] and [Ap] hold the row index, [row_buffer] holds the
    entries [row] and [row + 1], and for every [i] in the range these
    two delimit, [elements] and [col_buffer] hold [i] and [p] holds the
    column index stored there; and the reduction buffer holds the offset
    [2 * (size / 3)].  A row whose range is empty or inverted needs
    nothing of [elements] and [col_buffer]. *)
Theorem X8_compressed_matrix_bounds :
  forall (T : Type) (S : Scalar T) (A : compressed_matrix.t T) (p Ap buf : vector_base.t T),
    (exists out, pipelined_cg_prod (CSR A) p Ap buf = inr out)
    <->
    (forall row, row < compressed_matrix.size1 A ->
       row < length (vector_base.handle p) /\ row < length (vector_base.handle Ap) /\
       row + 1 < length (compressed_matrix.handle1 A) /\
       forall i, geti (compressed_matrix.handle1 A) row <= i
                 < geti (compressed_matrix.handle1 A) (row + 1) ->
         i < length (compressed_matrix.handle A) /\
         exists c, compressed_matrix.handle2 A !! i = Some c /\
                   c < length (vector_base.handle p))
    /\ 2 * (vector_base.size buf / 3) < length (vector_base.handle buf).
Proof.
  intros T S A p Ap buf. cbn [pipelined_cg_prod].
  unfold pipelined_cg_prod_compressed_matrix. split.
  - intros [out Hrun].
    apply bind_inr in Hrun as ([[Apb a] b] & Hloop & Hrun).
    apply bind_inr in Hrun as (buf1 & Hst & _).
    apply store_inner_prods_inr in Hst as [Hbuf _].
    split; [exact (csr_loop_inr A _ _ _ Hloop) | exact Hbuf].
  - intros [Hrows Hbuf].
    rewrite (fused_rows_run _ (vector_base.handle p)
               (kernel_row (CSR A) (vector_base.handle p))).
    + cbn [bind]. rewrite store_inner_prods_run by exact Hbuf. eexists. reflexivity.
    + destruct (compressed_matrix.size1 A) as [|M'] eqn:HM; [lia|].
      destruct (Hrows M' ltac:(lia)) as (_ & HAp & _). lia.
    + intros row Apb' a b Hrow Hlen. destruct (Hrows row Hrow) as (Hp & HAp & Hrb & Hent).
      unfold csr_row_body. rewrite (read_get p_buf) by exact Hp. cbn [bind].
      rewrite (read_geti row_buffer) by exact Hrb. cbn [bind].
      rewrite (read_geti row_buffer) by lia. cbn [bind].
      rewrite (csr_entries_run _ _ _ _ (compressed_matrix.size1 A)
                 (length (vector_base.handle p))); [| |lia|exact Hrow].
      * cbn [bind]. rewrite write_ok by lia. reflexivity.
      * split.
        { destruct (compressed_matrix.size1 A) as [|M'] eqn:HM; [lia|].
          destruct (Hrows M' ltac:(lia)) as (_ & _ & HrbM & _). lia. }
        intros row' i Hrow' Hi. apply (Hrows row' Hrow'). exact Hi.
Qed.

Lemma X8_compressed_matrix_bounds_witness :
  (forall row, row < 2 ->
     row < 2 /\ row < 2 /\ row + 1 < 3 /\
     forall i, geti [1; 1; 0] row <= i < geti [1; 1; 0] (row + 1) ->
       i < length (@nil Z) /\ exists c, @nil nat !! i = Some c /\ c < 2)
  /\ 2 * (3 / 3) < 3.
Proof.
  apply (proj1 (X8_compressed_matrix_bounds Z Z_Scalar
                  (compressed_matrix.mk 2 [] [1; 1; 0] [])
                  (vector_base.mk 2 [3; 4]%Z) (vector_base.mk 2 [99; 98]%Z)
                  (vector_base.mk 3 [7; 8; 9]%Z))).
  eexists. reflexivity.
Defined.

Section EllBounds.
Context {T : Type} `{Scalar T}.

Lemma ell_item_body_inr (elems : list T) (crd : list nat) (stride : nat) (pb : list T)
    (row item_id : nat) (sum sum' : T) :
  ell_item_body elems crd stride pb row item_id sum = inr sum' ->
  slot_ok elems crd (length pb) (row + item_id * stride).
Proof.
  unfold ell_item_body. intros Hrun.
  apply bind_inr in Hrun as (val & Hval & Hrun). apply read_inr in Hval.
  split; [apply lookup_lt_Some in Hval; exact Hval|].
  rewrite (get_lookup _ _ _ Hval). intros Htruthy. rewrite Htruthy in Hrun.
  apply bind_inr in Hrun as (c & Hc & Hrun). apply read_inr in Hc.
  apply bind_inr in Hrun as (pv & Hpv & _). apply read_inr, lookup_lt_Some in Hpv.
  eauto.
Qed.

Lemma ell_row_body_inr (A : ell_matrix.t T) (pb : list T) (row : nat)
    (Apb : list T) (a b : T) (s' : list T * T * T) :
  ell_row_body A pb row (Apb, a, b) = inr s' ->
  (row < length pb /\ row < length Apb /\
   forall item_id, item_id < ell_matrix.internal_maxnnz A ->
     slot_ok (ell_matrix.handle A) (ell_matrix.handle2 A) (length pb)
       (row + item_id * ell_matrix.internal_size1 A)) /\
  length (fst (fst s')) = length Apb.
Proof.
  unfold ell_row_body. intros Hrun.
  apply bind_inr in Hrun as (v & Hv & Hrun). apply read_inr, lookup_lt_Some in Hv.
  apply bind_inr in Hrun as (sum & Hloop & Hrun).
  apply bind_inr in Hrun as (Apb1 & Hw & Hrun). apply write_inr in Hw as [Hw ->].
  injection Hrun as <-. cbn [fst]. split; [|apply length_insert].
  split; [exact Hv|]. split; [exact Hw|].
  intros item Hitem. unfold for_range in Hloop.
  destruct (for_loop_inr_each _ _ _ _ _ Hloop item ltac:(lia)) as (acc & acc' & Hbody).
  apply (ell_item_body_inr _ _ _ _ _ _ _ _ Hbody).
Qed.

Lemma ell_loop_inr (A : ell_matrix.t T) (pb Apb : list T) (s' : list T * T * T) :
  for_range 0 (ell_matrix.size1 A) (ell_row_body A pb) (Apb, tzero, tzero) = inr s' ->
  forall row, row < ell_matrix.size1 A ->
    row < length pb /\ row < length Apb /\
    forall item_id, item_id < ell_matrix.internal_maxnnz A ->
      slot_ok (ell_matrix.handle A) (ell_matrix.handle2 A) (length pb)
        (row + item_id * ell_matrix.internal_size1 A).
Proof.
  unfold for_range. rewrite Nat.sub_0_r. intros Hrun.
  pose proof (for_loop_inr_inv
    (fun k s => length (fst (fst s)) = length Apb /\
       forall row, row < k ->
         row < length pb /\ row < length Apb /\
         forall item_id, item_id < ell_matrix.internal_maxnnz A ->
           slot_ok (ell_matrix.handle A) (ell_matrix.handle2 A) (length pb)
             (row + item_id * ell_matrix.internal_size1 A))
    (ell_row_body A pb) (ell_matrix.size1 A) 0 (Apb, tzero, tzero) s') as Hinv.
  cbn beta in Hinv. apply Hinv; [| |exact Hrun].
  - split; [reflexivity|]. intros row Hrow. lia.
  - intros k [[Apb1 a] b] s2 Hk [Hlen Hrows] Hbody. cbn [fst] in Hlen.
    apply ell_row_body_inr in Hbody as [Hrow Hlen']. rewrite Hlen in Hrow, Hlen'.
    split; [exact Hlen'|]. intros row Hlt.
    destruct (decide (row = k)) as [->|Hne]; [exact Hrow | apply Hrows; lia].
Qed.

End EllBounds.

(** X9.  The ELL kernel runs to completion exactly when, for every row
    below [size1], [p] and [Ap] hold the row index and every slot
    [row + item_id * internal_size1] with [item_id < internal_maxnnz]
    lies in [elements] and, if its value is not [0], has a column index
    in [coords] that lies in [p]; and the reduction buffer holds the
    offset [2 * (size / 3)].  Nothing is required of [coords] at a slot
    whose value is [0]. *)
Theorem X9_ell_matrix_bounds :
  forall (T : Type) (S : Scalar T) (A : ell_matrix.t T) (p Ap buf : vector_base.t T),
    (exists out, pipelined_cg_prod (ELL A) p Ap buf = inr out)
    <->
    (forall row, row < ell_matrix.size1 A ->
       row < length (vector_base.handle p) /\ row < length (vector_base.handle Ap) /\
       forall item_id, item_id < ell_matrix.internal_maxnnz A ->
         let offset := row + item_id * ell_matrix.internal_size1 A in
         offset < length (ell_matrix.handle A) /\
         (truthy (get (ell_matrix.handle A) offset) = true ->
          exists c, ell_matrix.handle2 A !! offset = Some c /\
                    c < length (vector_base.handle p)))
    /\ 2 * (vector_base.size buf / 3) < length (vector_base.handle buf).
Proof.
  intros T S A p Ap buf. cbn [pipelined_cg_prod]. unfold pipelined_cg_prod_ell_matrix. split.
  - intros [out Hrun].
    apply bind_inr in Hrun as ([[Apb a] b] & Hloop & Hrun).
    apply bind_inr in Hrun as (buf1 & Hst & _).
    apply store_inner_prods_inr in Hst as [Hbuf _].
    split; [exact (ell_loop_inr A _ _ _ Hloop) | exact Hbuf].
  - intros [Hrows Hbuf].
    rewrite (fused_rows_run _ (vector_base.handle p)
               (kernel_row (ELL A) (vector_base.handle p))).
    + cbn [bind]. rewrite store_inner_prods_run by exact Hbuf. eexists. reflexivity.
    + destruct (ell_matrix.size1 A) as [|M'] eqn:HM; [lia|].
      destruct (Hrows M' ltac:(lia)) as (_ & HAp & _). lia.
    + intros row Apb' a b Hrow Hlen. destruct (Hrows row Hrow) as (Hp & HAp & Hslots).
      unfold ell_row_body. rewrite (read_get p_buf) by exact Hp. cbn [bind].
      rewrite (ell_items_run _ _ _ _ _ (ell_matrix.size1 A)
                 (length (vector_base.handle p))); [| |lia|exact Hrow].
      * cbn [bind]. rewrite write_ok by lia. reflexivity.
      * intros row' item Hrow' Hitem. apply (Hrows row' Hrow'). exact Hitem.
Qed.

Lemma X9_ell_matrix_bounds_witness :
  exists out,
    pipelined_cg_prod (ELL (ell_matrix.mk 2 2 2 [5; 7; 0; 0]%Z [0; 1]))
      (vector_base.mk 2 [3; 4]%Z) (vector_base.mk 2 [99; 98]%Z) (vector_base.mk 3 [7; 8; 9]%Z)
    = inr out.
Proof.
  apply (proj2 (X9_ell_matrix_bounds Z Z_Scalar (ell_matrix.mk 2 2 2 [5; 7; 0; 0]%Z [0; 1])
                  (vector_base.mk 2 [3; 4]%Z) (vector_base.mk 2 [99; 98]%Z)
                  (vector_base.mk 3 [7; 8; 9]%Z))).
  split; [|cbn; lia]. intros row Hrow. cbn in Hrow. split; [cbn; lia|]. split; [cbn; lia|].
  intros item Hitem. cbn in Hitem.
  destruct row as [|[|row]]; destruct item as [|[|item]]; try lia;
    (split; [cbn; lia|]); cbn; intros Hval; try discriminate Hval.
  - exists 0. split; [reflexivity | lia].
  - exists 1. split; [reflexivity | lia].
Defined.

Section OneBlock.
Context {T : Type} `{ScalarLaws T}.

(** The sliced ELL matrix with one block of [internal_size1] rows that
    shares the buffers of an ELL matrix. *)
Lemma one_block_entries (A : ell_matrix.t T) (row : nat) :
  row < ell_matrix.internal_size1 A ->
  sell_entries
    (sliced_ell_matrix.mk (ell_matrix.size1 A) (ell_matrix.internal_size1 A)
       (ell_matrix.handle A) [ell_matrix.internal_maxnnz A; 0] (ell_matrix.handle2 A) [0]) row
  = ell_entries (ell_matrix.handle A) (ell_matrix.handle2 A) (ell_matrix.internal_size1 A)
      (ell_matrix.internal_maxnnz A) row.
Proof.
  intros Hrow. unfold sell_entries, ell_entries, sell_offset.
  cbn [sliced_ell_matrix.rows_per_block sliced_ell_matrix.handle sliced_ell_matrix.handle1
       sliced_ell_matrix.handle2 sliced_ell_matrix.handle3].
  rewrite Nat.div_small, Nat.mod_small by exact Hrow.
  change (geti [0] 0) with 0.
  change (geti [ell_matrix.internal_maxnnz A; 0] 0) with (ell_matrix.internal_maxnnz A).
  apply flat_map_ext. intros cei. f_equal. lia.
Qed.

Lemma one_block_ok (A : ell_matrix.t T) (M N : nat) :
  ell_matrix.size1 A = M -> M <= ell_matrix.internal_size1 A ->
  0 < ell_matrix.internal_size1 A ->
  ell_ok (ell_matrix.handle A) (ell_matrix.handle2 A) (ell_matrix.internal_size1 A)
    (ell_matrix.internal_maxnnz A) (ell_matrix.internal_size1 A) N ->
  matrix_ok
    (SELL (sliced_ell_matrix.mk (ell_matrix.size1 A) (ell_matrix.internal_size1 A)
             (ell_matrix.handle A) [ell_matrix.internal_maxnnz A; 0] (ell_matrix.handle2 A)
             [0])) M N.
Proof.
  intros HM Hle Hpos Hok. split; [exact HM|]. split; [exact Hpos|].
  cbn [sliced_ell_matrix.rows_per_block sliced_ell_matrix.handle sliced_ell_matrix.handle1
       sliced_ell_matrix.handle2 sliced_ell_matrix.handle3].
  intros block Hblock.
  assert (Hb : block <= 1).
  { etransitivity; [exact Hblock|].
    etransitivity; [apply Nat.Div0.div_le_mono, Hle|].
    rewrite Nat.div_same by lia. reflexivity. }
  destruct block as [|[|block]]; [| |lia].
  - exists (ell_matrix.internal_maxnnz A). split; [reflexivity|]. intros cei Hcei.
    exists 0. split; [reflexivity|]. intros rib Hrib.
    replace (0 + cei * ell_matrix.internal_size1 A + rib)
      with (rib + cei * ell_matrix.internal_size1 A) by lia.
    apply Hok; assumption.
  - exists 0. split; [reflexivity|]. intros cei Hcei. lia.
Qed.

End OneBlock.

(** X10.  An ELL matrix is the one-block case of a sliced ELL matrix:
    taking [rows_per_block = internal_size1], a single block of
    [internal_maxnnz] columns starting at offset [0], and the same
    [elements] and column-index buffers, the sliced ELL kernel returns
    what the ELL kernel returns, in exact arithmetic.  The sliced ELL
    kernel visits the slots of all [internal_size1] rows of the block,
    so those of the padding rows must be valid as well. *)
Theorem X10_ell_is_one_block :
  forall (T : Type) (S : Scalar T) (L : ScalarLaws T) (A : ell_matrix.t T) (M N : nat)
         (p Ap buf : vector_base.t T),
    ell_matrix.size1 A = M -> M <= ell_matrix.internal_size1 A ->
    0 < ell_matrix.internal_size1 A ->
    ell_ok (ell_matrix.handle A) (ell_matrix.handle2 A) (ell_matrix.internal_size1 A)
      (ell_matrix.internal_maxnnz A) (ell_matrix.internal_size1 A) N ->
    vectors_ok M N p Ap buf ->
    exists out,
      pipelined_cg_prod (ELL A) p Ap buf = inr out /\
      pipelined_cg_prod
        (SELL (sliced_ell_matrix.mk (ell_matrix.size1 A) (ell_matrix.internal_size1 A)
                 (ell_matrix.handle A) [ell_matrix.internal_maxnnz A; 0]
                 (ell_matrix.handle2 A) [0])) p Ap buf
      = inr out.
Proof.
  intros T S L A M N p Ap buf HM Hle Hpos Hok Hvec.
  assert (HokE : matrix_ok (ELL A) M N).
  { split; [exact HM|]. intros row item Hrow Hitem. apply Hok; [lia | exact Hitem]. }
  pose proof (one_block_ok A M N HM Hle Hpos Hok) as HokS.
  eexists. split; [apply (prod_exact (ELL A) M N); assumption|].
  rewrite (prod_exact _ M N) by assumption.
  rewrite (tabulate_ext (prod_row (SELL _) N (vector_base.handle p))
                        (prod_row (ELL A) N (vector_base.handle p))); [reflexivity|].
  intros row Hrow. unfold prod_row, matrix_entry. cbn [row_entries].
  rewrite one_block_entries by lia. reflexivity.
Qed.

Lemma X10_ell_is_one_block_witness :
  exists out,
    pipelined_cg_prod (ELL diag_ell) (vector_base.mk 2 [3; 4]%Z) (vector_base.mk 2 [99; 98]%Z)
      (vector_base.mk 3 [7; 8; 9]%Z) = inr out /\
    pipelined_cg_prod (SELL (sliced_ell_matrix.mk 2 2 [5; 7; 0; 0]%Z [2; 0] [0; 1; 0; 0] [0]))
      (vector_base.mk 2 [3; 4]%Z) (vector_base.mk 2 [99; 98]%Z) (vector_base.mk 3 [7; 8; 9]%Z)
    = inr out.
Proof.
  apply (X10_ell_is_one_block Z Z_Scalar Z_ScalarLaws diag_ell 2 2
           (vector_base.mk 2 [3; 4]%Z) (vector_base.mk 2 [99; 98]%Z)
           (vector_base.mk 3 [7; 8; 9]%Z) eq_refl).
  - cbn. lia.
  - cbn. lia.
  - intros row item Hrow Hitem. cbn in Hrow, Hitem.
    destruct row as [|[|row]]; destruct item as [|[|item]]; try lia;
      (split; [cbn; lia|]); cbn; intros Hval; try discriminate Hval.
    + exists 0. split; [reflexivity | lia].
    + exists 1. split; [reflexivity | lia].
  - unfold vectors_ok. cbn. lia.
Defined.

(** X11.  The stride of the reduction buffer is [size / 3], rounded
    down.  With a buffer of fewer than three elements the stride is [0]:
    both reductions of a product are stored at offset [0], [(Ap,Ap)]
    first and [(p,Ap)] over it, so the buffer ends with [(p,Ap)] at
    offset [0] and is otherwise unchanged. *)
Theorem X11_short_reduction_buffer :
  forall (T : Type) (S : Scalar T) (A : sparse_matrix T) (M N : nat)
         (p Ap buf : vector_base.t T),
    (forall x y : T, tmul x y = tmul y x) ->
    matrix_ok A M N -> buffers_ok M N p Ap buf -> vector_base.size buf < 3 ->
    exists Ap' buf',
      pipelined_cg_prod A p Ap buf = inr (Ap', buf') /\
      vector_base.handle buf' !! 0
        = Some (inner_prod (vector_base.handle p) (vector_base.handle Ap') M) /\
      (forall j, j <> 0 -> vector_base.handle buf' !! j = vector_base.handle buf !! j).
Proof.
  intros T S A M N p Ap buf Hcomm Hok Hbuf Hshort.
  do 2 eexists. split; [apply (prod_run_buffers A M N); assumption|].
  destruct Hbuf as (_ & _ & _ & _ & Hlen).
  assert (HB : vector_base.size buf / 3 = 0) by (apply Nat.div_small; exact Hshort).
  unfold stored_inner_prods. rewrite HB in *. cbn [vector_base.handle Nat.mul].
  rewrite (kernel_pAp_comm Hcomm). split.
  - apply list_lookup_insert_eq. rewrite length_insert. lia.
  - intros j Hj. rewrite !list_lookup_insert_ne by lia. reflexivity.
Qed.

Lemma X11_short_reduction_buffer_witness :
  exists Ap' buf',
    pipelined_cg_prod one_by_one_csr (vector_base.mk 1 [3%Z]) (vector_base.mk 1 [0%Z])
      (vector_base.mk 2 [7; 8]%Z) = inr (Ap', buf') /\
    vector_base.handle buf' !! 0 = Some (inner_prod [3%Z] (vector_base.handle Ap') 1) /\
    (forall j, j <> 0 -> vector_base.handle buf' !! j = [7; 8]%Z !! j).
Proof.
  apply (X11_short_reduction_buffer Z Z_Scalar one_by_one_csr 1 1 (vector_base.mk 1 [3%Z])
           (vector_base.mk 1 [0%Z]) (vector_base.mk 2 [7; 8]%Z) Z.mul_comm one_by_one_csr_ok).
  - unfold buffers_ok. cbn. lia.
  - cbn. lia.
Defined.

Section HybridSum.
Context {T : Type} `{ScalarLaws T}.

Lemma dot_pv_init (es : list (nat * T)) (pb : list T) (init : T) :
  dot_pv es pb init = tadd init (dot_pv es pb tzero).
Proof.
  unfold dot_pv. revert init. induction es as [|cv es IH] using rev_ind; intros init.
  - cbn [fold_left]. rewrite tadd_0_r. reflexivity.
  - rewrite !fold_left_app. cbn [fold_left]. rewrite IH, tadd_assoc. reflexivity.
Qed.

End HybridSum.

(** X12.  The hybrid kernel adds up its two parts: on a well-formed
    hybrid matrix, every row of the [Ap] it returns is the sum of the
    row the ELL kernel returns for the ELL part and the row the
    compressed-matrix kernel returns for the overflow part (exact
    arithmetic). *)
Theorem X12_hyb_is_sum_of_parts :
  forall (T : Type) (S : Scalar T) (L : ScalarLaws T) (A : hyb_matrix.t T) (M N : nat)
         (p Ap buf : vector_base.t T),
    matrix_ok (HYB A) M N -> vectors_ok M N p Ap buf ->
    exists ApH bufH ApE bufE ApC bufC,
      pipelined_cg_prod (HYB A) p Ap buf = inr (ApH, bufH) /\
      pipelined_cg_prod
        (ELL (ell_matrix.mk (hyb_matrix.size1 A) (hyb_matrix.internal_size1 A)
                (hyb_matrix.internal_ellnnz A) (hyb_matrix.handle A) (hyb_matrix.handle2 A)))
        p Ap buf = inr (ApE, bufE) /\
      pipelined_cg_prod
        (CSR (compressed_matrix.mk (hyb_matrix.size1 A) (hyb_matrix.handle5 A)
                (hyb_matrix.handle3 A) (hyb_matrix.handle4 A)))
        p Ap buf = inr (ApC, bufC) /\
      forall row, row < M ->
        get (vector_base.handle ApH) row
        = tadd (get (vector_base.handle ApE) row) (get (vector_base.handle ApC) row).
Proof.
  intros T S L A M N p Ap buf Hok Hvec. pose proof Hok as (HM & Hell & Hcsr).
  do 6 eexists. split; [apply (prod_run (HYB A) M N); assumption|].
  split; [apply (prod_run (ELL _) M N); [split; assumption | exact Hvec]|].
  split; [apply (prod_run (CSR _) M N); [split; assumption | exact Hvec]|].
  intros row Hrow. cbn [vector_base.handle]. rewrite !tabulate_get_lt by exact Hrow.
  cbn [kernel_row row_entries ell_matrix.handle ell_matrix.handle2 ell_matrix.internal_size1
       ell_matrix.internal_maxnnz compressed_matrix.handle compressed_matrix.handle1
       compressed_matrix.handle2].
  unfold hyb_entries. unfold dot_pv at 1. rewrite fold_left_app.
  fold (dot_pv (ell_entries (hyb_matrix.handle A) (hyb_matrix.handle2 A)
                  (hyb_matrix.internal_size1 A) (hyb_matrix.internal_ellnnz A) row)
          (vector_base.handle p) tzero).
  fold (dot_pv (csr_entries (hyb_matrix.handle3 A) (hyb_matrix.handle4 A)
                  (hyb_matrix.handle5 A) row) (vector_base.handle p)
          (dot_pv (ell_entries (hyb_matrix.handle A) (hyb_matrix.handle2 A)
                     (hyb_matrix.internal_size1 A) (hyb_matrix.internal_ellnnz A) row)
             (vector_base.handle p) tzero)).
  rewrite dot_pv_init.
  rewrite (dot_pv_vp (csr_entries (hyb_matrix.handle3 A) (hyb_matrix.handle4 A)
                        (hyb_matrix.handle5 A) row)).
  reflexivity.
Qed.

Lemma X12_hyb_is_sum_of_parts_witness :
  exists ApH bufH ApE bufE ApC bufC,
    pipelined_cg_prod (HYB (hyb_matrix.mk 2 2 1 [5; 7]%Z [0; 1] [0; 1; 1] [1] [2%Z]))
      (vector_base.mk 2 [3; 4]%Z) (vector_base.mk 2 [99; 98]%Z) (vector_base.mk 3 [7; 8; 9]%Z)
    = inr (ApH, bufH) /\
    pipelined_cg_prod (ELL (ell_matrix.mk 2 2 1 [5; 7]%Z [0; 1]))
      (vector_base.mk 2 [3; 4]%Z) (vector_base.mk 2 [99; 98]%Z) (vector_base.mk 3 [7; 8; 9]%Z)
    = inr (ApE, bufE) /\
    pipelined_cg_prod (CSR (compressed_matrix.mk 2 [2%Z] [0; 1; 1] [1]))
      (vector_base.mk 2 [3; 4]%Z) (vector_base.mk 2 [99; 98]%Z) (vector_base.mk 3 [7; 8; 9]%Z)
    = inr (ApC, bufC) /\
    forall row, row < 2 ->
      get (vector_base.handle ApH) row
      = tadd (get (vector_base.handle ApE) row) (get (vector_base.handle ApC) row).
Proof.
  apply (X12_hyb_is_sum_of_parts Z Z_Scalar Z_ScalarLaws
           (hyb_matrix.mk 2 2 1 [5; 7]%Z [0; 1] [0; 1; 1] [1] [2%Z]) 2 2
           (vector_base.mk 2 [3; 4]%Z) (vector_base.mk 2 [99; 98]%Z)
           (vector_base.mk 3 [7; 8; 9]%Z)).
  - split; [reflexivity|]. split.
    + intros row item Hrow Hitem. cbn in Hitem. assert (item = 0) as -> by lia.
      destruct row as [|[|row]]; [| |lia]; (split; [cbn; lia|]); intros _.
      * exists 0. split; [reflexivity | lia].
      * exists 1. split; [reflexivity | lia].
    + split; [cbn; lia|]. intros row i Hrow Hi.
      destruct row as [|[|row]]; cbn in Hi; try lia.
      assert (i = 0) as -> by lia. split; [cbn; lia|].
      exists 1. split; [reflexivity | lia].
  - unfold vectors_ok. cbn. lia.
Defined.
